(** * LZ77 codec (lz77.h): shallow embedding and verified properties

    The development follows [src/lz77.h]:
    - bytes are [Byte.byte]; [byte.unsigned] / [byte.of_Z] are the C
      conversions between [uint8_t] and wider integers (the latter wraps
      modulo 256);
    - pointers into a buffer are [Z] offsets from the start of that buffer;
    - [uint32_t] values are [Z] with the wrap-around [u32] written out where
      the source converts a pointer difference or multiplies; the [int] that
      [lz77_compress] returns is the number of bytes written narrowed by
      [to_int];
    - the output cursor [op] of the compressor and of the decompressor only
      ever moves forward over bytes it has just written, so the written part
      of the output buffer is the list of bytes emitted so far and
      [op - out] is its length;
    - the workspace is the table [uint32_t htab[HASH_SIZE]];
    - C loops are structural recursions on a fuel argument; every entry point
      supplies the fuel itself and the theorems show that it never runs
      out.

    The last part follows [src/tools/mzip.c], the archive tool built on the
    codec: chunk headers, the Adler-32 checksum, the check of file names,
    and [pack_file] / [unpack_file] over files modelled by their
    contents. *)

From Stdlib Require Import ZArith List Lia Bool ZifyBool.
From coqutil Require Import Byte Word.LittleEndianList.
Import ListNotations.
Local Open Scope Z_scope.

(** the plain type of bytes (coqutil's notation wraps it in a cast) *)
Abbreviation byte := Init.Byte.byte (only parsing).

(** ** Constants of lz77.h *)

Definition MAX_COPY : Z := 32.
Definition MAX_LEN : Z := 264.
Definition MAX_DISTANCE : Z := 8192.
Definition MIN_MATCH_LEN : Z := 3.
Definition MIN_INPUT_SIZE : Z := 13.
Definition HASH_LOG : Z := 13.
Definition HASH_SIZE : Z := Z.shiftl 1 HASH_LOG.
Definition HASH_MASK : Z := HASH_SIZE - 1.
Definition COMPRESS_OVERHEAD : Z := 128.
Definition INT_MAX : Z := 2147483647.

(** ** Buffers addressed by integer offsets *)

Definition u32 (z : Z) : Z := z mod 2 ^ 32.

(** the conversion of a pointer difference to [int] at a [return]: the low
    32 bits, read as a two's-complement number *)
Definition to_int (z : Z) : Z := (z + 2 ^ 31) mod 2 ^ 32 - 2 ^ 31.

Definition zlen {A : Type} (l : list A) : Z := Z.of_nat (List.length l).

(** [*(buf + p)] *)
Definition byte_at (buf : list byte) (p : Z) : byte :=
  nth (Z.to_nat p) buf Byte.x00.

(** the [n] bytes a [memcpy(_, buf + p, n)] reads: [buf[p]], ...,
    [buf[p + n - 1]] *)
Definition bytes_at (buf : list byte) (p n : Z) : list byte :=
  map (fun i => byte_at buf (p + Z.of_nat i)) (seq 0 (Z.to_nat n)).

Fixpoint list_set {A : Type} (l : list A) (n : nat) (v : A) : list A :=
  match l, n with
  | [], _ => []
  | _ :: t, O => v :: t
  | x :: t, S n' => x :: list_set t n' v
  end.

(** [htab[h]] and [htab[h] = v] *)
Definition htab_get (htab : list Z) (h : Z) : Z := nth (Z.to_nat h) htab 0.
Definition htab_set (htab : list Z) (h v : Z) : list Z :=
  list_set htab (Z.to_nat h) (u32 v).

(** ** Compressor *)

Definition lz77_hash (v : Z) : Z :=
  let v := Z.lxor v (Z.shiftr v 15) in
  let v := u32 (v * 0x27d4eb2d) in
  Z.shiftr v (32 - HASH_LOG).

(** little-endian unaligned load, as [memcpy] into a [uint32_t] gives on the
    targets the library is built for *)
Definition lz77_read32 (buf : list byte) (p : Z) : Z :=
  le_combine [byte_at buf p; byte_at buf (p + 1);
              byte_at buf (p + 2); byte_at buf (p + 3)].

(** [lz77_read32(p) & 0xffffff] *)
Definition seq24 (buf : list byte) (p : Z) : Z :=
  Z.land (lz77_read32 buf p) 0xffffff.

Fixpoint match_len_loop (fuel : nat) (buf : list byte)
    (ref_ptr ip_ptr ip_end : Z) : Z :=
  match fuel with
  | O => ref_ptr
  | S fuel' =>
      if (ip_ptr <? ip_end)
         && Byte.eqb (byte_at buf ref_ptr) (byte_at buf ip_ptr)
      then match_len_loop fuel' buf (ref_ptr + 1) (ip_ptr + 1) ip_end
      else ref_ptr
  end.

Definition match_len (buf : list byte) (ref_ptr ip_ptr ip_end : Z) : Z :=
  let start := ref_ptr in
  u32 (match_len_loop (Z.to_nat (ip_end - ip_ptr)) buf ref_ptr ip_ptr ip_end
       - start).

(** the [for] loop of [match]: one three-byte token per [MAX_LEN - 2] *)
Fixpoint match_split (fuel : nat) (len distance : Z) (op : list byte)
    : Z * list byte :=
  match fuel with
  | O => (len, op)
  | S fuel' =>
      if len >? MAX_LEN - 2 then
        match_split fuel' (len - (MAX_LEN - 2)) distance
          (op ++ [byte.of_Z (Z.shiftl 7 5 + Z.shiftr distance 8);
                  byte.of_Z (MAX_LEN - 2 - 7 - 2);
                  byte.of_Z (Z.land distance 255)])
      else (len, op)
  end.

(** [match(len, distance, op)]; the name [match] is reserved in Rocq *)
Definition match_ (len distance : Z) (op : list byte) : list byte :=
  let distance := u32 (distance - 1) in
  let '(len, op) := match_split (Z.to_nat len) len distance op in
  let op := op ++ [byte.of_Z (Z.lor (Z.shiftl (if len <? 7 then len else 7) 5)
                                    (Z.shiftr distance 8))] in
  let op := if len >=? 7 then op ++ [byte.of_Z (len - 7)] else op in
  op ++ [byte.of_Z (Z.land distance 255)].

Fixpoint literals_loop (fuel : nat) (runs src : Z) (buf dest : list byte)
    : Z * Z * list byte :=
  match fuel with
  | O => (runs, src, dest)
  | S fuel' =>
      if runs >=? MAX_COPY then
        literals_loop fuel' (runs - MAX_COPY) (src + MAX_COPY) buf
          (dest ++ byte.of_Z (MAX_COPY - 1) :: bytes_at buf src MAX_COPY)
      else (runs, src, dest)
  end.

(** [literals(runs, buf + src, dest)] *)
Definition literals (runs src : Z) (buf dest : list byte) : list byte :=
  let '(runs, src, dest) := literals_loop (Z.to_nat runs) runs src buf dest in
  if runs =? 0 then dest
  else dest ++ byte.of_Z (runs - 1) :: bytes_at buf src runs.

(** the inner [do ... while (seq != cmp)] of the main loop; the result is
    [(ip, ref, distance, htab)] at the loop exit, by [break] or by the loop
    condition *)
Fixpoint find_candidate (fuel : nat) (buf : list byte) (ip_limit ip : Z)
    (htab : list Z) : option (Z * Z * Z * list Z) :=
  match fuel with
  | O => None
  | S fuel' =>
      let seq := seq24 buf ip in
      let hash := lz77_hash seq in
      let ref := htab_get htab hash in
      let distance := u32 (ip - ref) in
      let htab := htab_set htab hash ip in
      let cmp := if distance <? MAX_DISTANCE then seq24 buf ref
                 else 0x1000000 in
      if ip >=? ip_limit then Some (ip, ref, distance, htab)
      else
        let ip := ip + 1 in
        if seq =? cmp then Some (ip, ref, distance, htab)
        else find_candidate fuel' buf ip_limit ip htab
  end.

(** Step 1 ([k = 1]) and Step 2 ([k = 2]) of the lazy matching are the same
    code at [ip + k]; the tuple is [(lazy_step, len, distance, ref)]. *)
Definition lazy_at (buf : list byte) (in_end ip_limit ip : Z) (htab : list Z)
    (k : Z) (best : Z * Z * Z * Z) : Z * Z * Z * Z :=
  let '(lazy_step, len, distance, ref) := best in
  if ip + k <? ip_limit then
    let seq_next := seq24 buf (ip + k) in
    let hash_next := lz77_hash seq_next in
    let ref_next := htab_get htab hash_next in
    let distance_next := u32 ((ip + k) - ref_next) in
    if (distance_next <? MAX_DISTANCE) && (seq24 buf ref_next =? seq_next)
    then
      let len_next :=
        match_len buf (ref_next + MIN_MATCH_LEN) (ip + k + MIN_MATCH_LEN)
          in_end + 1 in
      if len_next >? len + (if len <? 7 then 1 else 0)
      then (k, len_next, distance_next, ref_next)
      else best
    else best
  else best.

(** "update the hash at match boundary" *)
Definition boundary_seed (buf : list byte) (in_end ip : Z) (htab : list Z)
    : Z * list Z :=
  if ip + 4 <=? in_end then
    let seq := lz77_read32 buf ip in
    let hash := lz77_hash (Z.land seq 0xffffff) in
    let htab := htab_set htab hash ip in
    let ip := ip + 1 in
    let seq := Z.shiftr seq 8 in
    let hash := lz77_hash seq in
    let htab := htab_set htab hash ip in
    let ip := ip + 1 in
    (ip, htab)
  else
    let ip := if ip <? in_end then ip + 1 else ip in
    let ip := if ip <? in_end then ip + 1 else ip in
    (ip, htab).

(** "light backfill: seed dictionary for long matches" *)
Definition backfill (buf : list byte) (in_end ip len : Z) (htab : list Z)
    : list Z :=
  if len >? 12 then
    let p := ip - len + 5 in
    if (p >? 0) && (p + 3 <? ip) && (p + 4 <=? in_end) then
      let s := seq24 buf p in
      let h := lz77_hash s in
      htab_set htab h p
    else htab
  else htab.

(** one turn of the main loop after a candidate was found at [ip] (the
    source's [--ip] already applied); returns the new [(ip, op, htab)], the
    new anchor being the new [ip] *)
Definition emit_step (buf : list byte) (in_end ip_limit ip anchor ref distance : Z)
    (op : list byte) (htab : list Z) : Z * list byte * list Z :=
  let op := if ip >? anchor then literals (ip - anchor) anchor buf op else op in
  let len := match_len buf (ref + MIN_MATCH_LEN) (ip + MIN_MATCH_LEN) in_end + 1 in
  let best := (0, len, distance, ref) in
  let best := lazy_at buf in_end ip_limit ip htab 1 best in
  let best := lazy_at buf in_end ip_limit ip htab 2 best in
  let '(lazy_step, len, distance, ref) := best in
  let '(op, ip) :=
    if lazy_step >? 0 then (literals lazy_step ip buf op, ip + lazy_step)
    else (op, ip) in
  let op := match_ len distance op in
  let ip := ip + len in
  let '(ip, htab) := boundary_seed buf in_end ip htab in
  let htab := backfill buf in_end ip len htab in
  (ip, op, htab).

(** the [while (ip < ip_limit)] loop; the result is [(anchor, op, htab)] *)
Fixpoint compress_loop (fuel : nat) (buf : list byte) (in_end ip_limit : Z)
    (ip anchor : Z) (op : list byte) (htab : list Z)
    : option (Z * list byte * list Z) :=
  match fuel with
  | O => None
  | S fuel' =>
      if ip <? ip_limit then
        match find_candidate fuel buf ip_limit ip htab with
        | None => None
        | Some (ip, ref, distance, htab) =>
            if ip >=? ip_limit then Some (anchor, op, htab)
            else
              let ip := ip - 1 in
              let '(ip, op, htab) :=
                emit_step buf in_end ip_limit ip anchor ref distance op htab in
              compress_loop fuel' buf in_end ip_limit ip ip op htab
        end
      else Some (anchor, op, htab)
  end.

(** [memset(htab, 0, LZ77_WORKMEM_SIZE)] *)
Definition htab_zero : list Z := repeat 0 (Z.to_nat HASH_SIZE).

(** [lz77_compress(in, length, out, workmem)]: the return value, the bytes
    written to [out], and the workspace afterwards; [None] only if a loop ran
    out of fuel.  The source returns the pointer difference [op - out] as an
    [int]: the return value is [to_int] of the number of bytes written, which
    is that number as long as it does not exceed [INT_MAX]. *)
Definition lz77_compress (buf : list byte) (length : Z) (workmem : list Z)
    : option (Z * list byte * list Z) :=
  if length <=? 0 then Some (0, [], workmem)
  else if length <? MIN_INPUT_SIZE then
    let op := literals length 0 buf [] in
    Some (to_int (zlen op), op, workmem)
  else
    let in_end := length in
    let ip_limit := length - MIN_INPUT_SIZE in
    let htab := htab_zero in
    match compress_loop (Z.to_nat length) buf in_end ip_limit 2 0 [] htab with
    | None => None
    | Some (anchor, op, htab) =>
        let op := literals (length - anchor) anchor buf op in
        Some (to_int (zlen op), op, htab)
    end.

(** ** Decompressor *)

(** Outcome of a run of [lz77_decompress]: [Fault] is an access outside the
    declared buffers (undefined behaviour in C), [Fail] one of the source's
    [return 0] with the bytes written until then, [Done] the final
    [return op - out] with the bytes written. *)
Inductive dresult : Type :=
| Fault
| OutOfFuel
| Fail (written : list byte)
| Done (written : list byte).

Definition retval (r : dresult) : Z :=
  match r with
  | Done written => zlen written
  | _ => 0
  end.

Definition written_bytes (r : dresult) : list byte :=
  match r with
  | Done written | Fail written => written
  | _ => []
  end.

(** [*ip] with [ip] inside the [length] declared input bytes *)
Definition in_read (buf : list byte) (length ip : Z) : option byte :=
  if (0 <=? ip) && (ip <? length) then Some (byte_at buf ip) else None.

(** [memcpy(op, ip, n)] from the input to the end of the output *)
Definition in_copy (buf : list byte) (length max_out ip n : Z)
    (op : list byte) : option (list byte) :=
  if (0 <=? ip) && (ip + n <=? length) && (zlen op + n <=? max_out)
  then Some (op ++ bytes_at buf ip n) else None.

(** [memcpy(op, ref, n)] inside the output; the source range must lie in the
    part already written and must not overlap the destination *)
Definition out_copy (max_out ref n : Z) (op : list byte)
    : option (list byte) :=
  if (0 <=? ref) && (ref + n <=? zlen op) && (zlen op + n <=? max_out)
  then Some (op ++ bytes_at op ref n) else None.

(** the chunked copy [for (remain = len, distance = op - ref; remain;)] *)
Fixpoint copy_loop (fuel : nat) (max_out remain distance ref : Z)
    (op : list byte) : dresult :=
  if remain =? 0 then Done op
  else
    match fuel with
    | O => OutOfFuel
    | S fuel' =>
        let chunk := if remain <? distance then remain else distance in
        match out_copy max_out ref chunk op with
        | None => Fault
        | Some op =>
            copy_loop fuel' max_out (remain - chunk) distance (ref + chunk) op
        end
    end.

(** the bottom of the [while (1)] body: [if (ip > ip_bound) break;
    ctrl = *ip++;] and the next turn [loop] *)
Definition next_ctrl (loop : Z -> Z -> list byte -> dresult)
    (buf : list byte) (length ip_bound : Z) (ip : Z) (op : list byte)
    : dresult :=
  if ip >? ip_bound then Done op
  else
    match in_read buf length ip with
    | None => Fault
    | Some c => loop (ip + 1) (byte.unsigned c) op
    end.

(** a match token once its length field is complete: [ref -= *ip++;
    len += 3;], the bounds check and the copy; [ref] is [op - ofs - 1] as an
    offset into the output, [next ip op] the bottom of the loop body *)
Definition match_tail (next : Z -> list byte -> dresult)
    (buf : list byte) (length max_out : Z) (len ref ip : Z)
    (op : list byte) : dresult :=
  match in_read buf length ip with
  | None => Fault
  | Some b =>
      let ref := ref - byte.unsigned b in
      let ip := ip + 1 in
      let len := len + 3 in
      if (zlen op + len >? max_out) || (ref <? 0) then Fail op
      else
        match copy_loop (Z.to_nat len) max_out len (zlen op - ref) ref op with
        | Done op => next ip op
        | r => r
        end
  end.

(** one turn of the [while (1)] loop, entered with [ctrl] already read;
    [loop ip ctrl op] is the next turn *)
Definition decompress_body (loop : Z -> Z -> list byte -> dresult)
    (buf : list byte) (length ip_bound max_out : Z)
    (ip ctrl : Z) (op : list byte) : dresult :=
  let next := next_ctrl loop buf length ip_bound in
  if ctrl >=? 32 then
    let len := Z.shiftr ctrl 5 - 1 in
    let ofs := Z.shiftl (Z.land ctrl 31) 8 in
    let ref := zlen op - ofs - 1 in
    if (len =? 6) && (ip >? ip_bound) then Fail op
    else if len =? 6 then
      match in_read buf length ip with
      | None => Fault
      | Some e =>
          match_tail next buf length max_out (len + byte.unsigned e) ref
            (ip + 1) op
      end
    else match_tail next buf length max_out len ref ip op
  else
    let ctrl := ctrl + 1 in
    if (zlen op + ctrl >? max_out) || (ip + ctrl >? length) then Fail op
    else
      match in_copy buf length max_out ip ctrl op with
      | None => Fault
      | Some op => next (ip + ctrl) op
      end.

Fixpoint decompress_loop (fuel : nat) (buf : list byte)
    (length ip_bound max_out : Z) (ip ctrl : Z) (op : list byte) : dresult :=
  match fuel with
  | O => OutOfFuel
  | S fuel' =>
      decompress_body (decompress_loop fuel' buf length ip_bound max_out)
        buf length ip_bound max_out ip ctrl op
  end.

(** [lz77_decompress(in, length, out, max_out)] *)
Definition lz77_decompress (buf : list byte) (length max_out : Z) : dresult :=
  if length <=? 0 then Fail []
  else
    let ip_bound := if length >=? 2 then length - 2 else 0 in
    match in_read buf length 0 with
    | None => Fault
    | Some c =>
        let ctrl := Z.land (byte.unsigned c) 31 in
        decompress_loop (Z.to_nat length) buf length ip_bound max_out 1 ctrl []
    end.

(** * Facts about buffers *)

#[local] Ltac Zify.zify_post_hook ::= Z.div_mod_to_equations.

Lemma zlen_nil {A : Type} : zlen (@nil A) = 0.
Proof. reflexivity. Qed.

Lemma zlen_cons {A : Type} (a : A) (l : list A) : zlen (a :: l) = zlen l + 1.
Proof. unfold zlen; cbn [List.length]; lia. Qed.

Lemma zlen_app {A : Type} (l1 l2 : list A) :
  zlen (l1 ++ l2) = zlen l1 + zlen l2.
Proof. unfold zlen; rewrite length_app; lia. Qed.

Lemma zlen_nonneg {A : Type} (l : list A) : 0 <= zlen l.
Proof. unfold zlen; lia. Qed.

Lemma zlen_0_nil {A : Type} (l : list A) : zlen l = 0 -> l = [].
Proof. destruct l; [reflexivity | rewrite zlen_cons; pose proof (zlen_nonneg l); lia]. Qed.

Create Rewrite HintDb zlen.
#[local] Hint Rewrite @zlen_nil @zlen_cons @zlen_app : zlen.

Ltac zlen_simpl := autorewrite with zlen in *.

Ltac tuple_eq :=
  repeat (apply pair_equal_spec; split); try reflexivity; try lia.

Lemma zlen_bytes_at (buf : list byte) (p n : Z) :
  0 <= n -> zlen (bytes_at buf p n) = n.
Proof.
  intros Hn. unfold bytes_at, zlen. rewrite length_map, length_seq. lia.
Qed.

Lemma byte_at_bytes_at (buf : list byte) (p n i : Z) :
  0 <= i < n -> byte_at (bytes_at buf p n) i = byte_at buf (p + i).
Proof.
  intros Hi. unfold bytes_at. unfold byte_at at 1.
  set (f := fun k : nat => byte_at buf (p + Z.of_nat k)).
  rewrite nth_indep with (d' := f 0%nat) by (rewrite length_map, length_seq; lia).
  rewrite map_nth, seq_nth by lia. subst f. cbn beta. f_equal. lia.
Qed.

(** two buffers with the same bytes at every offset are equal *)
Lemma bytes_ext (l1 l2 : list byte) :
  zlen l1 = zlen l2 ->
  (forall i, 0 <= i < zlen l1 -> byte_at l1 i = byte_at l2 i) ->
  l1 = l2.
Proof.
  intros Hlen Hnth. apply nth_ext with (d := Byte.x00) (d' := Byte.x00).
  - unfold zlen in Hlen. lia.
  - intros n Hn. specialize (Hnth (Z.of_nat n)).
    unfold byte_at in Hnth. rewrite Nat2Z.id in Hnth.
    apply Hnth. unfold zlen. lia.
Qed.

Lemma byte_at_app_l (l1 l2 : list byte) (p : Z) :
  0 <= p < zlen l1 -> byte_at (l1 ++ l2) p = byte_at l1 p.
Proof.
  intros Hp. unfold byte_at, zlen in *. apply app_nth1. lia.
Qed.

Lemma byte_at_app_r (l1 l2 : list byte) (p : Z) :
  zlen l1 <= p -> byte_at (l1 ++ l2) p = byte_at l2 (p - zlen l1).
Proof.
  intros Hp. unfold byte_at, zlen in *. rewrite app_nth2 by lia.
  f_equal. lia.
Qed.

Lemma bytes_at_eq (buf1 buf2 : list byte) (p1 p2 n : Z) :
  (forall j, 0 <= j < n -> byte_at buf1 (p1 + j) = byte_at buf2 (p2 + j)) ->
  bytes_at buf1 p1 n = bytes_at buf2 p2 n.
Proof.
  intros Heq. unfold bytes_at. apply map_ext_in.
  intros i Hi. apply in_seq in Hi. apply Heq. lia.
Qed.

Lemma bytes_at_0 (buf : list byte) (p : Z) : bytes_at buf p 0 = [].
Proof. reflexivity. Qed.

Lemma bytes_at_split (buf : list byte) (p n m : Z) :
  0 <= n -> 0 <= m ->
  bytes_at buf p (n + m) = bytes_at buf p n ++ bytes_at buf (p + n) m.
Proof.
  intros Hn Hm. apply bytes_ext.
  - zlen_simpl. rewrite !zlen_bytes_at by lia. lia.
  - rewrite zlen_bytes_at by lia. intros i Hi.
    rewrite byte_at_bytes_at by lia.
    destruct (Z.lt_ge_cases i n) as [Hlt|Hge].
    + rewrite byte_at_app_l by (rewrite zlen_bytes_at; lia).
      now rewrite byte_at_bytes_at by lia.
    + rewrite byte_at_app_r by (rewrite zlen_bytes_at; lia).
      rewrite zlen_bytes_at, byte_at_bytes_at by lia. f_equal. lia.
Qed.

Lemma bytes_at_all (buf : list byte) : bytes_at buf 0 (zlen buf) = buf.
Proof.
  apply bytes_ext.
  - apply zlen_bytes_at, zlen_nonneg.
  - rewrite zlen_bytes_at by apply zlen_nonneg. intros i Hi.
    now rewrite byte_at_bytes_at by lia.
Qed.

Lemma bytes_at_one (buf : list byte) (p : Z) :
  bytes_at buf p 1 = [byte_at buf p].
Proof.
  unfold bytes_at. change (Z.to_nat 1) with 1%nat. cbn [seq map].
  now rewrite Z.add_0_r.
Qed.

Lemma bytes_at_app_l (l1 l2 : list byte) (p n : Z) :
  0 <= p -> p + n <= zlen l1 ->
  bytes_at (l1 ++ l2) p n = bytes_at l1 p n.
Proof.
  intros Hp Hle. apply bytes_at_eq. intros j Hj.
  apply byte_at_app_l. lia.
Qed.

Lemma bytes_at_app_r (l1 l2 : list byte) (p n : Z) :
  zlen l1 <= p ->
  bytes_at (l1 ++ l2) p n = bytes_at l2 (p - zlen l1) n.
Proof.
  intros Hle. apply bytes_at_eq. intros j Hj.
  rewrite byte_at_app_r by lia. f_equal. lia.
Qed.

(** * The decoder's back-reference copy *)

(** What a match of [n] bytes at distance [distance] appends: each new byte
    is the byte [distance] positions before it. *)
Fixpoint lz_copy (n : nat) (distance : Z) (op : list byte) : list byte :=
  match n with
  | O => op
  | S n' => lz_copy n' distance (op ++ [byte_at op (zlen op - distance)])
  end.

Lemma zlen_lz_copy (n : nat) (distance : Z) (op : list byte) :
  zlen (lz_copy n distance op) = zlen op + Z.of_nat n.
Proof.
  revert op; induction n as [|n IH]; intros op; cbn [lz_copy]; [lia|].
  rewrite IH. zlen_simpl. lia.
Qed.

Lemma lz_copy_add (a b : nat) (distance : Z) (op : list byte) :
  lz_copy (a + b) distance op = lz_copy b distance (lz_copy a distance op).
Proof.
  revert op; induction a as [|a IH]; intros op; cbn [Nat.add lz_copy]; auto.
Qed.

Lemma lz_copy_chunk (k : nat) (distance : Z) (op : list byte) :
  Z.of_nat k <= distance -> distance <= zlen op ->
  lz_copy k distance op = op ++ bytes_at op (zlen op - distance) (Z.of_nat k).
Proof.
  revert op; induction k as [|k IH]; intros op Hk Hd.
  - cbn. now rewrite app_nil_r.
  - cbn [lz_copy]. rewrite IH by (zlen_simpl; lia).
    rewrite <- app_assoc. f_equal.
    replace (Z.of_nat (S k)) with (1 + Z.of_nat k) by lia.
    rewrite bytes_at_split by lia.
    rewrite bytes_at_one by lia. cbn [app]. f_equal.
    zlen_simpl.
    rewrite bytes_at_app_l by lia. f_equal. lia.
Qed.

Lemma copy_loop_correct (fuel : nat) (max_out : Z) :
  forall (remain distance ref : Z) (op : list byte),
    0 <= remain <= Z.of_nat fuel ->
    1 <= distance -> 0 <= ref -> ref = zlen op - distance ->
    zlen op + remain <= max_out ->
    copy_loop fuel max_out remain distance ref op
    = Done (lz_copy (Z.to_nat remain) distance op).
Proof.
  induction fuel as [|fuel IH]; intros remain distance ref op Hr Hd Href Eref Hcap.
  - assert (remain = 0) by lia; subst remain. reflexivity.
  - cbn [copy_loop]. destruct (remain =? 0) eqn:E0.
    + assert (remain = 0) by lia; subst remain. reflexivity.
    + set (chunk := if remain <? distance then remain else distance).
      assert (Hc : 1 <= chunk <= remain /\ chunk <= distance)
        by (subst chunk; destruct (remain <? distance) eqn:E; lia).
      unfold out_copy.
      replace ((0 <=? ref) && (ref + chunk <=? zlen op)
               && (zlen op + chunk <=? max_out)) with true by lia.
      rewrite IH; try (zlen_simpl; rewrite ?zlen_bytes_at by lia; lia).
      f_equal.
      replace (Z.to_nat remain)
        with (Z.to_nat chunk + Z.to_nat (remain - chunk))%nat by lia.
      rewrite lz_copy_add. f_equal.
      rewrite lz_copy_chunk by lia.
      rewrite Z2Nat.id by lia. subst ref. reflexivity.
Qed.

(** * Memory safety of the decoder *)

(** A run is [good] when it ended by one of the source's [return]s, having
    written only below [max_out]; a successful run has written more than
    [lo] bytes. *)
Definition good (max_out lo : Z) (r : dresult) : Prop :=
  match r with
  | Fault | OutOfFuel => False
  | Fail w => zlen w <= Z.max 0 max_out
  | Done w => lo < zlen w <= max_out
  end.

Lemma good_weaken (max_out lo lo' : Z) (r : dresult) :
  lo <= lo' -> good max_out lo' r -> good max_out lo r.
Proof. destruct r; cbn; lia. Qed.

Lemma byte_range (b : byte) : 0 <= byte.unsigned b < 256.
Proof. exact (byte.unsigned_range b). Qed.

Lemma ctrl_fields (ctrl : Z) :
  0 <= ctrl < 256 ->
  Z.shiftr ctrl 5 = ctrl / 32 /\ Z.land ctrl 31 = ctrl mod 32
  /\ Z.shiftl (Z.land ctrl 31) 8 = (ctrl mod 32) * 256.
Proof.
  intros H. change 31 with (Z.ones 5).
  rewrite Z.shiftr_div_pow2, Z.land_ones, Z.shiftl_mul_pow2 by lia.
  repeat split.
Qed.

Lemma in_read_ok (buf : list byte) (length ip : Z) :
  0 <= ip < length -> in_read buf length ip = Some (byte_at buf ip).
Proof.
  intros H. unfold in_read.
  now replace ((0 <=? ip) && (ip <? length)) with true by lia.
Qed.

Section DecoderSafety.
Variables (buf : list byte) (length max_out ip_bound : Z).
Hypothesis Hbound : ip_bound = if length >=? 2 then length - 2 else 0.

Lemma next_ctrl_good (loop : Z -> Z -> list byte -> dresult)
    (ip lo : Z) (op : list byte) :
  (forall c, 0 <= c < 256 -> ip <= ip_bound ->
             good max_out (zlen op) (loop (ip + 1) c op)) ->
  1 <= ip -> lo < zlen op <= max_out ->
  good max_out lo (next_ctrl loop buf length ip_bound ip op).
Proof.
  intros Hloop Hip Hop. unfold next_ctrl.
  destruct (ip >? ip_bound) eqn:E; [cbn; lia|].
  rewrite in_read_ok by (destruct (length >=? 2) eqn:E2; lia).
  apply good_weaken with (lo' := zlen op); [lia|].
  apply Hloop; [apply byte_range | lia].
Qed.

Lemma decompress_loop_good (fuel : nat) :
  forall (ip ctrl : Z) (op : list byte),
    1 <= ip <= length -> (32 <= ctrl -> ip < length) ->
    0 <= ctrl < 256 -> zlen op <= Z.max 0 max_out ->
    length < Z.of_nat fuel + ip ->
    good max_out (zlen op)
      (decompress_loop fuel buf length ip_bound max_out ip ctrl op).
Proof.
  induction fuel as [|fuel IH]; intros ip ctrl op Hip Hm Hctrl Hop Hfuel;
    [lia|].
  cbn [decompress_loop]. unfold decompress_body.
  destruct (ctrl_fields ctrl Hctrl) as (E1 & E2 & E3).
  destruct (ctrl >=? 32) eqn:Ec.
  - (* match token *)
    rewrite E1, E3.
    destruct ((ctrl / 32 - 1 =? 6) && (ip >? ip_bound)) eqn:Et; [cbn; lia|].
    assert (Htail : forall len ip' ref,
               0 <= len < 262 -> ip <= ip' < length ->
               ref < zlen op ->
               good max_out (zlen op)
                 (match_tail
                    (next_ctrl
                       (decompress_loop fuel buf length ip_bound max_out)
                       buf length ip_bound)
                    buf length max_out len ref ip' op)).
    { intros len ip' ref Hlen Hip' Href. unfold match_tail.
      rewrite in_read_ok by lia.
      pose proof (byte_range (byte_at buf ip')) as Hb.
      set (ref' := ref - byte.unsigned (byte_at buf ip')).
      destruct ((zlen op + (len + 3) >? max_out) || (ref' <? 0)) eqn:Eg;
        [cbn; lia|].
      rewrite copy_loop_correct by (subst ref'; lia).
      apply next_ctrl_good; [|lia|rewrite zlen_lz_copy; lia].
      intros c Hc Hle.
      apply IH; rewrite ?zlen_lz_copy; try lia;
        destruct (length >=? 2) eqn:E2'; lia. }
    destruct (ctrl / 32 - 1 =? 6) eqn:E6.
    + rewrite in_read_ok by (destruct (length >=? 2) eqn:E2'; lia).
      pose proof (byte_range (byte_at buf ip)).
      apply Htail; destruct (length >=? 2) eqn:E2'; lia.
    + apply Htail; lia.
  - (* literal run *)
    destruct ((zlen op + (ctrl + 1) >? max_out)
              || (ip + (ctrl + 1) >? length)) eqn:Eg; [cbn; lia|].
    unfold in_copy.
    replace ((0 <=? ip) && (ip + (ctrl + 1) <=? length)
             && (zlen op + (ctrl + 1) <=? max_out)) with true by lia.
    assert (Hz : zlen (op ++ bytes_at buf ip (ctrl + 1))
                 = zlen op + (ctrl + 1))
      by (zlen_simpl; rewrite zlen_bytes_at; lia).
    apply next_ctrl_good; [|lia|lia].
    intros c Hc Hle.
    apply IH; try lia; destruct (length >=? 2) eqn:E2'; lia.
Qed.
End DecoderSafety.

Lemma lz77_decompress_good (buf : list byte) (length max_out : Z) :
  good max_out 0 (lz77_decompress buf length max_out).
Proof.
  unfold lz77_decompress.
  destruct (length <=? 0) eqn:El; [cbn; lia|].
  rewrite in_read_ok by lia.
  pose proof (byte_range (byte_at buf 0)) as Hb.
  destruct (ctrl_fields _ Hb) as (_ & E2 & _). rewrite E2.
  apply decompress_loop_good; rewrite ?zlen_nil; try reflexivity; lia.
Qed.


(** * The output capacity only decides between success and failure *)

Section Capacity.
Variables (buf : list byte) (length ip_bound : Z).
Variables (N M : Z).

(** a turn run with capacity [N] and the same turn with capacity [M]
    agree in the sense of the monotonic-capacity property *)
Definition agree (loopN loopM : Z -> Z -> list byte -> dresult) : Prop :=
  forall (ip c : Z) (op w : list byte),
    0 <= c < 256 ->
    loopN ip c op = Done w ->
    zlen op <= zlen w
    /\ (zlen w <= M -> loopM ip c op = Done w)
    /\ (M < zlen w -> exists w', loopM ip c op = Fail w').

Lemma next_ctrl_agree (loopN loopM : Z -> Z -> list byte -> dresult)
    (ip : Z) (op w : list byte) :
  agree loopN loopM ->
  next_ctrl loopN buf length ip_bound ip op = Done w ->
  zlen op <= zlen w
  /\ (zlen w <= M -> next_ctrl loopM buf length ip_bound ip op = Done w)
  /\ (M < zlen w -> zlen op <= M ->
      exists w', next_ctrl loopM buf length ip_bound ip op = Fail w').
Proof.
  intros Hag. unfold next_ctrl.
  destruct (ip >? ip_bound).
  - intros [= <-]. repeat split; auto; lia.
  - destruct (in_read buf length ip) as [c|]; [|discriminate].
    intros H. destruct (Hag _ _ _ _ (byte_range c) H) as (H1 & H2 & H3).
    auto.
Qed.

Lemma match_tail_agree (loopN loopM : Z -> Z -> list byte -> dresult)
    (len ref ip : Z) (op w : list byte) :
  agree loopN loopM -> 0 <= len -> ref < zlen op ->
  match_tail (next_ctrl loopN buf length ip_bound) buf length N len ref ip op
  = Done w ->
  zlen op <= zlen w
  /\ (zlen w <= M ->
      match_tail (next_ctrl loopM buf length ip_bound) buf length M
        len ref ip op = Done w)
  /\ (M < zlen w ->
      exists w',
        match_tail (next_ctrl loopM buf length ip_bound) buf length M
          len ref ip op = Fail w').
Proof.
  intros Hag Hlen Href. unfold match_tail.
  destruct (in_read buf length ip) as [b|]; [|discriminate].
  pose proof (byte_range b) as Hb.
  set (ref' := ref - byte.unsigned b).
  destruct ((zlen op + (len + 3) >? N) || (ref' <? 0)) eqn:EgN;
    [discriminate|].
  rewrite copy_loop_correct by (subst ref'; lia).
  intros H.
  destruct (next_ctrl_agree _ _ _ _ _ Hag H) as (H1 & H2 & H3).
  rewrite zlen_lz_copy in H1, H3.
  destruct ((zlen op + (len + 3) >? M) || (ref' <? 0)) eqn:EgM.
  - repeat split; [lia|lia|eauto].
  - rewrite copy_loop_correct by (subst ref'; lia).
    repeat split; [lia|auto|]. intros HM. apply H3; lia.
Qed.

Lemma decompress_body_agree (loopN loopM : Z -> Z -> list byte -> dresult) :
  agree loopN loopM ->
  agree (decompress_body loopN buf length ip_bound N)
        (decompress_body loopM buf length ip_bound M).
Proof.
  intros Hag ip ctrl op w Hctrl. unfold decompress_body. cbv zeta.
  destruct (ctrl_fields ctrl Hctrl) as (E1 & E2 & E3). rewrite E1, E3.
  destruct (ctrl >=? 32) eqn:Ec.
  - destruct ((ctrl / 32 - 1 =? 6) && (ip >? ip_bound)); [discriminate|].
    destruct (ctrl / 32 - 1 =? 6) eqn:E6.
    + destruct (in_read buf length ip) as [e|]; [|discriminate].
      pose proof (byte_range e).
      apply match_tail_agree; auto; lia.
    + apply match_tail_agree; auto; lia.
  - destruct ((zlen op + (ctrl + 1) >? N) || (ip + (ctrl + 1) >? length))
      eqn:EgN; [discriminate|].
    unfold in_copy.
    destruct ((0 <=? ip) && (ip + (ctrl + 1) <=? length)) eqn:Ein;
      cbn [andb]; [|discriminate].
    replace (zlen op + (ctrl + 1) <=? N) with true by lia.
    intros H.
    destruct (next_ctrl_agree _ _ _ _ _ Hag H) as (H1 & H2 & H3).
    zlen_simpl. rewrite zlen_bytes_at in H1, H3 by lia.
    destruct ((zlen op + (ctrl + 1) >? M) || (ip + (ctrl + 1) >? length))
      eqn:EgM.
    + repeat split; [lia|lia|eauto].
    + replace (zlen op + (ctrl + 1) <=? M) with true by lia.
      repeat split; [lia|auto|]. intros HM. apply H3; lia.
Qed.

Lemma decompress_loop_agree (fuel : nat) :
  agree (decompress_loop fuel buf length ip_bound N)
        (decompress_loop fuel buf length ip_bound M).
Proof.
  induction fuel as [|fuel IH].
  - intros ip c op w _ [=].
  - cbn [decompress_loop]. now apply decompress_body_agree.
Qed.
End Capacity.

(** C3. Monotonic capacity: if [lz77_decompress] succeeds on [c] with
    capacity [N], writing [w] and returning [r = zlen w > 0], then with any
    capacity [M >= r] it succeeds with the same bytes and the same [r], and
    with any capacity [M < r] it fails and returns 0. *)
Theorem decompress_capacity_monotonic
    (c : list byte) (length N : Z) (w : list byte) :
  0 < length ->
  lz77_decompress c length N = Done w ->
  0 < retval (Done w)
  /\ (forall M, retval (Done w) <= M ->
                lz77_decompress c length M = Done w)
  /\ (forall M, M < retval (Done w) ->
                (exists w', lz77_decompress c length M = Fail w')
                /\ retval (lz77_decompress c length M) = 0).
Proof.
  intros Hlen H. cbn [retval].
  split.
  { pose proof (lz77_decompress_good c length N) as G.
    rewrite H in G. cbn in G. lia. }
  unfold lz77_decompress in *.
  destruct (length <=? 0); [discriminate|].
  destruct (in_read c length 0) as [b|]; [|discriminate].
  assert (Hc : 0 <= Z.land (byte.unsigned b) 31 < 256).
  { destruct (ctrl_fields _ (byte_range b)) as (_ & -> & _).
    pose proof (byte_range b). lia. }
  split; intros M HM.
  - destruct (decompress_loop_agree c length _ N M _ _ _ _ _ Hc H)
      as (_ & H2 & _). auto.
  - destruct (decompress_loop_agree c length _ N M _ _ _ _ _ Hc H)
      as (_ & _ & H3). destruct (H3 HM) as [w' Hw'].
    rewrite Hw'. split; [eauto|reflexivity].
Qed.

(** * Tokens of the wire format *)

(** A literal run carrying its bytes, or a back-reference of [len] bytes at
    [distance]. *)
Inductive token : Type :=
| TLit (bs : list byte)
| TMatch (len distance : Z).

Definition token_len (t : token) : Z :=
  match t with
  | TLit bs => zlen bs
  | TMatch len _ => len
  end.

Definition wf_token (t : token) : Prop :=
  match t with
  | TLit bs => 1 <= zlen bs <= MAX_COPY
  | TMatch len distance =>
      MIN_MATCH_LEN <= len <= MAX_LEN /\ 1 <= distance <= MAX_DISTANCE
  end.

(** the bytes of one token: control byte, optional length extension, low
    distance byte; or control byte and the literals *)
Definition encode_token (t : token) : list byte :=
  match t with
  | TLit bs => byte.of_Z (zlen bs - 1) :: bs
  | TMatch len distance =>
      let d := distance - 1 in
      if len <? 9 then
        [byte.of_Z ((len - 2) * 32 + d / 256); byte.of_Z (d mod 256)]
      else
        [byte.of_Z (7 * 32 + d / 256); byte.of_Z (len - 9);
         byte.of_Z (d mod 256)]
  end.

Definition encode_tokens (ts : list token) : list byte :=
  flat_map encode_token ts.

(** what the decoder appends to the output for one token *)
Definition apply_token (op : list byte) (t : token) : list byte :=
  match t with
  | TLit bs => op ++ bs
  | TMatch len distance => lz_copy (Z.to_nat len) distance op
  end.

Lemma encode_tokens_app (ts1 ts2 : list token) :
  encode_tokens (ts1 ++ ts2) = encode_tokens ts1 ++ encode_tokens ts2.
Proof. apply flat_map_app. Qed.

Lemma encode_tokens_cons (t : token) (ts : list token) :
  encode_tokens (t :: ts) = encode_token t ++ encode_tokens ts.
Proof. reflexivity. Qed.

Lemma unsigned_of_Z_small (z : Z) :
  0 <= z < 256 -> byte.unsigned (byte.of_Z z) = z.
Proof.
  intros H. rewrite byte.unsigned_of_Z. unfold byte.wrap.
  apply Z.mod_small. lia.
Qed.

Lemma zlen_encode_token (t : token) :
  zlen (encode_token t)
  = match t with
    | TLit bs => zlen bs + 1
    | TMatch len _ => if len <? 9 then 2 else 3
    end.
Proof.
  destruct t as [bs|len d]; cbn [encode_token].
  - now rewrite zlen_cons.
  - destruct (len <? 9); reflexivity.
Qed.

(** [x << 5 | y] when [y] fits in the five low bits *)
Lemma lor_shiftl_5 (c y : Z) :
  0 <= c -> 0 <= y < 32 -> Z.lor (Z.shiftl c 5) y = c * 32 + y.
Proof.
  intros Hc Hy. rewrite Z.shiftl_mul_pow2 by lia.
  change (2 ^ 5) with 32.
  rewrite <- Z.lxor_lor, <- Z.add_nocarry_lxor; try reflexivity.
  all: apply Z.bits_inj'; intros n Hn; rewrite Z.land_spec, Z.bits_0.
  all: destruct (Z.lt_ge_cases n 5) as [Hlt|Hge].
  all: try (replace (c * 32) with (c * 2 ^ 5) by reflexivity;
            rewrite Z.mul_pow2_bits_low by lia; reflexivity).
  all: rewrite (Z.bits_above_log2 y n), andb_false_r; try reflexivity; try lia.
  all: destruct (Z.eq_dec y 0) as [->|Hy0]; [cbn; lia|].
  all: apply Z.log2_lt_pow2; try lia.
  all: apply Z.lt_le_trans with (m := 2 ^ 5); [cbn; lia|].
  all: apply Z.pow_le_mono_r; lia.
Qed.

Lemma u32_small (z : Z) : 0 <= z < 2 ^ 32 -> u32 z = z.
Proof. intros H. unfold u32. now apply Z.mod_small. Qed.

(** a size that fits an [int] is returned as it is *)
Lemma to_int_small (z : Z) : - 2 ^ 31 <= z <= INT_MAX -> to_int z = z.
Proof. unfold to_int, INT_MAX. lia. Qed.

(** a size is never returned as more than it is *)
Lemma to_int_le (z : Z) : 0 <= z -> to_int z <= z.
Proof. unfold to_int. lia. Qed.

Lemma distance_fields (d : Z) :
  0 <= d < 8192 ->
  Z.shiftr d 8 = d / 256 /\ Z.land d 255 = d mod 256 /\ 0 <= d / 256 < 32.
Proof.
  intros H. change 255 with (Z.ones 8).
  rewrite Z.shiftr_div_pow2, Z.land_ones by lia.
  change (2 ^ 8) with 256. repeat split; lia.
Qed.

(** ** The encoder in terms of tokens *)

Fixpoint lit_chunks (n : nat) (buf : list byte) (src : Z) : list token :=
  match n with
  | O => []
  | S n' =>
      TLit (bytes_at buf src MAX_COPY) :: lit_chunks n' buf (src + MAX_COPY)
  end.

(** the tokens [literals(runs, buf + src, _)] writes *)
Definition lit_tokens (buf : list byte) (src runs : Z) : list token :=
  lit_chunks (Z.to_nat (runs / 32)) buf src
  ++ (if runs mod 32 =? 0 then []
      else [TLit (bytes_at buf (src + 32 * (runs / 32)) (runs mod 32))]).

(** the tokens [match(len, distance, _)] writes *)
Definition match_tokens (len distance : Z) : list token :=
  repeat (TMatch (MAX_LEN - 2) distance) (Z.to_nat ((len - 1) / 262))
  ++ [TMatch ((len - 1) mod 262 + 1 + 2) distance].

Lemma literals_loop_tokens (buf : list byte) (fuel : nat) :
  forall (runs src : Z) (dest : list byte),
    0 <= runs -> runs / 32 <= Z.of_nat fuel ->
    literals_loop fuel runs src buf dest
    = (runs mod 32, src + 32 * (runs / 32),
       dest ++ encode_tokens (lit_chunks (Z.to_nat (runs / 32)) buf src)).
Proof.
  induction fuel as [|fuel IH]; intros runs src dest Hr Hf;
    cbn [literals_loop]; change MAX_COPY with 32.
  - replace (runs / 32) with 0 by lia. cbn [Z.to_nat lit_chunks encode_tokens flat_map].
    rewrite app_nil_r. repeat f_equal; lia.
  - destruct (runs >=? 32) eqn:E.
    + rewrite IH by lia.
      replace (runs / 32) with ((runs - 32) / 32 + 1) by lia.
      replace (Z.to_nat ((runs - 32) / 32 + 1))
        with (S (Z.to_nat ((runs - 32) / 32))) by lia.
      cbn [lit_chunks]. rewrite encode_tokens_cons. cbn [encode_token].
      change MAX_COPY with 32. rewrite zlen_bytes_at by lia.
      rewrite <- app_assoc. cbn [app].
      tuple_eq.
    + replace (runs / 32) with 0 by lia.
      cbn [Z.to_nat lit_chunks encode_tokens flat_map].
      rewrite app_nil_r. tuple_eq.
Qed.

Lemma literals_tokens (buf : list byte) (runs src : Z) (dest : list byte) :
  0 <= runs ->
  literals runs src buf dest = dest ++ encode_tokens (lit_tokens buf src runs).
Proof.
  intros Hr. unfold literals, lit_tokens.
  rewrite literals_loop_tokens by lia.
  rewrite encode_tokens_app, app_assoc.
  destruct (runs mod 32 =? 0) eqn:E.
  - cbn. now rewrite app_nil_r.
  - f_equal. cbn [encode_tokens flat_map encode_token].
    rewrite zlen_bytes_at by lia. now rewrite app_nil_r.
Qed.

Lemma match_split_tokens (fuel : nat) :
  forall (len d : Z) (op : list byte),
    1 <= len -> (len - 1) / 262 <= Z.of_nat fuel -> 0 <= d - 1 < 8192 ->
    match_split fuel len (d - 1) op
    = ((len - 1) mod 262 + 1,
       op ++ encode_tokens
               (repeat (TMatch (MAX_LEN - 2) d) (Z.to_nat ((len - 1) / 262)))).
Proof.
  induction fuel as [|fuel IH]; intros len d op Hl Hf Hd;
    cbn [match_split]; change (MAX_LEN - 2) with 262.
  - replace ((len - 1) / 262) with 0 by lia.
    cbn [Z.to_nat repeat encode_tokens flat_map].
    rewrite app_nil_r. tuple_eq.
  - destruct (len >? 262) eqn:E.
    + rewrite IH by lia.
      replace ((len - 1) / 262) with ((len - 262 - 1) / 262 + 1) by lia.
      replace (Z.to_nat ((len - 262 - 1) / 262 + 1))
        with (S (Z.to_nat ((len - 262 - 1) / 262))) by lia.
      cbn [repeat]. rewrite encode_tokens_cons.
      rewrite <- app_assoc.
      destruct (distance_fields (d - 1) Hd) as (-> & -> & _).
      tuple_eq.
    + replace ((len - 1) / 262) with 0 by lia.
      cbn [Z.to_nat repeat encode_tokens flat_map].
      rewrite app_nil_r. tuple_eq.
Qed.

Lemma match_tokens_spec (len d : Z) (op : list byte) :
  1 <= len -> 1 <= d <= MAX_DISTANCE ->
  match_ len d op = op ++ encode_tokens (match_tokens len d).
Proof.
  unfold MAX_DISTANCE. intros Hl Hd. unfold match_, match_tokens.
  rewrite u32_small by lia.
  rewrite match_split_tokens by lia.
  rewrite encode_tokens_app, app_assoc.
  set (rest := op ++ _). set (len' := (len - 1) mod 262 + 1).
  assert (Hlen' : 1 <= len' <= 262) by (subst len'; lia).
  destruct (distance_fields (d - 1) ltac:(lia)) as (-> & -> & Hhi).
  cbn [encode_tokens flat_map encode_token]. rewrite app_nil_r.
  destruct (len' <? 7) eqn:E7.
  - replace (len' >=? 7) with false by lia.
    replace (len' + 2 <? 9) with true by lia.
    rewrite lor_shiftl_5 by lia. rewrite <- app_assoc. cbn [app].
    replace (len' + 2 - 2) with len' by lia. reflexivity.
  - replace (len' >=? 7) with true by lia.
    replace (len' + 2 <? 9) with false by lia.
    rewrite lor_shiftl_5 by lia. rewrite <- !app_assoc. cbn [app].
    replace (len' + 2 - 9) with (len' - 7) by lia. reflexivity.
Qed.

(** ** Token sequences that reproduce a buffer *)

(** [tiles buf a ts b]: read in order from offset [a], the tokens [ts] stand
    for the bytes [buf[a..b)]: a literal run carries the bytes at its
    position, a match of distance [d < MAX_DISTANCE] repeats bytes found [d]
    positions earlier, not before the start of the buffer. *)
Fixpoint tiles (buf : list byte) (a : Z) (ts : list token) (b : Z) : Prop :=
  match ts with
  | [] => a = b
  | t :: ts' =>
      wf_token t
      /\ match t with
         | TLit bs => bs = bytes_at buf a (zlen bs)
         | TMatch len distance =>
             distance <= a /\ distance < MAX_DISTANCE
             /\ forall j, 0 <= j < len ->
                          byte_at buf (a + j) = byte_at buf (a + j - distance)
         end
      /\ tiles buf (a + token_len t) ts' b
  end.

Lemma wf_token_len (t : token) : wf_token t -> 1 <= token_len t.
Proof. destruct t; cbn; unfold MIN_MATCH_LEN; lia. Qed.

Lemma tiles_le (buf : list byte) (ts : list token) :
  forall a b, tiles buf a ts b -> a <= b.
Proof.
  induction ts as [|t ts IH]; intros a b; cbn [tiles]; [lia|].
  intros (Hwf & _ & Hts). apply IH in Hts.
  pose proof (wf_token_len t Hwf). lia.
Qed.

Lemma tiles_app (buf : list byte) (ts1 ts2 : list token) :
  forall a b c,
    tiles buf a ts1 b -> tiles buf b ts2 c -> tiles buf a (ts1 ++ ts2) c.
Proof.
  induction ts1 as [|t ts1 IH]; intros a b c; cbn [tiles app].
  - now intros ->.
  - intros (Hwf & Ht & Hts) H2. eauto.
Qed.

(** a match whose bytes repeat the buffer at [distance] extends the prefix
    [buf[0..a)] to [buf[0..a+n)] *)
Lemma lz_copy_prefix (buf : list byte) (distance : Z) (n : nat) :
  forall a,
    0 <= a -> 1 <= distance <= a ->
    (forall j, 0 <= j < Z.of_nat n ->
               byte_at buf (a + j) = byte_at buf (a + j - distance)) ->
    lz_copy n distance (bytes_at buf 0 a) = bytes_at buf 0 (a + Z.of_nat n).
Proof.
  induction n as [|n IH]; intros a Ha Hd Heq.
  - cbn [lz_copy]. f_equal. lia.
  - cbn [lz_copy]. rewrite zlen_bytes_at by lia.
    rewrite byte_at_bytes_at by lia. cbn [Z.add].
    replace (bytes_at buf 0 a ++ [byte_at buf (a - distance)])
      with (bytes_at buf 0 (a + 1)).
    + rewrite IH; [f_equal; lia | lia | lia |].
      intros j Hj. replace (a + 1 + j) with (a + (j + 1)) by lia.
      apply Heq. lia.
    + rewrite bytes_at_split by lia. f_equal.
      rewrite bytes_at_one. cbn [Z.add]. f_equal.
      specialize (Heq 0 ltac:(lia)). rewrite Z.add_0_r in Heq. exact Heq.
Qed.

Lemma tiles_apply_token (buf : list byte) (t : token) (a : Z) :
  0 <= a -> wf_token t ->
  match t with
  | TLit bs => bs = bytes_at buf a (zlen bs)
  | TMatch len distance =>
      distance <= a /\ distance < MAX_DISTANCE
      /\ forall j, 0 <= j < len ->
                   byte_at buf (a + j) = byte_at buf (a + j - distance)
  end ->
  apply_token (bytes_at buf 0 a) t = bytes_at buf 0 (a + token_len t).
Proof.
  intros Ha Hwf Ht. destruct t as [bs|len d]; cbn [apply_token token_len].
  - rewrite bytes_at_split by (try apply zlen_nonneg; lia).
    cbn [Z.add]. now rewrite <- Ht.
  - cbn in Hwf. unfold MIN_MATCH_LEN in Hwf. destruct Ht as (H1 & _ & H3).
    rewrite lz_copy_prefix; [f_equal; lia | lia | lia |].
    intros j Hj. apply H3. lia.
Qed.

Lemma encode_token_two (t : token) :
  wf_token t -> 2 <= zlen (encode_token t).
Proof.
  intros Hwf. rewrite zlen_encode_token.
  destruct t as [bs|len d]; cbn in Hwf; [lia|]. destruct (len <? 9); lia.
Qed.

Lemma tiles_encoded_length (buf : list byte) (ts : list token) :
  forall a b, tiles buf a ts b ->
              2 * Z.of_nat (List.length ts) <= zlen (encode_tokens ts).
Proof.
  induction ts as [|t ts IH]; intros a b; cbn [tiles]; [cbn; lia|].
  intros (Hwf & _ & Hts). apply IH in Hts.
  rewrite encode_tokens_cons, zlen_app. cbn [List.length].
  pose proof (encode_token_two t Hwf). lia.
Qed.

(** * The decoder on an encoded token sequence *)

Lemma byte_at_pre (pre l : list byte) (i : Z) :
  0 <= i -> byte_at (pre ++ l) (zlen pre + i) = byte_at l i.
Proof.
  intros Hi. rewrite byte_at_app_r by lia. f_equal. lia.
Qed.

Lemma bytes_at_pre (pre l : list byte) (i n : Z) :
  0 <= i -> bytes_at (pre ++ l) (zlen pre + i) n = bytes_at l i n.
Proof.
  intros Hi. rewrite bytes_at_app_r by lia. f_equal. lia.
Qed.

Lemma byte_at_0 (a : byte) (l : list byte) : byte_at (a :: l) 0 = a.
Proof. reflexivity. Qed.

Lemma byte_at_1 (a b : byte) (l : list byte) : byte_at (a :: b :: l) 1 = b.
Proof. reflexivity. Qed.

Lemma byte_at_2 (a b c : byte) (l : list byte) :
  byte_at (a :: b :: c :: l) 2 = c.
Proof. reflexivity. Qed.

Lemma bytes_at_cons_tail (x : byte) (l : list byte) (i n : Z) :
  1 <= i -> bytes_at (x :: l) i n = bytes_at l (i - 1) n.
Proof.
  intros Hi. change (x :: l) with ([x] ++ l).
  rewrite bytes_at_app_r by (zlen_simpl; lia). reflexivity.
Qed.

Lemma bytes_at_prefix (bs rest : list byte) :
  bytes_at (bs ++ rest) 0 (zlen bs) = bs.
Proof.
  rewrite bytes_at_app_l by lia. apply bytes_at_all.
Qed.

Lemma match_tail_token (next : Z -> list byte -> dresult)
    (buf : list byte) (length max_out len ref ip d : Z) (op : list byte)
    (b : byte) :
  in_read buf length ip = Some b ->
  ref - byte.unsigned b = zlen op - d ->
  1 <= d <= zlen op -> 0 <= len -> zlen op + (len + 3) <= max_out ->
  match_tail next buf length max_out len ref ip op
  = next (ip + 1) (lz_copy (Z.to_nat (len + 3)) d op).
Proof.
  intros Hrd Href Hd Hlen Hcap. unfold match_tail. rewrite Hrd, Href.
  replace ((zlen op + (len + 3) >? max_out) || (zlen op - d <? 0))
    with false by lia.
  rewrite copy_loop_correct by lia.
  replace (zlen op - (zlen op - d)) with d by lia. reflexivity.
Qed.

Lemma decompress_body_token (loop : Z -> Z -> list byte -> dresult)
    (pre rest out : list byte) (t : token) (max_out : Z) :
  wf_token t ->
  match t with TMatch _ d => d <= zlen out | TLit _ => True end ->
  zlen out + token_len t <= max_out ->
  let s := pre ++ encode_token t ++ rest in
  decompress_body loop s (zlen s) (zlen s - 2) max_out (zlen pre + 1)
    (byte.unsigned (hd Byte.x00 (encode_token t))) out
  = next_ctrl loop s (zlen s) (zlen s - 2)
      (zlen pre + zlen (encode_token t)) (apply_token out t).
Proof.
  intros Hwf Hd Hcap s.
  assert (Hs : zlen s = zlen pre + zlen (encode_token t) + zlen rest)
    by (subst s; zlen_simpl; lia).
  pose proof (zlen_nonneg rest) as Hrest.
  pose proof (zlen_nonneg pre) as Hpre.
  assert (Hat : forall i, 0 <= i ->
                  byte_at s (zlen pre + i)
                  = byte_at (encode_token t ++ rest) i)
    by (intros; subst s; now apply byte_at_pre).
  unfold decompress_body. cbv zeta.
  destruct t as [bs|len d]; cbn [wf_token token_len apply_token] in *.
  - (* literal run *)
    unfold MAX_COPY in Hwf. rewrite zlen_encode_token in *.
    cbn [encode_token app hd].
    rewrite unsigned_of_Z_small by lia.
    replace (zlen bs - 1 >=? 32) with false by lia.
    replace (zlen bs - 1 + 1) with (zlen bs) by lia.
    replace ((zlen out + zlen bs >? max_out)
             || (zlen pre + 1 + zlen bs >? zlen s)) with false by lia.
    unfold in_copy.
    replace ((0 <=? zlen pre + 1) && (zlen pre + 1 + zlen bs <=? zlen s)
             && (zlen out + zlen bs <=? max_out)) with true by lia.
    subst s. rewrite bytes_at_pre by lia.
    cbn [encode_token app]. rewrite bytes_at_cons_tail by lia.
    change (1 - 1) with 0. rewrite bytes_at_prefix.
    f_equal. lia.
  - (* match *)
    unfold MIN_MATCH_LEN, MAX_LEN, MAX_DISTANCE in Hwf.
    rewrite zlen_encode_token in *.
    assert (Hrd : forall i, 0 <= i < (if len <? 9 then 2 else 3) ->
               in_read s (zlen s) (zlen pre + i)
               = Some (byte_at (encode_token (TMatch len d) ++ rest) i)).
    { intros i Hi. rewrite in_read_ok by (destruct (len <? 9); lia).
      now rewrite Hat by lia. }
    cbn [encode_token] in *. cbv zeta in *.
    destruct (len <? 9) eqn:E9; cbn [app hd] in *.
    + set (v := (len - 2) * 32 + (d - 1) / 256).
      assert (Hv : 32 <= v < 224) by (subst v; lia).
      rewrite unsigned_of_Z_small by lia.
      destruct (ctrl_fields v ltac:(lia)) as (-> & _ & ->).
      replace (v >=? 32) with true by lia.
      replace (v / 32) with (len - 2) by (subst v; lia).
      replace (v mod 32) with ((d - 1) / 256) by (subst v; lia).
      replace (len - 2 - 1 =? 6) with false by lia. cbn [andb].
      rewrite match_tail_token with (d := d)
                                    (b := byte.of_Z ((d - 1) mod 256));
        try lia.
      * f_equal; [lia | f_equal; lia].
      * rewrite Hrd by lia. now rewrite byte_at_1.
      * rewrite unsigned_of_Z_small by lia. lia.
    + set (v := 7 * 32 + (d - 1) / 256).
      assert (Hv : 224 <= v < 256) by (subst v; lia).
      rewrite unsigned_of_Z_small by lia.
      destruct (ctrl_fields v ltac:(lia)) as (-> & _ & ->).
      replace (v >=? 32) with true by lia.
      replace (v / 32) with 7 by (subst v; lia).
      replace (v mod 32) with ((d - 1) / 256) by (subst v; lia).
      replace ((7 - 1 =? 6) && (zlen pre + 1 >? zlen s - 2)) with false by lia.
      change (7 - 1 =? 6) with true. cbv iota.
      rewrite Hrd by lia. rewrite byte_at_1.
      rewrite unsigned_of_Z_small by lia.
      rewrite match_tail_token with (d := d)
                                    (b := byte.of_Z ((d - 1) mod 256));
        try lia.
      * f_equal; [lia | f_equal; lia].
      * replace (zlen pre + 1 + 1) with (zlen pre + 2) by lia.
        rewrite Hrd by lia. now rewrite byte_at_2.
      * rewrite unsigned_of_Z_small by lia. lia.
Qed.

Lemma hd_encode_token (t : token) (rest : list byte) :
  byte_at (encode_token t ++ rest) 0 = hd Byte.x00 (encode_token t).
Proof.
  destruct t as [bs|len d]; cbn [encode_token]; [reflexivity|].
  destruct (len <? 9); reflexivity.
Qed.

Lemma decompress_loop_tokens (buf : list byte) (max_out : Z)
    (ts : list token) :
  forall (t : token) (pre : list byte) (a b : Z) (fuel : nat),
    tiles buf a (t :: ts) b -> 0 <= a -> b <= max_out ->
    (List.length ts < fuel)%nat ->
    let s := pre ++ encode_tokens (t :: ts) in
    decompress_loop fuel s (zlen s) (zlen s - 2) max_out (zlen pre + 1)
      (byte.unsigned (hd Byte.x00 (encode_token t))) (bytes_at buf 0 a)
    = Done (bytes_at buf 0 b).
Proof.
  induction ts as [|t2 ts IH]; intros t pre a b fuel Ht Ha Hb Hfuel s;
    (destruct fuel as [|fuel]; [cbn in Hfuel; lia|]);
    cbn [decompress_loop]; subst s; rewrite encode_tokens_cons;
    destruct Ht as (Hwf & Ht & Hts); pose proof (tiles_le _ _ _ _ Hts) as Hle;
    pose proof (wf_token_len t Hwf) as Hpos;
    pose proof (zlen_nonneg pre) as Hpre;
    pose proof (encode_token_two t Hwf) as Htwo.
  all: rewrite decompress_body_token;
    [ | assumption
      | destruct t; [exact I | rewrite zlen_bytes_at by lia; tauto]
      | rewrite zlen_bytes_at by lia; lia ].
  all: rewrite tiles_apply_token by assumption; unfold next_ctrl.
  - cbn [tiles] in Hts. subst b. cbn [encode_tokens flat_map].
    rewrite app_nil_r, zlen_app.
    replace (zlen pre + zlen (encode_token t)
             >? zlen pre + zlen (encode_token t) - 2) with true by lia.
    reflexivity.
  - pose proof (tiles_encoded_length _ _ _ _ Hts) as Hlen.
    cbn [List.length] in Hlen.
    set (rest := encode_tokens (t2 :: ts)) in *.
    assert (Hz : zlen (pre ++ encode_token t ++ rest)
                 = zlen pre + zlen (encode_token t) + zlen rest)
      by (zlen_simpl; lia).
    rewrite Hz.
    replace (zlen pre + zlen (encode_token t)
             >? zlen pre + zlen (encode_token t) + zlen rest - 2)
      with false by lia.
    rewrite in_read_ok by lia.
    assert (Hb2 : byte_at (pre ++ encode_token t ++ rest)
                    (zlen pre + zlen (encode_token t))
                  = hd Byte.x00 (encode_token t2)).
    { rewrite app_assoc, <- zlen_app.
      rewrite <- (Z.add_0_r (zlen (pre ++ encode_token t))).
      rewrite byte_at_pre by lia.
      subst rest. rewrite encode_tokens_cons. apply hd_encode_token. }
    rewrite Hb2, <- Hz, app_assoc, <- zlen_app.
    apply IH; try assumption; try lia. cbn in Hfuel. lia.
Qed.

(** a sequence of tokens that reproduces [buf[0..b)] and starts with a
    literal run decodes to [buf[0..b)] *)
Lemma decompress_tiles (buf : list byte) (max_out b : Z)
    (bs : list byte) (ts : list token) :
  tiles buf 0 (TLit bs :: ts) b -> b <= max_out ->
  let c := encode_tokens (TLit bs :: ts) in
  lz77_decompress c (zlen c) max_out = Done (bytes_at buf 0 b).
Proof.
  intros Ht Hb c.
  pose proof (tiles_encoded_length _ _ _ _ Ht) as Hlen.
  cbn [List.length] in Hlen. fold c in Hlen.
  unfold lz77_decompress.
  replace (zlen c <=? 0) with false by lia.
  replace (zlen c >=? 2) with true by lia.
  rewrite in_read_ok by lia.
  assert (Hwf : 1 <= zlen bs <= 32) by (destruct Ht as (Hwf & _); exact Hwf).
  assert (Hc0 : byte_at c 0 = byte.of_Z (zlen bs - 1)) by reflexivity.
  rewrite Hc0, unsigned_of_Z_small by lia.
  destruct (ctrl_fields (zlen bs - 1) ltac:(lia)) as (_ & -> & _).
  replace ((zlen bs - 1) mod 32)
    with (byte.unsigned (hd Byte.x00 (encode_token (TLit bs))))
    by (cbn [encode_token hd]; rewrite unsigned_of_Z_small; lia).
  pose proof (decompress_loop_tokens buf max_out ts (TLit bs) [] 0 b
                (Z.to_nat (zlen c)) Ht ltac:(lia) Hb ltac:(lia)) as H.
  cbv zeta in H. cbn [app] in H. fold c in H.
  change (zlen (@nil byte) + 1) with 1 in H.
  change (bytes_at buf 0 0) with (@nil byte) in H.
  exact H.
Qed.

(** * What the encoder's tokens stand for *)

Lemma tiles_lit_chunks (buf : list byte) (n : nat) :
  forall src, tiles buf src (lit_chunks n buf src) (src + 32 * Z.of_nat n).
Proof.
  induction n as [|n IH]; intros src; cbn [lit_chunks tiles]; [lia|].
  change MAX_COPY with 32. cbn [wf_token token_len].
  rewrite zlen_bytes_at by lia. change MAX_COPY with 32.
  repeat split; try lia.
  replace (src + 32 * Z.of_nat (S n)) with (src + 32 + 32 * Z.of_nat n) by lia.
  apply IH.
Qed.

Lemma tiles_lit_tokens (buf : list byte) (src runs : Z) :
  0 <= runs -> tiles buf src (lit_tokens buf src runs) (src + runs).
Proof.
  intros Hr. unfold lit_tokens.
  apply tiles_app with (b := src + 32 * (runs / 32)).
  - pose proof (tiles_lit_chunks buf (Z.to_nat (runs / 32)) src) as H.
    rewrite Z2Nat.id in H by lia. exact H.
  - destruct (runs mod 32 =? 0) eqn:E; cbn [tiles wf_token token_len].
    + lia.
    + rewrite zlen_bytes_at by lia. change MAX_COPY with 32.
      repeat split; lia.
Qed.

Lemma zlen_encode_lit_chunks (buf : list byte) (n : nat) :
  forall src, zlen (encode_tokens (lit_chunks n buf src)) = 33 * Z.of_nat n.
Proof.
  induction n as [|n IH]; intros src; cbn [lit_chunks]; [reflexivity|].
  rewrite encode_tokens_cons, zlen_app, IH, zlen_encode_token.
  change MAX_COPY with 32. rewrite zlen_bytes_at by lia. lia.
Qed.

Lemma zlen_encode_lit_tokens (buf : list byte) (src runs : Z) :
  0 <= runs ->
  zlen (encode_tokens (lit_tokens buf src runs)) = runs + (runs + 31) / 32.
Proof.
  intros Hr. unfold lit_tokens.
  rewrite encode_tokens_app, zlen_app, zlen_encode_lit_chunks.
  rewrite Z2Nat.id by lia.
  destruct (runs mod 32 =? 0) eqn:E.
  - cbn [encode_tokens flat_map]. rewrite zlen_nil. lia.
  - cbn [encode_tokens flat_map]. rewrite app_nil_r, zlen_encode_token.
    rewrite zlen_bytes_at by lia. lia.
Qed.

Lemma lit_tokens_head (buf : list byte) (src runs : Z) :
  0 < runs ->
  exists ts,
    lit_tokens buf src runs
    = TLit (bytes_at buf src (Z.min runs 32)) :: ts.
Proof.
  intros Hr. unfold lit_tokens.
  destruct (Z.lt_ge_cases runs 32) as [Hlt|Hge].
  - replace (runs / 32) with 0 by lia. cbn [Z.to_nat lit_chunks app].
    replace (runs mod 32 =? 0) with false by lia.
    replace (runs mod 32) with runs by lia.
    replace (Z.min runs 32) with runs by lia.
    replace (src + 32 * 0) with src by lia. eauto.
  - replace (Z.to_nat (runs / 32)) with (S (Z.to_nat (runs / 32 - 1))) by lia.
    cbn [lit_chunks app]. change MAX_COPY with 32.
    replace (Z.min runs 32) with 32 by lia. eauto.
Qed.

Lemma lit_tokens_0 (buf : list byte) (src : Z) : lit_tokens buf src 0 = [].
Proof. reflexivity. Qed.

(** a match found by the compressor at offset [a] *)
Definition match_ok (buf : list byte) (a len distance : Z) : Prop :=
  1 <= distance < MAX_DISTANCE /\ distance <= a /\ 1 <= len
  /\ forall j, 0 <= j < len + 2 ->
               byte_at buf (a + j) = byte_at buf (a + j - distance).

Lemma tiles_match_repeat (buf : list byte) (d : Z) (k : nat) :
  forall a,
    1 <= d < MAX_DISTANCE -> d <= a ->
    (forall j, 0 <= j < 262 * Z.of_nat k ->
               byte_at buf (a + j) = byte_at buf (a + j - d)) ->
    tiles buf a (repeat (TMatch (MAX_LEN - 2) d) k) (a + 262 * Z.of_nat k).
Proof.
  unfold MAX_DISTANCE.
  induction k as [|k IH]; intros a Hd Ha Heq; cbn [repeat tiles]; [lia|].
  cbn [wf_token token_len]. unfold MIN_MATCH_LEN, MAX_LEN, MAX_DISTANCE.
  repeat split; try lia.
  - intros j Hj. apply Heq. lia.
  - replace (a + 262 * Z.of_nat (S k))
      with (a + (264 - 2) + 262 * Z.of_nat k) by lia.
    apply IH; try lia.
    intros j Hj. replace (a + (264 - 2) + j) with (a + (262 + j)) by lia.
    apply Heq. lia.
Qed.

Lemma tiles_match_tokens (buf : list byte) (a len d : Z) :
  match_ok buf a len d ->
  tiles buf a (match_tokens len d) (a + len + 2).
Proof.
  unfold match_ok, MAX_DISTANCE. intros (Hd & Ha & Hl & Heq).
  unfold match_tokens.
  apply tiles_app with (b := a + 262 * ((len - 1) / 262)).
  - pose proof (tiles_match_repeat buf d (Z.to_nat ((len - 1) / 262)) a) as H.
    rewrite Z2Nat.id in H by lia. apply H; unfold MAX_DISTANCE; try lia.
    intros j Hj. apply Heq. lia.
  - cbn [tiles wf_token token_len].
    unfold MIN_MATCH_LEN, MAX_LEN, MAX_DISTANCE.
    repeat split; try lia.
    intros j Hj.
    replace (a + 262 * ((len - 1) / 262) + j)
      with (a + (262 * ((len - 1) / 262) + j)) by lia.
    apply Heq. lia.
Qed.

Lemma zlen_encode_match_tokens (len d : Z) :
  1 <= len ->
  zlen (encode_tokens (match_tokens len d)) <= len + 1
  /\ (3 <= len -> zlen (encode_tokens (match_tokens len d)) <= len).
Proof.
  intros Hl. unfold match_tokens. rewrite encode_tokens_app, zlen_app.
  assert (Hrep : forall k, zlen (encode_tokens
                                   (repeat (TMatch (MAX_LEN - 2) d) k))
                           = 3 * Z.of_nat k).
  { induction k as [|k IH]; [reflexivity|].
    cbn [repeat]. rewrite encode_tokens_cons, zlen_app, IH.
    rewrite zlen_encode_token. change (MAX_LEN - 2 <? 9) with false. lia. }
  rewrite Hrep, Z2Nat.id by lia.
  cbn [encode_tokens flat_map]. rewrite app_nil_r, zlen_encode_token.
  destruct ((len - 1) mod 262 + 1 + 2 <? 9) eqn:E; lia.
Qed.

(** * The match finder *)

Lemma seq24_bytes (buf : list byte) (p : Z) :
  seq24 buf p
  = le_combine [byte_at buf p; byte_at buf (p + 1); byte_at buf (p + 2)].
Proof.
  unfold seq24, lz77_read32. change 0xffffff with (Z.ones 24).
  rewrite Z.land_ones by lia.
  change (2 ^ 24) with (2 ^ (8 * Z.of_nat 3)).
  now rewrite <- le_combine_firstn.
Qed.

Lemma seq24_range (buf : list byte) (p : Z) : 0 <= seq24 buf p < 0x1000000.
Proof.
  rewrite seq24_bytes.
  exact (le_combine_bound
           [byte_at buf p; byte_at buf (p + 1); byte_at buf (p + 2)]).
Qed.

Lemma seq24_eq (buf : list byte) (p q : Z) :
  seq24 buf p = seq24 buf q ->
  forall j, 0 <= j < 3 -> byte_at buf (p + j) = byte_at buf (q + j).
Proof.
  rewrite !seq24_bytes. intros H.
  apply le_combine_inj in H; [|reflexivity].
  injection H as H0 H1 H2. intros j Hj.
  assert (j = 0 \/ j = 1 \/ j = 2) as [-> | [-> | ->]] by lia;
    rewrite ?Z.add_0_r; assumption.
Qed.

Lemma shiftr_read32 (buf : list byte) (p : Z) :
  Z.shiftr (lz77_read32 buf p) 8
  = le_combine [byte_at buf (p + 1); byte_at buf (p + 2); byte_at buf (p + 3)].
Proof.
  unfold lz77_read32.
  change [byte_at buf p; byte_at buf (p + 1); byte_at buf (p + 2);
          byte_at buf (p + 3)]
    with ([byte_at buf p]
            ++ [byte_at buf (p + 1); byte_at buf (p + 2); byte_at buf (p + 3)]).
  rewrite le_combine_app. cbn [List.length].
  rewrite Z.shiftr_lor, Z.shiftr_shiftl_l by lia.
  change (Z.of_nat 1 * 8 - 8) with 0. rewrite Z.shiftl_0_r.
  rewrite le_combine_1.
  rewrite Z.shiftr_div_pow2 by lia.
  rewrite Z.div_small by (pose proof (byte_range (byte_at buf p)); lia).
  apply Z.lor_0_l.
Qed.

Lemma match_len_loop_spec (buf : list byte) (fuel : nat) :
  forall r p e,
    let res := match_len_loop fuel buf r p e in
    r <= res /\ res - r <= Z.of_nat fuel
    /\ (p <= e -> p + (res - r) <= e)
    /\ forall j, 0 <= j < res - r -> byte_at buf (r + j) = byte_at buf (p + j).
Proof.
  induction fuel as [|fuel IH]; intros r p e; cbn [match_len_loop]; cbv zeta.
  - repeat split; try lia.
  - destruct ((p <? e) && Byte.eqb (byte_at buf r) (byte_at buf p)) eqn:E.
    + apply andb_true_iff in E. destruct E as [Hlt Heq].
      apply Byte.byte_dec_bl in Heq.
      specialize (IH (r + 1) (p + 1) e). cbv zeta in IH.
      destruct IH as (H1 & H2 & H3 & H4).
      repeat split; try lia.
      intros j Hj. destruct (Z.eq_dec j 0) as [->|Hj0].
      * now rewrite !Z.add_0_r.
      * replace (r + j) with (r + 1 + (j - 1)) by lia.
        replace (p + j) with (p + 1 + (j - 1)) by lia.
        apply H4. lia.
    + repeat split; try lia.
Qed.

(** the comparison loop stops at the end of the input or at a mismatch *)
Lemma match_len_loop_stops (buf : list byte) (fuel : nat) :
  forall r p e,
    Z.of_nat fuel = e - p ->
    let m := match_len_loop fuel buf r p e - r in
    p + m = e \/ byte_at buf (r + m) <> byte_at buf (p + m).
Proof.
  induction fuel as [|fuel IH]; intros r p e Hf; cbn [match_len_loop];
    cbv zeta.
  - left. lia.
  - destruct ((p <? e) && Byte.eqb (byte_at buf r) (byte_at buf p)) eqn:E.
    + specialize (IH (r + 1) (p + 1) e ltac:(lia)). cbv zeta in IH.
      set (res := match_len_loop fuel buf (r + 1) (p + 1) e) in *.
      replace (r + (res - r)) with (r + 1 + (res - (r + 1))) by lia.
      replace (p + (res - r)) with (p + 1 + (res - (r + 1))) by lia.
      exact IH.
    + right. replace (r - r) with 0 by lia. rewrite !Z.add_0_r.
      apply andb_false_iff in E. destruct E as [E|E]; [lia|].
      now apply Byte.eqb_false.
Qed.

Lemma match_len_spec (buf : list byte) (r p e : Z) :
  0 <= p <= e -> e <= INT_MAX ->
  let m := match_len buf r p e in
  0 <= m /\ p + m <= e
  /\ forall j, 0 <= j < m -> byte_at buf (r + j) = byte_at buf (p + j).
Proof.
  unfold INT_MAX. intros Hp He. unfold match_len. cbv zeta.
  pose proof (match_len_loop_spec buf (Z.to_nat (e - p)) r p e) as H.
  cbv zeta in H. destruct H as (H1 & H2 & H3 & H4).
  rewrite u32_small by lia. repeat split; try lia. exact H4.
Qed.

(** ** The hash table holds offsets below the cursor *)

Definition htab_ok (htab : list Z) (ip : Z) : Prop :=
  Forall (fun e => 0 <= e < ip) htab.

Lemma Forall_list_set {A : Type} (P : A -> Prop) (l : list A) :
  forall n v, Forall P l -> P v -> Forall P (list_set l n v).
Proof.
  induction l as [|x l IH]; intros n v Hl Hv; cbn [list_set]; [constructor|].
  inversion Hl; subst. destruct n; constructor; auto.
Qed.

Lemma htab_ok_weaken (htab : list Z) (ip ip' : Z) :
  htab_ok htab ip -> ip <= ip' -> htab_ok htab ip'.
Proof.
  unfold htab_ok. intros H Hle. eapply Forall_impl; [|exact H].
  cbn. intros e He. lia.
Qed.

Lemma htab_get_ok (htab : list Z) (ip h : Z) :
  htab_ok htab ip -> 0 < ip -> 0 <= htab_get htab h < ip.
Proof.
  unfold htab_ok, htab_get. intros H Hip.
  destruct (nth_in_or_default (Z.to_nat h) htab 0) as [Hin| ->]; [|lia].
  rewrite Forall_forall in H. now apply H.
Qed.

Lemma htab_set_ok (htab : list Z) (ip h v : Z) :
  htab_ok htab ip -> 0 <= v < ip -> ip <= INT_MAX ->
  htab_ok (htab_set htab h v) ip.
Proof.
  unfold htab_ok, htab_set, INT_MAX. intros H Hv Hip.
  apply Forall_list_set; [assumption|]. rewrite u32_small; lia.
Qed.

Lemma htab_zero_ok (ip : Z) : 0 < ip -> htab_ok htab_zero ip.
Proof.
  intros Hip. unfold htab_ok, htab_zero. apply Forall_forall.
  intros e He. apply repeat_spec in He. lia.
Qed.

Section MatchFinder.
Variables (buf : list byte) (in_end ip_limit : Z).
Hypothesis Hlimit : ip_limit = in_end - MIN_INPUT_SIZE.
Hypothesis Hend : in_end <= INT_MAX.

Lemma find_candidate_spec (fuel : nat) :
  forall (ip : Z) (htab : list Z),
    0 < ip <= ip_limit -> htab_ok htab ip ->
    ip_limit - ip < Z.of_nat fuel ->
    exists ip' ref distance htab',
      find_candidate fuel buf ip_limit ip htab
      = Some (ip', ref, distance, htab')
      /\ ip <= ip' <= ip_limit
      /\ (ip' < ip_limit ->
          ip < ip' /\ ref = ip' - 1 - distance
          /\ 1 <= distance < MAX_DISTANCE /\ distance <= ip' - 1
          /\ seq24 buf ref = seq24 buf (ip' - 1)
          /\ htab_ok htab' ip').
Proof.
  unfold MIN_INPUT_SIZE, INT_MAX in *.
  induction fuel as [|fuel IH]; intros ip htab Hip Hok Hfuel; [lia|].
  cbn [find_candidate]. cbv zeta.
  set (h := lz77_hash (seq24 buf ip)).
  pose proof (htab_get_ok htab ip h Hok ltac:(lia)) as Href.
  set (ref := htab_get htab h) in *.
  rewrite (u32_small (ip - ref)) by lia.
  assert (Hok1 : htab_ok (htab_set htab h ip) (ip + 1)).
  { apply htab_set_ok; unfold INT_MAX; try lia.
    apply htab_ok_weaken with (ip := ip); [assumption|lia]. }
  destruct (ip >=? ip_limit) eqn:El.
  - do 4 eexists. split; [reflexivity|]. split; lia.
  - destruct (seq24 buf ip
              =? (if ip - ref <? MAX_DISTANCE then seq24 buf ref
                  else 0x1000000)) eqn:Es.
    + do 4 eexists. split; [reflexivity|]. split; [lia|].
      intros _. pose proof (seq24_range buf ip) as Hr.
      destruct (ip - ref <? MAX_DISTANCE) eqn:Ed; [|lia].
      replace (ip + 1 - 1) with ip by lia.
      unfold MAX_DISTANCE in *. repeat split; try lia. assumption.
    + destruct (IH (ip + 1) (htab_set htab h ip) ltac:(lia) Hok1 ltac:(lia))
        as (ip' & ref' & d' & htab' & Heq & Hle & Hpost).
      exists ip', ref', d', htab'. split; [exact Heq|]. split; [lia|].
      intros Hlt. specialize (Hpost Hlt). intuition lia.
Qed.

(** a verified three-byte candidate, extended by [match_len] *)
Lemma candidate_match_ok (p ref d : Z) :
  0 <= ref -> ref = p - d -> 1 <= d < MAX_DISTANCE ->
  p + 3 <= in_end ->
  seq24 buf ref = seq24 buf p ->
  let len := match_len buf (ref + MIN_MATCH_LEN) (p + MIN_MATCH_LEN) in_end
             + 1 in
  match_ok buf p len d /\ p + len + 2 <= in_end.
Proof.
  unfold MIN_MATCH_LEN. intros Href Hd Hdr Hp Hseq. cbv zeta.
  pose proof (match_len_spec buf (ref + 3) (p + 3) in_end
                ltac:(lia) Hend) as H.
  cbv zeta in H. destruct H as (H1 & H2 & H3).
  set (m := match_len buf (ref + 3) (p + 3) in_end) in *.
  split; [|lia]. unfold match_ok. repeat split; try lia.
  intros j Hj. destruct (Z.lt_ge_cases j 3) as [Hlt|Hge].
  - replace (p + j - d) with (ref + j) by lia.
    symmetry. apply seq24_eq; [assumption|lia].
  - replace (p + j) with (p + 3 + (j - 3)) by lia.
    replace (p + 3 + (j - 3) - d) with (ref + 3 + (j - 3)) by lia.
    symmetry. apply H3. lia.
Qed.

(** the state of the lazy evaluation after the steps up to [bound] *)
Definition lazy_inv (ip bound : Z) (best : Z * Z * Z * Z) : Prop :=
  let '(lazy_step, len, distance, _) := best in
  0 <= lazy_step <= bound
  /\ match_ok buf (ip + lazy_step) len distance
  /\ ip + lazy_step + len + 2 <= in_end
  /\ (0 < lazy_step -> 3 <= len).

Lemma lazy_at_spec (ip k : Z) (htab : list Z) (best : Z * Z * Z * Z) :
  0 < ip -> 1 <= k -> htab_ok htab (ip + 1) ->
  lazy_inv ip (k - 1) best ->
  lazy_inv ip k (lazy_at buf in_end ip_limit ip htab k best).
Proof.
  unfold MIN_INPUT_SIZE, INT_MAX in *.
  intros Hip Hk Hok Hinv.
  destruct best as [[[ls len] d] ref]. unfold lazy_at.
  assert (Hkeep : lazy_inv ip k (ls, len, d, ref))
    by (cbn in Hinv |- *; intuition lia).
  destruct (ip + k <? ip_limit) eqn:El; [|exact Hkeep].
  cbv zeta.
  set (h := lz77_hash (seq24 buf (ip + k))).
  pose proof (htab_get_ok htab (ip + 1) h Hok ltac:(lia)) as Href.
  set (ref_next := htab_get htab h) in *.
  rewrite (u32_small (ip + k - ref_next)) by lia.
  destruct ((ip + k - ref_next <? MAX_DISTANCE)
            && (seq24 buf ref_next =? seq24 buf (ip + k))) eqn:Ec;
    [|exact Hkeep].
  destruct (candidate_match_ok (ip + k) ref_next (ip + k - ref_next))
    as [Hm Hb]; unfold MAX_DISTANCE in *; try lia.
  set (len_next := match_len buf (ref_next + MIN_MATCH_LEN)
                     (ip + k + MIN_MATCH_LEN) in_end + 1) in *.
  destruct (len_next >? len + (if len <? 7 then 1 else 0)) eqn:Eg;
    [|exact Hkeep].
  cbn. cbn in Hinv. destruct Hinv as (_ & (_ & _ & Hl & _) & _).
  repeat split; try lia; try apply Hm.
  destruct (len <? 7) eqn:E7; lia.
Qed.

Lemma boundary_seed_spec (ip : Z) (htab : list Z) :
  0 <= ip -> ip + 2 <= in_end -> htab_ok htab ip ->
  exists htab',
    boundary_seed buf in_end ip htab = (ip + 2, htab')
    /\ htab_ok htab' (ip + 2).
Proof.
  unfold INT_MAX in *. intros Hip Hle Hok. unfold boundary_seed.
  destruct (ip + 4 <=? in_end) eqn:E.
  - cbv zeta. eexists. split; [tuple_eq|].
    apply htab_set_ok; unfold INT_MAX; try lia.
    apply htab_set_ok; unfold INT_MAX; try lia.
    apply htab_ok_weaken with (ip := ip); [assumption|lia].
  - cbv zeta. replace (ip <? in_end) with true by lia.
    replace (ip + 1 <? in_end) with true by lia.
    eexists. split; [tuple_eq|].
    apply htab_ok_weaken with (ip := ip); [assumption|lia].
Qed.

Lemma backfill_spec (ip len : Z) (htab : list Z) :
  ip <= in_end -> htab_ok htab ip ->
  htab_ok (backfill buf in_end ip len htab) ip.
Proof.
  unfold INT_MAX in *. intros Hip Hok. unfold backfill.
  destruct (len >? 12); [|assumption]. cbv zeta.
  destruct ((ip - len + 5 >? 0) && (ip - len + 5 + 3 <? ip)
            && (ip - len + 5 + 4 <=? in_end)) eqn:E; [|assumption].
  apply htab_set_ok; unfold INT_MAX; try lia. assumption.
Qed.
End MatchFinder.

(** * The main loop of the compressor *)

Section CompressLoop.
Variables (buf : list byte) (in_end ip_limit : Z).
Hypothesis Hlimit : ip_limit = in_end - MIN_INPUT_SIZE.
Hypothesis Hend : in_end <= INT_MAX.

Lemma emit_step_spec (ip anchor ref distance : Z) (op : list byte)
    (htab : list Z) :
  0 <= anchor <= ip -> 0 < ip -> ip + 1 < ip_limit ->
  ref = ip - distance -> 1 <= distance < MAX_DISTANCE -> distance <= ip ->
  seq24 buf ref = seq24 buf ip ->
  htab_ok htab (ip + 1) ->
  exists ip2 htab2 ts,
    emit_step buf in_end ip_limit ip anchor ref distance op htab
    = (ip2, op ++ encode_tokens ts, htab2)
    /\ tiles buf anchor ts ip2
    /\ ip + 3 <= ip2 <= in_end
    /\ htab_ok htab2 ip2
    /\ zlen (encode_tokens ts) <= (ip2 - anchor) + (ip - anchor) / 32
    /\ (anchor < ip ->
        exists ts',
          ts = TLit (bytes_at buf anchor (Z.min (ip - anchor) 32)) :: ts').
Proof.
  intros Ha Hip Hlt Href Hd Hdip Hseq Hok.
  pose proof Hlimit as Hlimit'. pose proof Hend as Hend'.
  unfold MIN_INPUT_SIZE, INT_MAX in Hlimit', Hend'.
  unfold emit_step. cbv zeta.
  destruct (candidate_match_ok buf in_end Hend ip ref distance)
    as [Hm0 Hb0]; try assumption; try lia.
  set (len0 := match_len buf (ref + MIN_MATCH_LEN) (ip + MIN_MATCH_LEN)
                 in_end + 1) in *.
  assert (Hi0 : lazy_inv buf in_end ip (1 - 1) (0, len0, distance, ref)).
  { cbn. rewrite Z.add_0_r. repeat split; try lia; apply Hm0. }
  pose proof (lazy_at_spec buf in_end ip_limit Hlimit Hend ip 1 htab _
                Hip ltac:(lia) Hok Hi0) as Hi1.
  set (best1 := lazy_at buf in_end ip_limit ip htab 1
                  (0, len0, distance, ref)) in *.
  pose proof (lazy_at_spec buf in_end ip_limit Hlimit Hend ip 2 htab best1
                Hip ltac:(lia) Hok Hi1) as Hi2.
  destruct (lazy_at buf in_end ip_limit ip htab 2 best1)
    as [[[ls len] d] r].
  cbn [lazy_inv] in Hi2. destruct Hi2 as (Hls & Hm & Hb & H3).
  set (op1 := if ip >? anchor then literals (ip - anchor) anchor buf op
              else op).
  assert (Hop1 : op1 = op ++ encode_tokens
                               (lit_tokens buf anchor (ip - anchor))).
  { subst op1. destruct (ip >? anchor) eqn:E.
    - apply literals_tokens. lia.
    - replace (ip - anchor) with 0 by lia.
      rewrite lit_tokens_0. cbn. now rewrite app_nil_r. }
  assert (Hlz : (if ls >? 0 then (literals ls ip buf op1, ip + ls)
                 else (op1, ip))
                = (op1 ++ encode_tokens (lit_tokens buf ip ls), ip + ls)).
  { destruct (ls >? 0) eqn:E.
    - rewrite literals_tokens by lia. reflexivity.
    - replace ls with 0 by lia. rewrite lit_tokens_0, Z.add_0_r.
      cbn. now rewrite app_nil_r. }
  rewrite Hlz.
  pose proof Hm as (Hmd & Hma & Hml & _).
  rewrite match_tokens_spec by (unfold MAX_DISTANCE in *; lia).
  destruct (boundary_seed_spec buf in_end Hend (ip + ls + len) htab)
    as (htab' & Hbs & Hok'); try lia.
  { apply htab_ok_weaken with (ip := ip + 1); [assumption|lia]. }
  rewrite Hbs.
  exists (ip + ls + len + 2),
         (backfill buf in_end (ip + ls + len + 2) len htab'),
         (lit_tokens buf anchor (ip - anchor)
            ++ lit_tokens buf ip ls ++ match_tokens len d).
  split; [|split; [|split; [|split; [|split]]]].
  - rewrite Hop1, !encode_tokens_app, !app_assoc. reflexivity.
  - apply tiles_app with (b := ip).
    { replace ip with (anchor + (ip - anchor)) at 2 by lia.
      apply tiles_lit_tokens. lia. }
    apply tiles_app with (b := ip + ls).
    { apply tiles_lit_tokens. lia. }
    now apply tiles_match_tokens.
  - lia.
  - apply backfill_spec; [assumption|lia|assumption].
  - rewrite !encode_tokens_app, !zlen_app.
    rewrite !zlen_encode_lit_tokens by lia.
    pose proof (zlen_encode_match_tokens len d Hml) as [Hz1 Hz3].
    set (z := zlen (encode_tokens (match_tokens len d))) in *.
    clearbody z. clear - Ha Hls H3 Hz1 Hz3 Hml.
    assert (ls = 0 \/ ls = 1 \/ ls = 2) as [-> | [-> | ->]] by lia.
    + change ((0 + 31) / 32) with 0. lia.
    + change ((1 + 31) / 32) with 1. specialize (Hz3 (H3 ltac:(lia))). lia.
    + change ((2 + 31) / 32) with 1. specialize (Hz3 (H3 ltac:(lia))). lia.
  - intros Hlt'.
    destruct (lit_tokens_head buf anchor (ip - anchor) ltac:(lia))
      as [ts' Hts']. rewrite Hts'. cbn [app]. eauto.
Qed.

Lemma compress_loop_spec (fuel : nat) :
  forall (ip anchor : Z) (op : list byte) (htab : list Z),
    0 <= anchor <= ip -> 0 < ip -> ip <= in_end -> htab_ok htab ip ->
    ip_limit - ip < Z.of_nat fuel -> 0 < Z.of_nat fuel ->
    exists anchor' htab' ts,
      compress_loop fuel buf in_end ip_limit ip anchor op htab
      = Some (anchor', op ++ encode_tokens ts, htab')
      /\ tiles buf anchor ts anchor'
      /\ anchor' <= in_end
      /\ zlen (encode_tokens ts)
         <= (anchor' - anchor) + (anchor' / 32 - anchor / 32)
      /\ (anchor < ip ->
          ts = []
          \/ exists n ts',
               Z.min (ip - anchor) 32 <= n
               /\ ts = TLit (bytes_at buf anchor n) :: ts').
Proof.
  pose proof Hlimit as Hlimit'. unfold MIN_INPUT_SIZE in Hlimit'.
  induction fuel as [|fuel IH]; intros ip anchor op htab Ha Hip Hle Hok
    Hfuel Hpos; [lia|].
  cbn [compress_loop].
  destruct (ip <? ip_limit) eqn:El.
  - destruct (find_candidate_spec buf in_end ip_limit Hlimit Hend (S fuel)
                ip htab)
      as (ip' & ref & d & htab1 & Hfc & Hrange & Hcand);
      try assumption; try lia.
    rewrite Hfc.
    destruct (ip' >=? ip_limit) eqn:El'.
    + exists anchor, htab1, []. cbn [encode_tokens flat_map tiles].
      rewrite app_nil_r, zlen_nil.
      repeat split; try lia. intros _. now left.
    + destruct (Hcand ltac:(lia)) as (Hlt & Href & Hd & Hdle & Hseq & Hok1).
      destruct (emit_step_spec (ip' - 1) anchor ref d op htab1)
        as (ip2 & htab2 & ts1 & Hes & Ht1 & Hr1 & Hok2 & Hz1 & Hh1);
        try assumption; try lia.
      { now replace (ip' - 1 + 1) with ip' by lia. }
      rewrite Hes.
      destruct (IH ip2 ip2 (op ++ encode_tokens ts1) htab2)
        as (anchor' & htab' & ts2 & Hcl & Ht2 & Hr2 & Hz2 & _);
        try assumption; try lia.
      exists anchor', htab', (ts1 ++ ts2).
      split; [|split; [|split; [|split]]].
      * rewrite Hcl, encode_tokens_app, app_assoc. reflexivity.
      * now apply tiles_app with (b := ip2).
      * lia.
      * rewrite encode_tokens_app, zlen_app.
        pose proof (tiles_le _ _ _ _ Ht2). lia.
      * intros Hlt'. right.
        destruct (Hh1 ltac:(lia)) as [ts' ->].
        exists (Z.min (ip' - 1 - anchor) 32), (ts' ++ ts2).
        split; [lia|reflexivity].
  - exists anchor, htab, []. cbn [encode_tokens flat_map tiles].
    rewrite app_nil_r, zlen_nil.
    repeat split; try lia. intros _. now left.
Qed.
End CompressLoop.

(** The output of [lz77_compress] on a well-formed call is the encoding of
    a token sequence that reproduces the input, starts with a literal run
    and costs at most one byte per 32 input bytes plus one. *)
Lemma lz77_compress_tokens (buf : list byte) (workmem : list Z) :
  0 < zlen buf <= INT_MAX ->
  exists ts htab' n ts',
    lz77_compress buf (zlen buf) workmem
    = Some (to_int (zlen (encode_tokens ts)), encode_tokens ts, htab')
    /\ tiles buf 0 ts (zlen buf)
    /\ zlen (encode_tokens ts) <= zlen buf + zlen buf / 32 + 1
    /\ ts = TLit (bytes_at buf 0 n) :: ts'
    /\ 1 <= n /\ (MIN_INPUT_SIZE <= zlen buf -> 2 <= n).
Proof.
  intros HL. unfold lz77_compress, MIN_INPUT_SIZE.
  replace (zlen buf <=? 0) with false by lia.
  destruct (zlen buf <? 13) eqn:E13.
  - rewrite literals_tokens by lia. cbn [app].
    destruct (lit_tokens_head buf 0 (zlen buf) ltac:(lia)) as [ts' Hts'].
    exists (lit_tokens buf 0 (zlen buf)), workmem, (Z.min (zlen buf) 32), ts'.
    split; [reflexivity|]. split; [|split; [|split; [|split]]].
    + pose proof (tiles_lit_tokens buf 0 (zlen buf) ltac:(lia)) as H.
      now rewrite Z.add_0_l in H.
    + rewrite zlen_encode_lit_tokens by lia. lia.
    + exact Hts'.
    + lia.
    + lia.
  - destruct (compress_loop_spec buf (zlen buf) (zlen buf - 13) eq_refl
                ltac:(lia) (Z.to_nat (zlen buf)) 2 0 [] htab_zero)
      as (anchor' & htab' & ts & Hcl & Ht & Hr & Hz & Hh); try lia.
    { apply htab_zero_ok. lia. }
    rewrite Hcl. cbn [app].
    pose proof (tiles_le _ _ _ _ Ht) as Hle.
    rewrite literals_tokens by lia.
    rewrite <- encode_tokens_app.
    set (tail := lit_tokens buf anchor' (zlen buf - anchor')).
    assert (Htail : tiles buf anchor' tail (zlen buf)).
    { pose proof (tiles_lit_tokens buf anchor' (zlen buf - anchor')
                    ltac:(lia)) as H.
      now replace (anchor' + (zlen buf - anchor')) with (zlen buf) in H
        by lia. }
    assert (Hsize : zlen (encode_tokens (ts ++ tail))
                    <= zlen buf + zlen buf / 32 + 1).
    { rewrite encode_tokens_app, zlen_app. subst tail.
      rewrite zlen_encode_lit_tokens by lia. lia. }
    destruct (Hh ltac:(lia)) as [-> | (n & ts' & Hn & ->)].
    + cbn [tiles] in Ht. subst anchor'. cbn [app] in *.
      destruct (lit_tokens_head buf 0 (zlen buf - 0) ltac:(lia))
        as [ts' Hts'].
      exists tail, htab', (Z.min (zlen buf - 0) 32), ts'.
      split; [reflexivity|]. split; [|split; [|split; [|split]]];
        try assumption; lia.
    + exists ((TLit (bytes_at buf 0 n) :: ts') ++ tail), htab', n,
             (ts' ++ tail).
      split; [reflexivity|]. split; [|split; [|split; [|split]]];
        try assumption; try reflexivity; try lia.
      now apply tiles_app with (b := anchor').
Qed.

(** * Reading a stream back into tokens *)

(** The tokens a reader of the wire format finds in [s], with the field
    arithmetic of [lz77_decompress]: a control byte below 32 opens a literal
    run of [ctrl + 1] bytes; otherwise [(ctrl >> 5) - 1], extended by one
    byte when it is 6, plus 3 is the match length and
    [((ctrl & 31) << 8) + low + 1] the distance. *)
Fixpoint parse_tokens (fuel : nat) (s : list byte) : option (list token) :=
  match fuel with
  | O => None
  | S fuel' =>
      match s with
      | [] => Some []
      | c :: s1 =>
          let ctrl := byte.unsigned c in
          if ctrl >=? 32 then
            let len := Z.shiftr ctrl 5 - 1 in
            let ofs := Z.shiftl (Z.land ctrl 31) 8 in
            match (if len =? 6 then
                     match s1 with
                     | e :: s2 => Some (len + byte.unsigned e, s2)
                     | [] => None
                     end
                   else Some (len, s1)) with
            | Some (len, b :: s3) =>
                option_map
                  (cons (TMatch (len + 3) (ofs + 1 + byte.unsigned b)))
                  (parse_tokens fuel' s3)
            | _ => None
            end
          else
            let n := ctrl + 1 in
            if zlen s1 <? n then None
            else
              option_map (cons (TLit (bytes_at s1 0 n)))
                (parse_tokens fuel' (skipn (Z.to_nat n) s1))
      end
  end.

Definition stream_tokens (s : list byte) : option (list token) :=
  parse_tokens (S (List.length s)) s.

Lemma parse_encode_tokens (ts : list token) :
  forall fuel,
    Forall wf_token ts -> (List.length ts < fuel)%nat ->
    parse_tokens fuel (encode_tokens ts) = Some ts.
Proof.
  induction ts as [|t ts IH]; intros fuel Hwf Hfuel;
    (destruct fuel as [|fuel]; [lia|]); [reflexivity|].
  inversion Hwf as [|? ? Ht Hts]; subst. cbn [List.length] in Hfuel.
  rewrite encode_tokens_cons. cbn [parse_tokens].
  destruct t as [bs|len d]; cbn [wf_token encode_token app] in *.
  - unfold MAX_COPY in Ht. rewrite unsigned_of_Z_small by lia.
    replace (zlen bs - 1 >=? 32) with false by lia. cbv zeta.
    replace (zlen bs - 1 + 1) with (zlen bs) by lia.
    replace (zlen (bs ++ encode_tokens ts) <? zlen bs) with false
      by (rewrite zlen_app; pose proof (zlen_nonneg (encode_tokens ts)); lia).
    rewrite bytes_at_prefix.
    replace (skipn (Z.to_nat (zlen bs)) (bs ++ encode_tokens ts))
      with (encode_tokens ts).
    + rewrite IH by (assumption || lia). reflexivity.
    + unfold zlen. rewrite Nat2Z.id, skipn_app, skipn_all, Nat.sub_diag.
      reflexivity.
  - unfold MIN_MATCH_LEN, MAX_LEN, MAX_DISTANCE in Ht. cbv zeta.
    destruct (len <? 9) eqn:E9; cbn [app].
    + set (v := (len - 2) * 32 + (d - 1) / 256).
      assert (Hv : 32 <= v < 224) by (subst v; lia).
      rewrite unsigned_of_Z_small by lia.
      destruct (ctrl_fields v ltac:(lia)) as (-> & _ & ->).
      replace (v >=? 32) with true by lia.
      replace (v / 32) with (len - 2) by (subst v; lia).
      replace (v mod 32) with ((d - 1) / 256) by (subst v; lia).
      replace (len - 2 - 1 =? 6) with false by lia.
      rewrite unsigned_of_Z_small by lia.
      rewrite IH by (assumption || lia). cbn [option_map].
      do 3 f_equal; lia.
    + set (v := 7 * 32 + (d - 1) / 256).
      assert (Hv : 224 <= v < 256) by (subst v; lia).
      rewrite unsigned_of_Z_small by lia.
      destruct (ctrl_fields v ltac:(lia)) as (-> & _ & ->).
      replace (v >=? 32) with true by lia.
      replace (v / 32) with 7 by (subst v; lia).
      replace (v mod 32) with ((d - 1) / 256) by (subst v; lia).
      change (7 - 1 =? 6) with true. cbv iota.
      rewrite !unsigned_of_Z_small by lia.
      rewrite IH by (assumption || lia). cbn [option_map].
      do 3 f_equal; lia.
Qed.

Lemma stream_tokens_encode (ts : list token) :
  Forall wf_token ts -> stream_tokens (encode_tokens ts) = Some ts.
Proof.
  intros Hwf. unfold stream_tokens. apply parse_encode_tokens; [assumption|].
  assert (H : 2 * Z.of_nat (List.length ts) <= zlen (encode_tokens ts)).
  { induction Hwf as [|t ts Ht Hts IH]; [cbn; lia|].
    rewrite encode_tokens_cons, zlen_app. cbn [List.length].
    pose proof (encode_token_two t Ht). lia. }
  unfold zlen in H. lia.
Qed.

Lemma tiles_wf (buf : list byte) (ts : list token) :
  forall a b, tiles buf a ts b -> Forall wf_token ts.
Proof.
  induction ts as [|t ts IH]; intros a b; cbn [tiles]; [constructor|].
  intros (Hwf & _ & Hts). constructor; eauto.
Qed.

Lemma tiles_distance (buf : list byte) (ts : list token) :
  forall a b len d,
    tiles buf a ts b -> In (TMatch len d) ts -> 1 <= d < MAX_DISTANCE.
Proof.
  induction ts as [|t ts IH]; intros a b len d; cbn [tiles In]; [tauto|].
  intros (Hwf & Ht & Hts) [-> | Hin]; [|eauto].
  cbn in Hwf. lia.
Qed.

(** * Properties of the compressor *)

(** * An input that does not compress *)

(** Byte [i] of the input: within each block of 256 bytes the values step by
    an odd number, and the step changes from block to block, so two
    neighbouring bytes tell where in a window of 32768 bytes they are. *)
Definition hard_byte (i : Z) : Z :=
  ((i mod 256) * (2 * (i / 256) + 1)) mod 256.

Definition hard_input (L : Z) : list byte :=
  map (fun i => byte.of_Z (hard_byte (Z.of_nat i))) (seq 0 (Z.to_nat L)).

Lemma zlen_hard_input (L : Z) : 0 <= L -> zlen (hard_input L) = L.
Proof.
  intros HL. unfold hard_input, zlen. rewrite length_map, length_seq. lia.
Qed.

Lemma byte_at_hard_input (L i : Z) :
  0 <= i < L -> byte.unsigned (byte_at (hard_input L) i) = hard_byte i.
Proof.
  intros Hi. unfold byte_at, hard_input.
  set (f := fun k : nat => byte.of_Z (hard_byte (Z.of_nat k))).
  rewrite nth_indep with (d' := f 0%nat)
    by (rewrite length_map, length_seq; lia).
  rewrite map_nth, seq_nth by lia. subst f. cbn beta.
  rewrite Nat.add_0_l, Z2Nat.id by lia.
  apply unsigned_of_Z_small. unfold hard_byte.
  apply Z.mod_pos_bound. lia.
Qed.

Lemma hard_byte_step (i : Z) :
  0 <= i ->
  (hard_byte (i + 1) - hard_byte i) mod 256 = (2 * (i / 256) + 1) mod 256.
Proof.
  intros Hi. unfold hard_byte. rewrite <- Zminus_mod.
  set (a := i / 256). set (r := i mod 256).
  assert (Hr : 0 <= r < 256) by (subst r; apply Z.mod_pos_bound; lia).
  assert (Hi' : i = 256 * a + r) by (subst a r; apply Z.div_mod; lia).
  destruct (Z.eq_dec r 255) as [E|E].
  - assert (H1 : (i + 1) mod 256 = 0) by lia.
    rewrite H1, Z.mul_0_l, Z.sub_0_l.
    replace (- (r * (2 * a + 1))) with (2 * a + 1 + - (2 * a + 1) * 256)
      by (rewrite E; ring).
    apply Z_mod_plus_full.
  - assert (H1 : (i + 1) mod 256 = r + 1) by lia.
    assert (H2 : (i + 1) / 256 = a) by lia.
    rewrite H1, H2. f_equal. ring.
Qed.

Lemma odd_cancel_256 (s r t : Z) :
  s mod 2 = 1 -> (r * s) mod 256 = (t * s) mod 256 ->
  0 <= r < 256 -> 0 <= t < 256 -> r = t.
Proof.
  intros Hs Heq Hr Ht.
  assert (Hdiv : (256 | (r - t) * s)).
  { apply Z.mod_divide; [lia|].
    rewrite Z.mul_sub_distr_r, Zminus_mod, Heq, Z.sub_diag. reflexivity. }
  assert (Hrp : Z.gcd 256 s = 1).
  { assert (H2 : Z.coprime 2 s).
    { apply Z.coprime_prime_l; [exact Z.prime_2|].
      intros Hd. apply Z.mod_divide in Hd; lia. }
    unfold Z.coprime in H2. rewrite Z.gcd_comm in H2.
    pose proof (Z.coprime_pow_r s 2 8 ltac:(lia) H2) as H8.
    unfold Z.coprime in H8. now rewrite Z.gcd_comm in H8. }
  rewrite Z.mul_comm in Hdiv.
  apply Z.gauss in Hdiv; [|assumption].
  destruct Hdiv as [k Hk]. lia.
Qed.

(** two positions less than 32768 apart never hold the same pair of bytes *)
Lemma hard_byte_pair (p q : Z) :
  0 <= p < q -> q - p < 32768 ->
  hard_byte p = hard_byte q -> hard_byte (p + 1) = hard_byte (q + 1) ->
  False.
Proof.
  intros Hpq Hd H0 H1.
  pose proof (hard_byte_step p ltac:(lia)) as Sp.
  pose proof (hard_byte_step q ltac:(lia)) as Sq.
  rewrite H0, H1, Sq in Sp.
  unfold hard_byte in H0.
  set (a := p / 256) in *. set (r := p mod 256) in *.
  set (b := q / 256) in *. set (t := q mod 256) in *.
  assert (Hr : 0 <= r < 256) by (subst r; apply Z.mod_pos_bound; lia).
  assert (Ht : 0 <= t < 256) by (subst t; apply Z.mod_pos_bound; lia).
  assert (Hp : p = 256 * a + r) by (subst a r; apply Z.div_mod; lia).
  assert (Hq : q = 256 * b + t) by (subst b t; apply Z.div_mod; lia).
  assert (Hrt : r = t).
  { apply (odd_cancel_256 (2 * a + 1)); try assumption; [lia|].
    rewrite H0. rewrite <- (Zmult_mod_idemp_r (2 * a + 1)).
    rewrite <- (Zmult_mod_idemp_r (2 * b + 1)). now rewrite Sp. }
  clearbody a r b t. lia.
Qed.

Lemma hard_input_no_repeat (L p q : Z) :
  0 <= p < q -> q + 1 < L -> q - p < 32768 ->
  seq24 (hard_input L) p <> seq24 (hard_input L) q.
Proof.
  intros Hpq HL Hd Heq.
  pose proof (seq24_eq _ _ _ Heq 0 ltac:(lia)) as H0.
  pose proof (seq24_eq _ _ _ Heq 1 ltac:(lia)) as H1.
  rewrite !Z.add_0_r in H0.
  apply (f_equal byte.unsigned) in H0, H1.
  rewrite !byte_at_hard_input in H0, H1 by lia.
  exact (hard_byte_pair p q Hpq Hd H0 H1).
Qed.

(** the match finder finds nothing in it: the whole input is written as
    literal runs, 33 bytes for every 32 *)
Lemma compress_hard_input (L : Z) (workmem : list Z) :
  16 <= L <= INT_MAX ->
  exists c workmem',
    lz77_compress (hard_input L) L workmem
    = Some (to_int (zlen c), c, workmem')
    /\ zlen c = L + (L + 31) / 32.
Proof.
  intros HL. pose proof HL as HL'. unfold INT_MAX in HL'.
  unfold lz77_compress, MIN_INPUT_SIZE.
  replace (L <=? 0) with false by lia.
  replace (L <? 13) with false by lia.
  destruct (Z.to_nat L) as [|f] eqn:Ef; [lia|].
  cbn [compress_loop].
  replace (2 <? L - 13) with true by lia.
  destruct (find_candidate_spec (hard_input L) L (L - 13) eq_refl
              (proj2 HL) (S f) 2 htab_zero)
    as (ip' & ref & distance & htab' & Hfc & Hip & Hfound);
    [lia | apply htab_zero_ok; lia | lia |].
  rewrite Hfc.
  assert (Hend : ip' = L - 13).
  { destruct (Z.lt_ge_cases ip' (L - 13)) as [Hlt|Hge]; [|lia].
    exfalso. destruct (Hfound Hlt) as (H1 & Href & Hdist & Hle & Hseq & _).
    unfold MAX_DISTANCE in Hdist.
    apply (hard_input_no_repeat L ref (ip' - 1)); try assumption; lia. }
  subst ip'. rewrite Z.geb_leb, Z.leb_refl.
  rewrite Z.sub_0_r, literals_tokens by lia. cbn [app].
  eexists _, _. split; [reflexivity|].
  apply zlen_encode_lit_tokens. lia.
Qed.

(** The round trip as the specification states it, at the input [x]:
    whatever the workspace and the capacity [max_out >= length x], the
    decoder run on the output of [lz77_compress], of the returned length,
    returns [length x] and has written [x]. *)
Definition roundtrip_at (x : list byte) : Prop :=
  forall (workmem : list Z) (max_out : Z),
    zlen x <= max_out ->
    exists n c workmem',
      lz77_compress x (zlen x) workmem = Some (n, c, workmem')
      /\ retval (lz77_decompress c n max_out) = zlen x
      /\ written_bytes (lz77_decompress c n max_out) = x.

Lemma int_max_sizes :
  0 <= INT_MAX /\ 16 <= INT_MAX <= INT_MAX
  /\ INT_MAX + (INT_MAX + 31) / 32 = 2214592511
  /\ to_int 2214592511 = -2080374785
  /\ 2214592511 <= INT_MAX + INT_MAX / 32 + COMPRESS_OVERHEAD.
Proof.
  unfold INT_MAX, COMPRESS_OVERHEAD, to_int. repeat split; lia.
Qed.

(** C1, counterexample. On the input [hard_input INT_MAX], of 2147483647
    bytes, [lz77_compress] writes 2214592511 bytes, which fit the buffer the
    claim asks for but not an [int]: the value returned is -2080374785, and
    [lz77_decompress] called with that length returns 0. *)
Lemma roundtrip_fails_above_int_max :
  zlen (hard_input INT_MAX) = INT_MAX
  /\ (exists c workmem',
         lz77_compress (hard_input INT_MAX) INT_MAX htab_zero
         = Some (-2080374785, c, workmem')
         /\ zlen c = 2214592511
         /\ zlen c <= INT_MAX + INT_MAX / 32 + COMPRESS_OVERHEAD
         /\ lz77_decompress c (-2080374785) INT_MAX = Fail [])
  /\ ~ roundtrip_at (hard_input INT_MAX).
Proof.
  destruct int_max_sizes as (Hpos & Hrange & Hsize & Hwrap & Hfits).
  assert (Hlen : zlen (hard_input INT_MAX) = INT_MAX)
    by exact (zlen_hard_input INT_MAX Hpos).
  assert (Hfail : forall c, lz77_decompress c (-2080374785) INT_MAX = Fail [])
    by (intros c; reflexivity).
  destruct (compress_hard_input INT_MAX htab_zero Hrange)
    as (c & workmem' & Hc & Hz).
  rewrite Hsize in Hz. rewrite Hz, Hwrap in Hc.
  split; [exact Hlen|]. split.
  - exists c, workmem'. split; [exact Hc|]. split; [exact Hz|].
    split; [|apply Hfail]. rewrite Hz. exact Hfits.
  - intros Hround.
    destruct (Hround htab_zero INT_MAX (Z.eq_le_incl _ _ Hlen))
      as (n & c' & workmem'' & Hc' & Hret & _).
    rewrite Hlen in Hc', Hret. rewrite Hc in Hc'.
    injection Hc' as <- <- _.
    rewrite Hfail in Hret. cbn [retval] in Hret.
    unfold INT_MAX in Hret. discriminate Hret.
Qed.

(** C1. Round trip: for every byte sequence [x] that fits an [int] length
    (the empty one included), [lz77_compress] writes a compressed stream [c]
    that fits an output buffer of [length x + length x / 32 + 128] bytes;
    whenever the size of [c] fits the [int] that [lz77_compress] returns,
    which it does for every [x] with
    [length x + length x / 32 + 1 <= INT_MAX], the returned length [n] is
    that size and [lz77_decompress] run on those [n] bytes with any capacity
    [max_out >= length x] returns [length x] and has written exactly [x]. *)
Theorem compress_decompress_roundtrip
    (x : list byte) (workmem : list Z) (max_out : Z) :
  zlen x <= INT_MAX -> zlen x <= max_out ->
  exists n c workmem',
    lz77_compress x (zlen x) workmem = Some (n, c, workmem')
    /\ zlen c <= zlen x + zlen x / 32 + COMPRESS_OVERHEAD
    /\ (zlen x + zlen x / 32 + 1 <= INT_MAX -> zlen c <= INT_MAX)
    /\ (zlen c <= INT_MAX ->
        n = zlen c
        /\ retval (lz77_decompress c n max_out) = zlen x
        /\ written_bytes (lz77_decompress c n max_out) = x
        /\ (x <> [] -> lz77_decompress c n max_out = Done x)).
Proof.
  intros Hmax Hcap. unfold COMPRESS_OVERHEAD.
  destruct x as [|b x'].
  - exists 0, [], workmem.
    change (zlen (@nil byte)) with 0. cbn.
    repeat split; try reflexivity; try lia; congruence.
  - set (x := b :: x') in *.
    assert (Hpos : 0 < zlen x) by (subst x; rewrite zlen_cons; unfold zlen; lia).
    destruct (lz77_compress_tokens x workmem ltac:(lia))
      as (ts & htab' & n & ts' & Hc & Ht & Hz & Hts & _).
    exists (to_int (zlen (encode_tokens ts))), (encode_tokens ts), htab'.
    split; [exact Hc|]. split; [lia|]. split; [lia|].
    intros Hfits.
    rewrite to_int_small by (pose proof (zlen_nonneg (encode_tokens ts)); lia).
    assert (Hd : lz77_decompress (encode_tokens ts) (zlen (encode_tokens ts))
                   max_out = Done x).
    { subst ts.
      pose proof (decompress_tiles x max_out (zlen x) _ _ Ht Hcap) as H.
      cbv zeta in H. now rewrite bytes_at_all in H. }
    rewrite Hd. cbn [retval written_bytes].
    repeat split; reflexivity.
Qed.

(** C5. Compressed-size bound: for every input of length [L > 0] (an [int]),
    [lz77_compress] writes at most [L + L / 32 + 128] bytes and returns a
    value of at most [L + L / 32 + 128]: the value returned is the number of
    bytes written converted to [int], which is that number whenever it fits
    an [int] and is never more than it. *)
Theorem compressed_size_bound (x : list byte) (workmem : list Z) :
  0 < zlen x <= INT_MAX ->
  exists n c workmem',
    lz77_compress x (zlen x) workmem = Some (n, c, workmem')
    /\ zlen c <= zlen x + zlen x / 32 + COMPRESS_OVERHEAD
    /\ n <= zlen x + zlen x / 32 + COMPRESS_OVERHEAD
    /\ n = to_int (zlen c)
    /\ (zlen c <= INT_MAX -> n = zlen c).
Proof.
  intros HL. unfold COMPRESS_OVERHEAD.
  destruct (lz77_compress_tokens x workmem HL)
    as (ts & htab' & n & ts' & Hc & _ & Hz & _).
  exists (to_int (zlen (encode_tokens ts))), (encode_tokens ts), htab'.
  pose proof (zlen_nonneg (encode_tokens ts)) as Hnn.
  pose proof (to_int_le _ Hnn) as Hle.
  split; [exact Hc|]. split; [lia|]. split; [lia|].
  split; [reflexivity|].
  intros Hfits. apply to_int_small. lia.
Qed.

(** C6. Literal lead-in: for every input of positive length the compressed
    stream starts with the control byte of a literal run (a value below 32)
    followed by the first [k] input bytes, [1 <= k <= 32]; on the full
    compression path (length at least 13) the run covers at least the first
    2 input bytes. So the first token is never a match. *)
Theorem first_token_is_literal (x : list byte) (workmem : list Z) :
  0 < zlen x <= INT_MAX ->
  exists n k rest workmem',
    lz77_compress x (zlen x) workmem
    = Some (n, byte.of_Z (k - 1) :: bytes_at x 0 k ++ rest, workmem')
    /\ 1 <= k <= MAX_COPY
    /\ byte.unsigned (byte.of_Z (k - 1)) = k - 1
    /\ byte.unsigned (byte.of_Z (k - 1)) < 32
    /\ (MIN_INPUT_SIZE <= zlen x -> 2 <= k)
    /\ stream_tokens (byte.of_Z (k - 1) :: bytes_at x 0 k ++ rest)
       = option_map (cons (TLit (bytes_at x 0 k))) (stream_tokens rest).
Proof.
  intros HL.
  destruct (lz77_compress_tokens x workmem HL)
    as (ts & htab' & k & ts' & Hc & Ht & _ & Hts & Hk1 & Hk2).
  subst ts. pose proof Ht as (Hwf & _ & Ht').
  cbn [wf_token] in Hwf. rewrite zlen_bytes_at in Hwf by lia.
  exists (to_int (zlen (encode_tokens (TLit (bytes_at x 0 k) :: ts')))), k,
         (encode_tokens ts'), htab'.
  assert (Henc : encode_tokens (TLit (bytes_at x 0 k) :: ts')
                 = byte.of_Z (k - 1) :: bytes_at x 0 k ++ encode_tokens ts').
  { rewrite encode_tokens_cons. cbn [encode_token app].
    now rewrite zlen_bytes_at by lia. }
  rewrite <- Henc. unfold MAX_COPY in *.
  rewrite unsigned_of_Z_small by lia.
  repeat split; try assumption; try lia.
  rewrite !stream_tokens_encode; [reflexivity | |].
  - eapply tiles_wf; eassumption.
  - eapply tiles_wf; eassumption.
Qed.

(** C10. Emitted-distance ceiling: the output of [lz77_compress] is the
    encoding of a sequence of well-formed tokens, the very sequence a reader
    of the wire format finds in it, and every match token in that sequence
    has a distance between 1 and 8191; the distance 8192, which the format
    can carry, never occurs, although a turn of the decoder's loop accepts a
    match token at distance 8192 once 8192 bytes are in the output. *)
Theorem emitted_distance_below_window (x : list byte) (workmem : list Z) :
  0 < zlen x <= INT_MAX ->
  (exists n c workmem' ts,
      lz77_compress x (zlen x) workmem = Some (n, c, workmem')
      /\ stream_tokens c = Some ts
      /\ forall len d, In (TMatch len d) ts -> 1 <= d <= MAX_DISTANCE - 1)
  /\ (forall (turn : Z -> Z -> list byte -> dresult)
             (pre rest out : list byte) (len max_out : Z),
         MIN_MATCH_LEN <= len <= MAX_LEN ->
         MAX_DISTANCE <= zlen out -> zlen out + len <= max_out ->
         let t := TMatch len MAX_DISTANCE in
         let s := pre ++ encode_token t ++ rest in
         decompress_body turn s (zlen s) (zlen s - 2) max_out (zlen pre + 1)
           (byte.unsigned (hd Byte.x00 (encode_token t))) out
         = next_ctrl turn s (zlen s) (zlen s - 2)
             (zlen pre + zlen (encode_token t))
             (lz_copy (Z.to_nat len) MAX_DISTANCE out)).
Proof.
  intros HL. split.
  - destruct (lz77_compress_tokens x workmem HL)
      as (ts & htab' & k & ts' & Hc & Ht & _).
    exists (to_int (zlen (encode_tokens ts))), (encode_tokens ts), htab', ts.
    split; [assumption|]. split.
    + apply stream_tokens_encode. eapply tiles_wf; eassumption.
    + intros len d Hin.
      pose proof (tiles_distance _ _ _ _ _ _ Ht Hin). lia.
  - intros turn pre rest out len max_out Hlen Hout Hcap t s.
    apply (decompress_body_token turn pre rest out t max_out);
      subst t; cbn [wf_token token_len];
      unfold MIN_MATCH_LEN, MAX_LEN, MAX_DISTANCE in *; lia.
Qed.

(** The splitting rule as the specification states it: a match longer than the single-token
    maximum is written as maximum-length tokens (264 bytes each) followed by
    one token for the remainder, which is at least 3 bytes long. *)
Definition split_into_max_tokens (len distance : Z) : Prop :=
  exists (k : nat) (rem : Z),
    stream_tokens (match_ len distance [])
    = Some (repeat (TMatch MAX_LEN distance) k ++ [TMatch rem distance])
    /\ MIN_MATCH_LEN <= rem.

(** C4, counterexample. [match(263, 1, op)] encodes a match of 265 bytes;
    it writes a 262-byte token followed by a 3-byte token, not a 264-byte
    token followed by the remainder. *)
Lemma match_split_not_max_len :
  MAX_LEN < 263 + 2
  /\ stream_tokens (match_ 263 1 []) = Some [TMatch 262 1; TMatch 3 1]
  /\ ~ split_into_max_tokens 263 1.
Proof.
  assert (E : stream_tokens (match_ 263 1 [])
              = Some [TMatch 262 1; TMatch 3 1]) by (vm_compute; reflexivity).
  split; [unfold MAX_LEN; lia|]. split; [exact E|].
  intros (k & rem & H & _). rewrite E in H.
  destruct k as [|[|k]]; cbn in H; discriminate H.
Qed.

(** C4, amended. A match whose [len] argument exceeds [MAX_LEN - 2] (that
    is, a match of more than 264 bytes) at a distance the format can carry
    is written as [k >= 1] tokens that each decode to [MAX_LEN - 2 = 262]
    bytes at that distance, followed by one final token at the same distance
    that decodes to the remainder, between 3 and 264 bytes; together they
    decode to the [len + 2] bytes of the match. *)
Theorem match_split_chunks (len distance : Z) :
  MAX_LEN - 2 < len -> 1 <= distance <= MAX_DISTANCE ->
  exists (k : nat) (rem : Z),
    stream_tokens (match_ len distance [])
    = Some (repeat (TMatch (MAX_LEN - 2) distance) k
              ++ [TMatch rem distance])
    /\ (1 <= k)%nat
    /\ MIN_MATCH_LEN <= rem <= MAX_LEN
    /\ (MAX_LEN - 2) * Z.of_nat k + rem = len + 2.
Proof.
  unfold MAX_LEN, MIN_MATCH_LEN. intros Hlen Hd.
  exists (Z.to_nat ((len - 1) / 262)), ((len - 1) mod 262 + 1 + 2).
  rewrite match_tokens_spec by (assumption || lia). cbn [app].
  split; [|lia].
  unfold match_tokens. apply stream_tokens_encode.
  apply Forall_app. split.
  - apply Forall_forall. intros t Ht. apply repeat_spec in Ht. subst t.
    cbn. unfold MIN_MATCH_LEN, MAX_LEN, MAX_DISTANCE in *. lia.
  - constructor; [|constructor].
    cbn. unfold MIN_MATCH_LEN, MAX_LEN, MAX_DISTANCE in *. lia.
Qed.


(** C8. Non-positive length rejection: with [length <= 0], [lz77_compress]
    returns 0, has written nothing and leaves the workspace as it was, and
    [lz77_decompress] returns 0 and has written nothing. *)
Theorem nonpositive_length_rejected
    (buf : list byte) (length max_out : Z) (workmem : list Z) :
  length <= 0 ->
  lz77_compress buf length workmem = Some (0, [], workmem)
  /\ lz77_decompress buf length max_out = Fail []
  /\ retval (lz77_decompress buf length max_out) = 0
  /\ written_bytes (lz77_decompress buf length max_out) = [].
Proof.
  intros Hlen. unfold lz77_compress, lz77_decompress.
  replace (length <=? 0) with true by lia. repeat split.
Qed.

(** C9. Workspace noninterference: for every input buffer and length, two
    runs of [lz77_compress] started with any two workspace contents give the
    same return value and the same output bytes; and on a well-formed call
    (a non-positive length, or the length of the buffer, an [int]) both runs
    do return. *)
Theorem workspace_noninterference
    (buf : list byte) (length : Z) (workmem1 workmem2 : list Z) :
  option_map fst (lz77_compress buf length workmem1)
  = option_map fst (lz77_compress buf length workmem2)
  /\ (length <= 0 \/ (length = zlen buf /\ length <= INT_MAX) ->
      exists n c,
        option_map fst (lz77_compress buf length workmem1) = Some (n, c)
        /\ option_map fst (lz77_compress buf length workmem2) = Some (n, c)).
Proof.
  assert (E : option_map fst (lz77_compress buf length workmem1)
              = option_map fst (lz77_compress buf length workmem2)).
  { unfold lz77_compress.
    destruct (length <=? 0); [reflexivity|].
    destruct (length <? MIN_INPUT_SIZE); [reflexivity|].
    destruct (compress_loop _ _ _ _ _ _ _ _) as [[[a o] h]|]; reflexivity. }
  split; [exact E|].
  intros [Hneg | [Heq Hmax]]; rewrite <- E.
  - unfold lz77_compress. replace (length <=? 0) with true by lia.
    cbn. eauto.
  - destruct (Z.le_gt_cases length 0) as [Hle|Hgt].
    + unfold lz77_compress. replace (length <=? 0) with true by lia.
      cbn. eauto.
    + subst length.
      destruct (lz77_compress_tokens buf workmem1 ltac:(lia))
        as (ts & htab' & n & ts' & Hc & _).
      rewrite Hc. cbn. eauto.
Qed.

(** * Witnesses: the theorems at concrete inputs *)

(** "ABCABC...ABC", 21 bytes, compressed on the full path with a match *)
Definition sample : list byte :=
  concat (repeat [Byte.x41; Byte.x42; Byte.x43] 7).

Lemma compress_decompress_roundtrip_witness :
  zlen sample <= INT_MAX /\ zlen sample <= 21
  /\ exists n c workmem',
       lz77_compress sample (zlen sample) [] = Some (n, c, workmem')
       /\ zlen c <= zlen sample + zlen sample / 32 + COMPRESS_OVERHEAD
       /\ (zlen sample + zlen sample / 32 + 1 <= INT_MAX -> zlen c <= INT_MAX)
       /\ (zlen c <= INT_MAX ->
           n = zlen c
           /\ retval (lz77_decompress c n 21) = zlen sample
           /\ written_bytes (lz77_decompress c n 21) = sample
           /\ (sample <> [] -> lz77_decompress c n 21 = Done sample)).
Proof.
  assert (H1 : zlen sample <= INT_MAX) by (vm_compute; discriminate).
  assert (H2 : zlen sample <= 21) by (vm_compute; discriminate).
  split; [exact H1|]. split; [exact H2|].
  exact (compress_decompress_roundtrip sample [] 21 H1 H2).
Defined.

Lemma decompress_capacity_monotonic_witness :
  0 < 2
  /\ lz77_decompress [Byte.x00; Byte.x41] 2 1 = Done [Byte.x41]
  /\ 0 < retval (Done [Byte.x41])
  /\ (forall M, retval (Done [Byte.x41]) <= M ->
                lz77_decompress [Byte.x00; Byte.x41] 2 M = Done [Byte.x41])
  /\ (forall M, M < retval (Done [Byte.x41]) ->
                (exists w', lz77_decompress [Byte.x00; Byte.x41] 2 M = Fail w')
                /\ retval (lz77_decompress [Byte.x00; Byte.x41] 2 M) = 0).
Proof.
  assert (H1 : 0 < 2) by lia.
  assert (H2 : lz77_decompress [Byte.x00; Byte.x41] 2 1 = Done [Byte.x41])
    by reflexivity.
  split; [exact H1|]. split; [exact H2|].
  exact (decompress_capacity_monotonic [Byte.x00; Byte.x41] 2 1 [Byte.x41]
           H1 H2).
Defined.

Lemma match_split_chunks_witness :
  MAX_LEN - 2 < 263 /\ 1 <= 1 <= MAX_DISTANCE
  /\ exists (k : nat) (rem : Z),
       stream_tokens (match_ 263 1 [])
       = Some (repeat (TMatch (MAX_LEN - 2) 1) k ++ [TMatch rem 1])
       /\ (1 <= k)%nat
       /\ MIN_MATCH_LEN <= rem <= MAX_LEN
       /\ (MAX_LEN - 2) * Z.of_nat k + rem = 263 + 2.
Proof.
  assert (H1 : MAX_LEN - 2 < 263) by (unfold MAX_LEN; lia).
  assert (H2 : 1 <= 1 <= MAX_DISTANCE) by (unfold MAX_DISTANCE; lia).
  split; [exact H1|]. split; [exact H2|].
  exact (match_split_chunks 263 1 H1 H2).
Defined.

Lemma compressed_size_bound_witness :
  0 < zlen sample <= INT_MAX
  /\ exists n c workmem',
       lz77_compress sample (zlen sample) [] = Some (n, c, workmem')
       /\ zlen c <= zlen sample + zlen sample / 32 + COMPRESS_OVERHEAD
       /\ n <= zlen sample + zlen sample / 32 + COMPRESS_OVERHEAD
       /\ n = to_int (zlen c)
       /\ (zlen c <= INT_MAX -> n = zlen c).
Proof.
  assert (H : 0 < zlen sample <= INT_MAX)
    by (vm_compute; split; [reflexivity | discriminate]).
  split; [exact H|].
  exact (compressed_size_bound sample [] H).
Defined.

Lemma first_token_is_literal_witness :
  0 < zlen sample <= INT_MAX
  /\ exists n k rest workmem',
       lz77_compress sample (zlen sample) []
       = Some (n, byte.of_Z (k - 1) :: bytes_at sample 0 k ++ rest, workmem')
       /\ 1 <= k <= MAX_COPY
       /\ byte.unsigned (byte.of_Z (k - 1)) = k - 1
       /\ byte.unsigned (byte.of_Z (k - 1)) < 32
       /\ (MIN_INPUT_SIZE <= zlen sample -> 2 <= k)
       /\ stream_tokens (byte.of_Z (k - 1) :: bytes_at sample 0 k ++ rest)
          = option_map (cons (TLit (bytes_at sample 0 k)))
              (stream_tokens rest).
Proof.
  assert (H : 0 < zlen sample <= INT_MAX)
    by (vm_compute; split; [reflexivity | discriminate]).
  split; [exact H|].
  exact (first_token_is_literal sample [] H).
Defined.

Lemma emitted_distance_below_window_witness :
  0 < zlen sample <= INT_MAX
  /\ exists n c workmem' ts,
       lz77_compress sample (zlen sample) [] = Some (n, c, workmem')
       /\ stream_tokens c = Some ts
       /\ forall len d, In (TMatch len d) ts -> 1 <= d <= MAX_DISTANCE - 1.
Proof.
  assert (H : 0 < zlen sample <= INT_MAX)
    by (vm_compute; split; [reflexivity | discriminate]).
  split; [exact H|].
  exact (proj1 (emitted_distance_below_window sample [] H)).
Defined.



Lemma nonpositive_length_rejected_witness :
  0 <= 0
  /\ lz77_compress [] 0 htab_zero = Some (0, [], htab_zero)
  /\ lz77_decompress [] 0 16 = Fail []
  /\ retval (lz77_decompress [] 0 16) = 0
  /\ written_bytes (lz77_decompress [] 0 16) = [].
Proof.
  assert (H : 0 <= 0) by lia.
  split; [exact H|].
  exact (nonpositive_length_rejected [] 0 16 htab_zero H).
Defined.

(** * Further properties of lz77.h *)

Lemma lz77_hash_bound (v : Z) : 0 <= lz77_hash v < HASH_SIZE.
Proof.
  unfold lz77_hash, HASH_SIZE, HASH_LOG, u32. cbv zeta.
  set (w := (Z.lxor v (Z.shiftr v 15) * 668265261) mod 2 ^ 32).
  assert (Hw : 0 <= w < 2 ^ 32) by (subst w; apply Z.mod_pos_bound; lia).
  rewrite Z.shiftr_div_pow2 by lia.
  change (Z.shiftl 1 13) with 8192. change (2 ^ (32 - 13)) with 524288.
  change (2 ^ 32) with 4294967296 in Hw. lia.
Qed.

(** X1. [lz77_hash] maps every 32-bit value (every integer, in fact) to an
    index of the 8192-entry table. *)
Theorem lz77_hash_range (v : Z) : 0 <= lz77_hash v < HASH_SIZE.
Proof. exact (lz77_hash_bound v). Qed.

Lemma list_set_length {A : Type} (l : list A) :
  forall n v, List.length (list_set l n v) = List.length l.
Proof.
  induction l as [|x l IH]; intros [|n] v; cbn [list_set List.length]; auto.
Qed.

Lemma nth_list_set_same {A : Type} (l : list A) :
  forall n v d, (n < List.length l)%nat -> nth n (list_set l n v) d = v.
Proof.
  induction l as [|x l IH]; intros [|n] v d Hn; cbn [List.length] in Hn;
    cbn [list_set nth]; try lia; auto.
  apply IH. lia.
Qed.

Lemma nth_list_set_other {A : Type} (l : list A) :
  forall n m v d, n <> m -> nth m (list_set l n v) d = nth m l d.
Proof.
  induction l as [|x l IH]; intros [|n] [|m] v d Hnm; cbn [list_set nth];
    try reflexivity; try congruence.
  apply IH. congruence.
Qed.

(** X2. The position index: in a table of [HASH_SIZE] slots, storing the
    offset [p] for the sequence [s] makes the lookup of any sequence with
    the same hash return [p], leaves the slot of every other hash as it
    was, and keeps the size of the table. *)
Theorem htab_insert_lookup (htab : list Z) (s s' p : Z) :
  zlen htab = HASH_SIZE -> 0 <= p < 2 ^ 32 ->
  let htab' := htab_set htab (lz77_hash s) p in
  zlen htab' = HASH_SIZE
  /\ (lz77_hash s' = lz77_hash s -> htab_get htab' (lz77_hash s') = p)
  /\ (lz77_hash s' <> lz77_hash s ->
      htab_get htab' (lz77_hash s') = htab_get htab (lz77_hash s')).
Proof.
  intros Hlen Hp. cbv zeta. unfold htab_set, htab_get, zlen in *.
  pose proof (lz77_hash_bound s) as Hs.
  pose proof (lz77_hash_bound s') as Hs'.
  rewrite u32_small by assumption.
  split; [|split].
  - now rewrite list_set_length.
  - intros ->. apply nth_list_set_same. lia.
  - intros Hne. apply nth_list_set_other. lia.
Qed.

Lemma htab_insert_lookup_witness :
  zlen htab_zero = HASH_SIZE /\ 0 <= 5 < 2 ^ 32
  /\ (let htab' := htab_set htab_zero (lz77_hash 7) 5 in
      zlen htab' = HASH_SIZE
      /\ (lz77_hash 7 = lz77_hash 7 -> htab_get htab' (lz77_hash 7) = 5)
      /\ (lz77_hash 7 <> lz77_hash 7 ->
          htab_get htab' (lz77_hash 7) = htab_get htab_zero (lz77_hash 7))).
Proof.
  assert (H1 : zlen htab_zero = HASH_SIZE) by reflexivity.
  assert (H2 : 0 <= 5 < 2 ^ 32) by lia.
  split; [exact H1|]. split; [exact H2|].
  exact (htab_insert_lookup htab_zero 7 7 5 H1 H2).
Defined.

Lemma match_len_facts (buf : list byte) (ref_ptr ip_ptr ip_end : Z) :
  0 <= ip_ptr <= ip_end -> ip_end <= INT_MAX ->
  let m := match_len buf ref_ptr ip_ptr ip_end in
  0 <= m <= ip_end - ip_ptr
  /\ (forall j, 0 <= j < m ->
                byte_at buf (ref_ptr + j) = byte_at buf (ip_ptr + j))
  /\ (ip_ptr + m = ip_end
      \/ byte_at buf (ref_ptr + m) <> byte_at buf (ip_ptr + m)).
Proof.
  intros Hp He. cbv zeta.
  pose proof (match_len_spec buf ref_ptr ip_ptr ip_end Hp He) as H.
  cbv zeta in H. destruct H as (H1 & H2 & H3).
  split; [lia|]. split; [exact H3|].
  pose proof (match_len_loop_stops buf (Z.to_nat (ip_end - ip_ptr))
                ref_ptr ip_ptr ip_end ltac:(lia)) as Hs.
  cbv zeta in Hs. unfold match_len in *. unfold INT_MAX in He.
  pose proof (match_len_loop_spec buf (Z.to_nat (ip_end - ip_ptr))
                ref_ptr ip_ptr ip_end) as Hl.
  cbv zeta in Hl. destruct Hl as (L1 & L2 & _).
  rewrite u32_small by lia. exact Hs.
Qed.

(** X3. [match_len] returns the length of the longest run of equal bytes
    at [ref_ptr] and [ip_ptr] that ends at or before [ip_end]: the bytes of
    the run are pairwise equal, and the run stops at [ip_end] or at a
    mismatch. *)
Theorem match_len_longest (buf : list byte) (ref_ptr ip_ptr ip_end : Z) :
  0 <= ip_ptr <= ip_end -> ip_end <= INT_MAX ->
  let m := match_len buf ref_ptr ip_ptr ip_end in
  0 <= m <= ip_end - ip_ptr
  /\ (forall j, 0 <= j < m ->
                byte_at buf (ref_ptr + j) = byte_at buf (ip_ptr + j))
  /\ (ip_ptr + m = ip_end
      \/ byte_at buf (ref_ptr + m) <> byte_at buf (ip_ptr + m)).
Proof.
  intros Hp He. exact (match_len_facts buf ref_ptr ip_ptr ip_end Hp He).
Qed.

Lemma match_len_longest_witness :
  0 <= 3 <= 6 /\ 6 <= INT_MAX
  /\ (let buf := [Byte.x41; Byte.x42; Byte.x43; Byte.x41; Byte.x42;
                  Byte.x44] in
      let m := match_len buf 0 3 6 in
      0 <= m <= 6 - 3
      /\ (forall j, 0 <= j < m ->
                    byte_at buf (0 + j) = byte_at buf (3 + j))
      /\ (3 + m = 6 \/ byte_at buf (0 + m) <> byte_at buf (3 + m))).
Proof.
  assert (H1 : 0 <= 3 <= 6) by lia.
  assert (H2 : 6 <= INT_MAX) by (unfold INT_MAX; lia).
  split; [exact H1|]. split; [exact H2|].
  exact (match_len_longest
           [Byte.x41; Byte.x42; Byte.x43; Byte.x41; Byte.x42; Byte.x44]
           0 3 6 H1 H2).
Defined.

Definition is_literal (t : token) : bool :=
  match t with TLit _ => true | TMatch _ _ => false end.

Definition literal_bytes (t : token) : list byte :=
  match t with TLit bs => bs | TMatch _ _ => [] end.

Lemma lit_chunks_bytes (buf : list byte) (n : nat) :
  forall src,
    forallb is_literal (lit_chunks n buf src) = true
    /\ concat (map literal_bytes (lit_chunks n buf src))
       = bytes_at buf src (32 * Z.of_nat n).
Proof.
  induction n as [|n IH]; intros src; cbn [lit_chunks]; [split; reflexivity|].
  destruct (IH (src + MAX_COPY)) as [H1 H2].
  cbn [forallb is_literal andb map concat literal_bytes]. split; [exact H1|].
  rewrite H2. change MAX_COPY with 32.
  replace (32 * Z.of_nat (S n)) with (32 + 32 * Z.of_nat n) by lia.
  now rewrite bytes_at_split by lia.
Qed.

(** X4. [literals(runs, src, dest)] appends to [dest] exactly
    [runs + ceil(runs / 32)] bytes (nothing for an empty run); read back as
    tokens they are literal runs only, whose bytes are the [runs] bytes at
    [src] in order. *)
Theorem literals_output (buf dest : list byte) (runs src : Z) :
  0 <= runs ->
  exists ts,
    literals runs src buf dest = dest ++ encode_tokens ts
    /\ zlen (literals runs src buf dest)
       = zlen dest + runs + (runs + 31) / 32
    /\ stream_tokens (encode_tokens ts) = Some ts
    /\ forallb is_literal ts = true
    /\ concat (map literal_bytes ts) = bytes_at buf src runs.
Proof.
  intros Hr. exists (lit_tokens buf src runs).
  rewrite literals_tokens by assumption.
  split; [reflexivity|]. split; [|split; [|split]].
  - rewrite zlen_app, zlen_encode_lit_tokens by assumption. lia.
  - apply stream_tokens_encode. eapply tiles_wf.
    apply tiles_lit_tokens. assumption.
  - unfold lit_tokens. rewrite forallb_app.
    destruct (lit_chunks_bytes buf (Z.to_nat (runs / 32)) src) as [-> _].
    destruct (runs mod 32 =? 0); reflexivity.
  - unfold lit_tokens. rewrite map_app, concat_app.
    destruct (lit_chunks_bytes buf (Z.to_nat (runs / 32)) src) as [_ ->].
    rewrite Z2Nat.id by lia.
    replace runs with (32 * (runs / 32) + runs mod 32) at 5 by lia.
    rewrite bytes_at_split by lia. f_equal.
    destruct (runs mod 32 =? 0) eqn:E; cbn [map concat literal_bytes].
    + replace (runs mod 32) with 0 by lia. reflexivity.
    + now rewrite app_nil_r.
Qed.

Lemma literals_output_witness :
  0 <= 2
  /\ exists ts,
       literals 2 1 [Byte.x41; Byte.x42; Byte.x43] []
       = [] ++ encode_tokens ts
       /\ zlen (literals 2 1 [Byte.x41; Byte.x42; Byte.x43] [])
          = zlen (@nil byte) + 2 + (2 + 31) / 32
       /\ stream_tokens (encode_tokens ts) = Some ts
       /\ forallb is_literal ts = true
       /\ concat (map literal_bytes ts)
          = bytes_at [Byte.x41; Byte.x42; Byte.x43] 1 2.
Proof.
  assert (H : 0 <= 2) by lia.
  split; [exact H|].
  exact (literals_output [Byte.x41; Byte.x42; Byte.x43] [] 2 1 H).
Defined.

(** X5. Inputs shorter than [MIN_INPUT_SIZE]: for [0 < L < 13] the output
    is the single control byte [L - 1] followed by the input itself, the
    return value is [L + 1], and the workspace is not touched. *)
Theorem compress_short_input (x : list byte) (workmem : list Z) :
  0 < zlen x < MIN_INPUT_SIZE ->
  lz77_compress x (zlen x) workmem
  = Some (zlen x + 1, byte.of_Z (zlen x - 1) :: x, workmem).
Proof.
  unfold MIN_INPUT_SIZE. intros HL. unfold lz77_compress, MIN_INPUT_SIZE.
  replace (zlen x <=? 0) with false by lia.
  replace (zlen x <? 13) with true by lia.
  assert (E : literals (zlen x) 0 x [] = byte.of_Z (zlen x - 1) :: x).
  { unfold literals.
    replace (Z.to_nat (zlen x)) with (S (Z.to_nat (zlen x - 1))) by lia.
    cbn [literals_loop]. change MAX_COPY with 32.
    replace (zlen x >=? 32) with false by lia.
    replace (zlen x =? 0) with false by lia.
    cbn [app]. now rewrite bytes_at_all. }
  rewrite E, zlen_cons.
  rewrite to_int_small by (unfold INT_MAX; lia). reflexivity.
Qed.

Lemma compress_short_input_witness :
  0 < zlen [Byte.x41; Byte.x42; Byte.x43] < MIN_INPUT_SIZE
  /\ lz77_compress [Byte.x41; Byte.x42; Byte.x43] 3 []
     = Some (4, [Byte.x02; Byte.x41; Byte.x42; Byte.x43], []).
Proof.
  assert (H : 0 < zlen [Byte.x41; Byte.x42; Byte.x43] < MIN_INPUT_SIZE)
    by (unfold MIN_INPUT_SIZE; vm_compute; split; reflexivity).
  split; [exact H|].
  exact (compress_short_input [Byte.x41; Byte.x42; Byte.x43] [] H).
Defined.

(** X6. For an input of [L > 0] bytes [lz77_compress] writes at least 2
    and at most [L + L / 32 + 1] bytes: one control byte per 32 literals
    and one more for the last run.  It returns that number converted to
    [int], which is the number itself when [L + L / 32 + 1 <= INT_MAX]. *)
Theorem compressed_size_tight (x : list byte) (workmem : list Z) :
  0 < zlen x <= INT_MAX ->
  exists n c workmem',
    lz77_compress x (zlen x) workmem = Some (n, c, workmem')
    /\ 2 <= zlen c <= zlen x + zlen x / 32 + 1
    /\ n = to_int (zlen c)
    /\ (zlen x + zlen x / 32 + 1 <= INT_MAX -> n = zlen c).
Proof.
  intros HL.
  destruct (lz77_compress_tokens x workmem HL)
    as (ts & htab' & n & ts' & Hc & Ht & Hz & _).
  exists (to_int (zlen (encode_tokens ts))), (encode_tokens ts), htab'.
  split; [assumption|].
  assert (Hlow : 2 <= zlen (encode_tokens ts)).
  { pose proof (tiles_encoded_length _ _ _ _ Ht) as Hlen.
    destruct ts as [|t ts0]; [cbn [tiles] in Ht; lia|].
    cbn [List.length] in Hlen. lia. }
  split; [lia|]. split; [reflexivity|].
  intros Hfits. apply to_int_small. lia.
Qed.

Lemma compressed_size_tight_witness :
  0 < zlen [Byte.x41; Byte.x42; Byte.x43] <= INT_MAX
  /\ exists n c workmem',
       lz77_compress [Byte.x41; Byte.x42; Byte.x43]
         (zlen [Byte.x41; Byte.x42; Byte.x43]) [] = Some (n, c, workmem')
       /\ 2 <= zlen c <= zlen [Byte.x41; Byte.x42; Byte.x43]
                        + zlen [Byte.x41; Byte.x42; Byte.x43] / 32 + 1
       /\ n = to_int (zlen c)
       /\ (zlen [Byte.x41; Byte.x42; Byte.x43]
           + zlen [Byte.x41; Byte.x42; Byte.x43] / 32 + 1 <= INT_MAX ->
           n = zlen c).
Proof.
  assert (H : 0 < zlen [Byte.x41; Byte.x42; Byte.x43] <= INT_MAX)
    by (unfold INT_MAX; vm_compute; split; [reflexivity | discriminate]).
  split; [exact H|].
  exact (compressed_size_tight [Byte.x41; Byte.x42; Byte.x43] [] H).
Defined.

(** X7. A stream of a single byte is always rejected: whatever the byte and
    the capacity, [lz77_decompress] with [length = 1] returns 0 and writes
    nothing. *)
Theorem decompress_single_byte_fails (buf : list byte) (max_out : Z) :
  lz77_decompress buf 1 max_out = Fail [].
Proof.
  unfold lz77_decompress.
  change (1 <=? 0) with false. change (1 >=? 2) with false. cbv iota.
  rewrite in_read_ok by lia.
  pose proof (byte_range (byte_at buf 0)) as Hb.
  destruct (ctrl_fields _ Hb) as (_ & -> & _).
  change (Z.to_nat 1) with 1%nat. cbn [decompress_loop].
  unfold decompress_body. cbv zeta.
  set (c := byte.unsigned (byte_at buf 0) mod 32).
  assert (Hc : 0 <= c < 32) by (subst c; lia).
  replace (c >=? 32) with false by lia.
  replace ((zlen (@nil byte) + (c + 1) >? max_out) || (1 + (c + 1) >? 1))
    with true by lia.
  reflexivity.
Qed.

(** ** The decoder reads the declared input only *)

Section DeclaredInput.
Variables (buf1 buf2 : list byte) (length ip_bound max_out : Z).
Hypothesis Hsame :
  forall i, 0 <= i < length -> byte_at buf1 i = byte_at buf2 i.

Lemma in_read_same (ip : Z) :
  in_read buf1 length ip = in_read buf2 length ip.
Proof.
  unfold in_read. destruct ((0 <=? ip) && (ip <? length)) eqn:E;
    [|reflexivity].
  f_equal. apply Hsame. lia.
Qed.

Lemma in_copy_same (ip n : Z) (op : list byte) :
  in_copy buf1 length max_out ip n op = in_copy buf2 length max_out ip n op.
Proof.
  unfold in_copy.
  destruct ((0 <=? ip) && (ip + n <=? length) && (zlen op + n <=? max_out))
    eqn:E; [|reflexivity].
  do 2 f_equal. apply bytes_at_eq. intros j Hj. apply Hsame. lia.
Qed.

Lemma next_ctrl_same (loop1 loop2 : Z -> Z -> list byte -> dresult)
    (ip : Z) (op : list byte) :
  (forall ip c op, loop1 ip c op = loop2 ip c op) ->
  next_ctrl loop1 buf1 length ip_bound ip op
  = next_ctrl loop2 buf2 length ip_bound ip op.
Proof.
  intros Hloop. unfold next_ctrl. rewrite in_read_same.
  destruct (ip >? ip_bound); [reflexivity|].
  destruct (in_read buf2 length ip); [apply Hloop | reflexivity].
Qed.

Lemma match_tail_same (next1 next2 : Z -> list byte -> dresult)
    (len ref ip : Z) (op : list byte) :
  (forall ip op, next1 ip op = next2 ip op) ->
  match_tail next1 buf1 length max_out len ref ip op
  = match_tail next2 buf2 length max_out len ref ip op.
Proof.
  intros Hnext. unfold match_tail. rewrite in_read_same.
  destruct (in_read buf2 length ip) as [b|]; [|reflexivity].
  cbv zeta. destruct (_ || _); [reflexivity|].
  destruct (copy_loop _ _ _ _ _ _); try reflexivity. apply Hnext.
Qed.

Lemma decompress_body_same (loop1 loop2 : Z -> Z -> list byte -> dresult)
    (ip ctrl : Z) (op : list byte) :
  (forall ip c op, loop1 ip c op = loop2 ip c op) ->
  decompress_body loop1 buf1 length ip_bound max_out ip ctrl op
  = decompress_body loop2 buf2 length ip_bound max_out ip ctrl op.
Proof.
  intros Hloop. unfold decompress_body. cbv zeta.
  assert (Hnext : forall ip op,
             next_ctrl loop1 buf1 length ip_bound ip op
             = next_ctrl loop2 buf2 length ip_bound ip op)
    by (intros; now apply next_ctrl_same).
  destruct (ctrl >=? 32).
  - destruct (_ && _); [reflexivity|].
    destruct (_ =? 6).
    + rewrite in_read_same.
      destruct (in_read buf2 length ip); [|reflexivity].
      now apply match_tail_same.
    + now apply match_tail_same.
  - destruct (_ || _); [reflexivity|].
    rewrite in_copy_same.
    destruct (in_copy buf2 length max_out ip (ctrl + 1) op);
      [apply Hnext | reflexivity].
Qed.

Lemma decompress_loop_same (fuel : nat) :
  forall ip ctrl op,
    decompress_loop fuel buf1 length ip_bound max_out ip ctrl op
    = decompress_loop fuel buf2 length ip_bound max_out ip ctrl op.
Proof.
  induction fuel as [|fuel IH]; intros ip ctrl op; cbn [decompress_loop];
    [reflexivity|].
  now apply decompress_body_same.
Qed.
End DeclaredInput.

(** X8. The outcome of [lz77_decompress] depends on the first [length]
    bytes of the input buffer only: two buffers that agree there give the
    same return value and the same output, so the bytes at or after the
    declared length never influence a run. *)
Theorem decompress_declared_bytes_only
    (buf1 buf2 : list byte) (length max_out : Z) :
  (forall i, 0 <= i < length -> byte_at buf1 i = byte_at buf2 i) ->
  lz77_decompress buf1 length max_out = lz77_decompress buf2 length max_out.
Proof.
  intros Hsame. unfold lz77_decompress.
  destruct (length <=? 0) eqn:E; [reflexivity|].
  rewrite (in_read_same buf1 buf2 length Hsame).
  destruct (in_read buf2 length 0); [|reflexivity].
  now apply decompress_loop_same.
Qed.

Lemma decompress_declared_bytes_only_witness :
  (forall i, 0 <= i < 2 ->
             byte_at [Byte.x00; Byte.x41] i
             = byte_at [Byte.x00; Byte.x41; Byte.xff] i)
  /\ lz77_decompress [Byte.x00; Byte.x41] 2 4
     = lz77_decompress [Byte.x00; Byte.x41; Byte.xff] 2 4.
Proof.
  assert (H : forall i, 0 <= i < 2 ->
                byte_at [Byte.x00; Byte.x41] i
                = byte_at [Byte.x00; Byte.x41; Byte.xff] i).
  { intros i Hi. assert (i = 0 \/ i = 1) as [-> | ->] by lia; reflexivity. }
  split; [exact H|].
  exact (decompress_declared_bytes_only _ _ 2 4 H).
Defined.

(** ** The decoder expands by a bounded factor *)

Section Expansion.
Variables (buf : list byte) (length ip_bound max_out : Z).

(** a turn entered at [ip] (its control byte read at [ip - 1]) produces at
    most 88 bytes per input byte left *)
Definition expands_88 (loop : Z -> Z -> list byte -> dresult) : Prop :=
  forall (ip c : Z) (op w : list byte),
    0 <= c < 256 ->
    loop ip c op = Done w ->
    zlen w <= zlen op + 88 * (length - ip + 1).

Lemma next_ctrl_expands (loop : Z -> Z -> list byte -> dresult)
    (ip : Z) (op w : list byte) :
  expands_88 loop ->
  next_ctrl loop buf length ip_bound ip op = Done w ->
  ip <= length ->
  zlen w <= zlen op + 88 * (length - ip).
Proof.
  intros Hloop. unfold next_ctrl.
  destruct (ip >? ip_bound).
  - intros [= <-] Hip. lia.
  - destruct (in_read buf length ip) as [c|]; [|discriminate].
    intros H _. pose proof (Hloop _ _ _ _ (byte_range c) H). lia.
Qed.

Lemma match_tail_expands (loop : Z -> Z -> list byte -> dresult)
    (len ref ip : Z) (op w : list byte) :
  expands_88 loop -> 0 <= len -> ref < zlen op ->
  match_tail (next_ctrl loop buf length ip_bound) buf length max_out
    len ref ip op = Done w ->
  ip < length /\ zlen w <= zlen op + (len + 3) + 88 * (length - (ip + 1)).
Proof.
  intros Hloop Hlen Href. unfold match_tail, in_read.
  destruct ((0 <=? ip) && (ip <? length)) eqn:Ein; [|discriminate].
  pose proof (byte_range (byte_at buf ip)) as Hb.
  set (ref' := ref - byte.unsigned (byte_at buf ip)).
  destruct ((zlen op + (len + 3) >? max_out) || (ref' <? 0)) eqn:Eg;
    [discriminate|].
  rewrite copy_loop_correct by (subst ref'; lia).
  intros H. apply next_ctrl_expands in H; [|assumption|lia].
  rewrite zlen_lz_copy in H. lia.
Qed.

Lemma decompress_body_expands (loop : Z -> Z -> list byte -> dresult) :
  expands_88 loop ->
  expands_88 (decompress_body loop buf length ip_bound max_out).
Proof.
  intros Hloop ip ctrl op w Hctrl. unfold decompress_body. cbv zeta.
  destruct (ctrl_fields ctrl Hctrl) as (E1 & E2 & E3). rewrite E1, E3.
  destruct (ctrl >=? 32) eqn:Ec.
  - destruct ((ctrl / 32 - 1 =? 6) && (ip >? ip_bound)); [discriminate|].
    destruct (ctrl / 32 - 1 =? 6) eqn:E6.
    + unfold in_read at 1.
      destruct ((0 <=? ip) && (ip <? length)) eqn:Ein; [|discriminate].
      pose proof (byte_range (byte_at buf ip)) as Hb.
      intros H. apply match_tail_expands in H; try assumption; lia.
    + intros H. apply match_tail_expands in H; try assumption; lia.
  - destruct ((zlen op + (ctrl + 1) >? max_out)
              || (ip + (ctrl + 1) >? length)) eqn:Eg; [discriminate|].
    unfold in_copy.
    destruct ((0 <=? ip) && (ip + (ctrl + 1) <=? length)
              && (zlen op + (ctrl + 1) <=? max_out)); [|discriminate].
    intros H. apply next_ctrl_expands in H; [|assumption|lia].
    rewrite zlen_app, zlen_bytes_at in H by lia. lia.
Qed.

Lemma decompress_loop_expands (fuel : nat) :
  expands_88 (decompress_loop fuel buf length ip_bound max_out).
Proof.
  induction fuel as [|fuel IH].
  - intros ip c op w _ [=].
  - cbn [decompress_loop]. now apply decompress_body_expands.
Qed.
End Expansion.

(** X9. Bounded expansion: a successful run of [lz77_decompress] on
    [length] input bytes returns at most [88 * length]; no stream, however
    crafted, decodes to more than 88 times its size (the best case of the
    format is a 3-byte token for 264 bytes). *)
Theorem decompress_expansion_bound
    (buf : list byte) (length max_out : Z) (w : list byte) :
  lz77_decompress buf length max_out = Done w ->
  retval (Done w) <= 88 * length.
Proof.
  unfold lz77_decompress. cbn [retval].
  destruct (length <=? 0); [discriminate|].
  destruct (in_read buf length 0) as [b|]; [|discriminate].
  intros H.
  assert (Hc : 0 <= Z.land (byte.unsigned b) 31 < 256).
  { destruct (ctrl_fields _ (byte_range b)) as (_ & -> & _).
    pose proof (byte_range b). lia. }
  pose proof (decompress_loop_expands buf length _ max_out _ _ _ _ _ Hc H)
    as Hx.
  rewrite zlen_nil in Hx. lia.
Qed.

Lemma decompress_expansion_bound_witness :
  lz77_decompress [Byte.x00; Byte.x41; Byte.xe0; Byte.xff; Byte.x00] 5 300
  = Done (repeat Byte.x41 265)
  /\ retval (Done (repeat Byte.x41 265)) <= 88 * 5.
Proof.
  assert (H : lz77_decompress
                [Byte.x00; Byte.x41; Byte.xe0; Byte.xff; Byte.x00] 5 300
              = Done (repeat Byte.x41 265)) by (vm_compute; reflexivity).
  split; [exact H|].
  exact (decompress_expansion_bound _ 5 300 _ H).
Defined.

(** ** Runs of one byte *)

Section Runs.
Variables (b : byte) (n : Z).
Hypothesis Hn : 17 <= n <= INT_MAX.

(** [n] copies of the byte [b] *)
Definition run : list byte := repeat b (Z.to_nat n).

Lemma byte_at_run (i : Z) : 0 <= i < n -> byte_at run i = b.
Proof.
  intros Hi. unfold byte_at, run.
  rewrite nth_indep with (d' := b) by (rewrite repeat_length; lia).
  apply nth_repeat.
Qed.

Lemma seq24_run (p : Z) :
  0 <= p -> p + 2 < n -> seq24 run p = seq24 run 0.
Proof.
  intros Hp Hlt. rewrite !seq24_bytes.
  rewrite !byte_at_run by lia. reflexivity.
Qed.

Lemma match_len_run (r p : Z) :
  0 <= r <= p -> p <= n -> match_len run r p n = n - p.
Proof.
  intros Hr Hp.
  pose proof (match_len_facts run r p n ltac:(lia) ltac:(lia)) as H.
  cbv zeta in H. destruct H as (H1 & _ & [H3 | H3]); [lia|].
  destruct (Z.eq_dec (p + match_len run r p n) n) as [E|E]; [lia|].
  exfalso. apply H3. rewrite !byte_at_run by lia. reflexivity.
Qed.

Lemma lazy_at_run (k : Z) (htab : list Z) :
  1 <= k <= 2 ->
  htab_get htab (lz77_hash (seq24 run 0)) = 2 ->
  lazy_at run n (n - MIN_INPUT_SIZE) 2 htab k (0, n - 4, 2, 0)
  = (0, n - 4, 2, 0).
Proof.
  unfold MIN_INPUT_SIZE, INT_MAX in *. intros Hk Hget. unfold lazy_at.
  destruct (2 + k <? n - 13) eqn:El; [|reflexivity]. cbv zeta.
  rewrite (seq24_run (2 + k)) by lia. rewrite Hget.
  rewrite u32_small by lia.
  rewrite (seq24_run 2) by lia. rewrite Z.eqb_refl.
  replace (2 + k - 2 <? MAX_DISTANCE) with true
    by (unfold MAX_DISTANCE; lia).
  cbn [andb]. unfold MIN_MATCH_LEN.
  rewrite match_len_run by lia.
  replace (n - (2 + k + 3) + 1 >? n - 4 + (if n - 4 <? 7 then 1 else 0))
    with false by (destruct (n - 4 <? 7); lia).
  reflexivity.
Qed.

Lemma literals_two (op : list byte) :
  literals 2 0 run op = op ++ [byte.of_Z 1; b; b].
Proof.
  unfold INT_MAX in *.
  unfold literals. change (Z.to_nat 2) with 2%nat. cbn [literals_loop].
  change (2 >=? MAX_COPY) with false. cbv iota.
  change (2 =? 0) with false. cbv iota.
  unfold bytes_at. change (Z.to_nat 2) with 2%nat. cbn [seq map].
  rewrite !byte_at_run by lia. reflexivity.
Qed.
End Runs.

(** X10. Runs of one byte: an input of [n >= 17] copies of a byte [b] is
    compressed to the literal run [b b] followed by the tokens of a single
    match of [n - 2] bytes at distance 2, that is 3 bytes plus 3 bytes per
    262 bytes of the run plus a last token of 2 or 3 bytes: at most
    [6 + 3 * (n / 262)] bytes in all. *)
Theorem compress_run_of_one_byte (b : byte) (n : Z) (workmem : list Z) :
  17 <= n <= INT_MAX ->
  exists workmem',
    let c := [byte.of_Z 1; b; b] ++ encode_tokens (match_tokens (n - 4) 2) in
    lz77_compress (run b n) n workmem = Some (zlen c, c, workmem')
    /\ zlen c = 3 + 3 * ((n - 5) / 262)
                + (if (n - 5) mod 262 + 1 <? 7 then 2 else 3)
    /\ zlen c <= 6 + 3 * (n / 262).
Proof.
  intros Hn. pose proof Hn as Hn'. unfold INT_MAX in Hn'.
  set (h := lz77_hash (seq24 (run b n) 0)).
  pose proof (lz77_hash_bound (seq24 (run b n) 0)) as Hh. fold h in Hh.
  unfold HASH_SIZE, HASH_LOG in Hh. change (Z.shiftl 1 13) with 8192 in Hh.
  set (htab1 := htab_set htab_zero h 2).
  assert (Hget1 : htab_get htab1 h = 2).
  { unfold htab1, htab_get, htab_set. rewrite u32_small by lia.
    apply nth_list_set_same. unfold htab_zero, HASH_SIZE, HASH_LOG.
    rewrite repeat_length. change (Z.shiftl 1 13) with 8192. lia. }
  assert (Hfc : forall fuel,
             find_candidate (S fuel) (run b n) (n - 13) 2 htab_zero
             = Some (3, 0, 2, htab1)).
  { intros fuel. cbn [find_candidate]. cbv zeta.
    rewrite (seq24_run b n Hn 2) by lia. fold h.
    assert (Hz : htab_get htab_zero h = 0).
    { unfold htab_get, htab_zero. apply nth_repeat. }
    rewrite Hz. change (u32 (2 - 0)) with 2.
    change (2 <? MAX_DISTANCE) with true. cbv iota.
    rewrite Z.eqb_refl. replace (2 >=? n - 13) with false by lia.
    reflexivity. }
  set (c := [byte.of_Z 1; b; b] ++ encode_tokens (match_tokens (n - 4) 2)).
  assert (Hes : exists htab2,
             emit_step (run b n) n (n - 13) 2 0 0 2 [] htab1 = (n, c, htab2)).
  { unfold emit_step. cbv zeta.
    change (2 >? 0) with true. cbv iota. change (2 - 0) with 2.
    rewrite (literals_two b n Hn). cbn [app].
    unfold MIN_MATCH_LEN.
    rewrite (match_len_run b n Hn) by lia.
    replace (n - (2 + 3) + 1) with (n - 4) by lia.
    pose proof (lazy_at_run b n Hn 1 htab1 ltac:(lia) Hget1) as L1.
    pose proof (lazy_at_run b n Hn 2 htab1 ltac:(lia) Hget1) as L2.
    unfold MIN_INPUT_SIZE in L1, L2.
    rewrite L1, L2. change (0 >? 0) with false. cbv iota.
    rewrite match_tokens_spec by (unfold MAX_DISTANCE; lia).
    unfold boundary_seed.
    replace (2 + (n - 4) + 4 <=? n) with false by lia. cbv zeta.
    replace (2 + (n - 4) <? n) with true by lia.
    replace (2 + (n - 4) + 1 <? n) with true by lia.
    eexists. unfold c. tuple_eq. }
  destruct Hes as [htab2 Hes].
  assert (Hrep : forall k, zlen (encode_tokens
                                   (repeat (TMatch (MAX_LEN - 2) 2) k))
                           = 3 * Z.of_nat k).
  { induction k as [|k IH]; [reflexivity|].
    cbn [repeat]. rewrite encode_tokens_cons, zlen_app, IH.
    rewrite zlen_encode_token. change (MAX_LEN - 2 <? 9) with false. lia. }
  assert (Hsize : zlen c = 3 + 3 * ((n - 5) / 262)
                           + (if (n - 5) mod 262 + 1 <? 7 then 2 else 3)).
  { unfold c, match_tokens. rewrite zlen_app, encode_tokens_app, zlen_app.
    rewrite Hrep, Z2Nat.id by lia.
    cbn [encode_tokens flat_map]. rewrite app_nil_r, zlen_encode_token.
    replace (n - 4 - 1) with (n - 5) by lia.
    replace ((n - 5) mod 262 + 1 + 2 <? 9)
      with ((n - 5) mod 262 + 1 <? 7) by lia.
    change (zlen [byte.of_Z 1; b; b]) with 3. lia. }
  exists htab2. cbv zeta. fold c.
  split; [|split].
  - unfold lz77_compress, MIN_INPUT_SIZE.
    replace (n <=? 0) with false by lia.
    replace (n <? 13) with false by lia.
    replace (Z.to_nat n) with (S (S (Z.to_nat (n - 2)))) by lia.
    cbn [compress_loop].
    replace (2 <? n - 13) with true by lia.
    rewrite Hfc. replace (3 >=? n - 13) with false by lia.
    change (3 - 1) with 2. rewrite Hes.
    replace (n <? n - 13) with false by lia.
    replace (n - n) with 0 by lia.
    assert (E0 : literals 0 n (run b n) c = c) by reflexivity.
    rewrite E0.
    rewrite to_int_small; [reflexivity|].
    rewrite Hsize. unfold INT_MAX. destruct (_ <? 7); lia.
  - exact Hsize.
  - rewrite Hsize. destruct (_ <? 7); lia.
Qed.

Lemma compress_run_of_one_byte_witness :
  17 <= 1000 <= INT_MAX
  /\ exists workmem',
       let c := [byte.of_Z 1; Byte.x41; Byte.x41]
                  ++ encode_tokens (match_tokens (1000 - 4) 2) in
       lz77_compress (run Byte.x41 1000) 1000 [] = Some (zlen c, c, workmem')
       /\ zlen c = 3 + 3 * ((1000 - 5) / 262)
                   + (if (1000 - 5) mod 262 + 1 <? 7 then 2 else 3)
       /\ zlen c <= 6 + 3 * (1000 / 262).
Proof.
  assert (H : 17 <= 1000 <= INT_MAX) by (unfold INT_MAX; lia).
  split; [exact H|].
  exact (compress_run_of_one_byte Byte.x41 1000 [] H).
Defined.

(** * The archive tool (tools/mzip.c): headers and checksum *)

Module Mzip.

Definition BLOCK_SIZE : Z := 2 * 64 * 1024.
Definition MAX_COMPRESSED_CHUNK : Z := 8 * 1024 * 1024.
Definition MAX_DECOMPRESSED_CHUNK : Z := 16 * 1024 * 1024.
Definition MZIP_MAGIC_SIZE : Z := 8.
Definition MZIP_CHUNK_HEADER_SIZE : Z := 16.
Definition MZIP_FILEINFO_CHUNK_ID : Z := 1.
Definition MZIP_DATA_CHUNK_ID : Z := 17.
Definition MZIP_FILEINFO_FIXED_SIZE : Z := 10.
Definition ADLER32_BASE : Z := 65521.

(** ['$', 'm', 'z', 'i', 'p', '$', '$', '$'] *)
Definition mzip_magic : list byte :=
  [Byte.x24; Byte.x6d; Byte.x7a; Byte.x69; Byte.x70; Byte.x24; Byte.x24;
   Byte.x24].

(** the 16 bytes [write_chunk_header] hands to [fwrite] *)
Definition chunk_header (id options size checksum extra : Z) : list byte :=
  [byte.of_Z (Z.land id 255);
   byte.of_Z (Z.shiftr id 8);
   byte.of_Z (Z.land options 255);
   byte.of_Z (Z.shiftr options 8);
   byte.of_Z (Z.land size 255);
   byte.of_Z (Z.land (Z.shiftr size 8) 255);
   byte.of_Z (Z.land (Z.shiftr size 16) 255);
   byte.of_Z (Z.land (Z.shiftr size 24) 255);
   byte.of_Z (Z.land checksum 255);
   byte.of_Z (Z.land (Z.shiftr checksum 8) 255);
   byte.of_Z (Z.land (Z.shiftr checksum 16) 255);
   byte.of_Z (Z.land (Z.shiftr checksum 24) 255);
   byte.of_Z (Z.land extra 255);
   byte.of_Z (Z.land (Z.shiftr extra 8) 255);
   byte.of_Z (Z.land (Z.shiftr extra 16) 255);
   byte.of_Z (Z.land (Z.shiftr extra 24) 255)].

(** a file open for writing is the list of bytes written so far *)
Definition write_chunk_header (file : list byte)
    (id options size checksum extra : Z) : list byte :=
  file ++ chunk_header id options size checksum extra.

Definition write_magic (file : list byte) : list byte := file ++ mzip_magic.

Definition read_u16 (buf : list byte) (p : Z) : Z :=
  Z.lor (byte.unsigned (byte_at buf p))
        (Z.shiftl (byte.unsigned (byte_at buf (p + 1))) 8) mod 2 ^ 16.

Definition read_u32 (buf : list byte) (p : Z) : Z :=
  u32 (Z.lor (Z.lor (Z.lor (byte.unsigned (byte_at buf p))
                           (Z.shiftl (byte.unsigned (byte_at buf (p + 1))) 8))
                    (Z.shiftl (byte.unsigned (byte_at buf (p + 2))) 16))
             (Z.shiftl (byte.unsigned (byte_at buf (p + 3))) 24)).

(** a file open for reading: its bytes and the file position *)
Record rfile : Type := { contents : list byte; pos : Z }.

(** [fread(buffer, 1, n, file)]: the bytes read (fewer than [n] at the end
    of the file) and the file afterwards *)
Definition fread (n : Z) (f : rfile) : list byte * rfile :=
  let avail := Z.max 0 (zlen (contents f) - pos f) in
  let k := Z.min n avail in
  (bytes_at (contents f) (pos f) k,
   {| contents := contents f; pos := pos f + k |}).

(** [fseek(file, p, SEEK_SET)] *)
Definition fseek_set (p : Z) (f : rfile) : rfile :=
  {| contents := contents f; pos := p |}.

(** the five fields, or [None] for the source's [return false], and the
    file afterwards *)
Definition read_chunk_header (f : rfile)
    : option (Z * Z * Z * Z * Z) * rfile :=
  let '(buffer, f) := fread MZIP_CHUNK_HEADER_SIZE f in
  if negb (zlen buffer =? MZIP_CHUNK_HEADER_SIZE) then (None, f)
  else
    (Some (read_u16 buffer 0, read_u16 buffer 2, read_u32 buffer 4,
           read_u32 buffer 8, read_u32 buffer 12), f).

(** [detect_magic]: the file position is 0 before and after *)
Definition detect_magic (f : rfile) : bool * rfile :=
  let f := fseek_set 0 f in
  let '(buffer, f) := fread MZIP_MAGIC_SIZE f in
  let f := fseek_set 0 f in
  if zlen buffer <? MZIP_MAGIC_SIZE then (false, f)
  else
    (forallb (fun c => Byte.eqb (byte_at buffer (Z.of_nat c))
                                (byte_at mzip_magic (Z.of_nat c)))
             (seq 0 (Z.to_nat MZIP_MAGIC_SIZE)), f).

(** the inner [while (k--) s2 += (s1 += *ptr++);] *)
Fixpoint adler_sum (k : nat) (buf : list byte) (ptr s1 s2 : Z)
    : Z * Z * Z :=
  match k with
  | O => (ptr, s1, s2)
  | S k' =>
      let s1 := u32 (s1 + byte.unsigned (byte_at buf ptr)) in
      let s2 := u32 (s2 + s1) in
      adler_sum k' buf (ptr + 1) s1 s2
  end.

(** the outer [while (len > 0)] *)
Fixpoint adler_chunks (fuel : nat) (buf : list byte) (ptr len s1 s2 : Z)
    : Z * Z :=
  match fuel with
  | O => (s1, s2)
  | S fuel' =>
      if len >? 0 then
        let k := if len <? 5552 then len else 5552 in
        let len := len - k in
        let '(ptr, s1, s2) := adler_sum (Z.to_nat k) buf ptr s1 s2 in
        let s1 := s1 mod ADLER32_BASE in
        let s2 := s2 mod ADLER32_BASE in
        adler_chunks fuel' buf ptr len s1 s2
      else (s1, s2)
  end.

Definition update_adler32 (checksum : Z) (buf : list byte) (len : Z) : Z :=
  let s1 := Z.land checksum 0xffff in
  let s2 := Z.land (Z.shiftr checksum 16) 0xffff in
  let '(s1, s2) := adler_chunks (Z.to_nat len) buf 0 len s1 s2 in
  u32 (Z.lor (Z.shiftl s2 16) s1).

End Mzip.

(** ** Chunk headers *)

(** [x | (y << k)] when [x] fits in the [k] low bits *)
Lemma lor_shiftl_add (x y k : Z) :
  0 <= k -> 0 <= x < 2 ^ k -> Z.lor x (Z.shiftl y k) = x + y * 2 ^ k.
Proof.
  intros Hk Hx. rewrite Z.shiftl_mul_pow2 by lia.
  assert (Hland : Z.land x (y * 2 ^ k) = 0).
  { apply Z.bits_inj'. intros n Hn. rewrite Z.land_spec, Z.bits_0.
    destruct (Z.lt_ge_cases n k) as [Hlt|Hge].
    - rewrite Z.mul_pow2_bits_low by lia. apply andb_false_r.
    - replace (Z.testbit x n) with false; [reflexivity|].
      symmetry. apply Z.testbit_false; [lia|].
      rewrite Z.div_small; [reflexivity|].
      split; [lia|]. apply Z.lt_le_trans with (m := 2 ^ k); [lia|].
      apply Z.pow_le_mono_r; lia. }
  rewrite <- Z.lxor_lor by assumption.
  now rewrite <- Z.add_nocarry_lxor by assumption.
Qed.

Lemma unsigned_byte_field (v k : Z) :
  0 <= k ->
  byte.unsigned (byte.of_Z (Z.land (Z.shiftr v k) 255)) = (v / 2 ^ k) mod 256.
Proof.
  intros Hk. change 255 with (Z.ones 8).
  rewrite Z.land_ones, Z.shiftr_div_pow2 by lia. change (2 ^ 8) with 256.
  apply unsigned_of_Z_small. apply Z.mod_pos_bound. lia.
Qed.

Lemma unsigned_low_byte (v : Z) :
  byte.unsigned (byte.of_Z (Z.land v 255)) = v mod 256.
Proof.
  change 255 with (Z.ones 8). rewrite Z.land_ones by lia.
  change (2 ^ 8) with 256.
  apply unsigned_of_Z_small. apply Z.mod_pos_bound. lia.
Qed.

Lemma read_u32_le (buf : list byte) (p : Z) :
  Mzip.read_u32 buf p
  = byte.unsigned (byte_at buf p)
    + byte.unsigned (byte_at buf (p + 1)) * 2 ^ 8
    + byte.unsigned (byte_at buf (p + 2)) * 2 ^ 16
    + byte.unsigned (byte_at buf (p + 3)) * 2 ^ 24.
Proof.
  unfold Mzip.read_u32.
  pose proof (byte_range (byte_at buf p)) as H0.
  pose proof (byte_range (byte_at buf (p + 1))) as H1.
  pose proof (byte_range (byte_at buf (p + 2))) as H2.
  pose proof (byte_range (byte_at buf (p + 3))) as H3.
  rewrite (lor_shiftl_add _ _ 8) by lia.
  rewrite (lor_shiftl_add _ _ 16) by lia.
  rewrite (lor_shiftl_add _ _ 24) by lia.
  apply u32_small. lia.
Qed.

Lemma read_u16_le (buf : list byte) (p : Z) :
  Mzip.read_u16 buf p
  = byte.unsigned (byte_at buf p)
    + byte.unsigned (byte_at buf (p + 1)) * 2 ^ 8.
Proof.
  unfold Mzip.read_u16.
  pose proof (byte_range (byte_at buf p)) as H0.
  pose proof (byte_range (byte_at buf (p + 1))) as H1.
  rewrite (lor_shiftl_add _ _ 8) by lia.
  apply Z.mod_small. lia.
Qed.

Lemma fread_available (f : Mzip.rfile) (n : Z) :
  0 <= n -> 0 <= Mzip.pos f -> Mzip.pos f + n <= zlen (Mzip.contents f) ->
  Mzip.fread n f
  = (bytes_at (Mzip.contents f) (Mzip.pos f) n,
     {| Mzip.contents := Mzip.contents f; Mzip.pos := Mzip.pos f + n |}).
Proof.
  intros Hn Hp Hle. unfold Mzip.fread. cbv zeta.
  replace (Z.min n (Z.max 0 (zlen (Mzip.contents f) - Mzip.pos f)))
    with n by lia.
  reflexivity.
Qed.

(** reading back a header that [write_chunk_header] wrote *)
Lemma read_written_header (pre rest : list byte)
    (id options size checksum extra : Z) :
  0 <= id < 2 ^ 16 -> 0 <= options < 2 ^ 16 ->
  0 <= size < 2 ^ 32 -> 0 <= checksum < 2 ^ 32 -> 0 <= extra < 2 ^ 32 ->
  Mzip.read_chunk_header
    {| Mzip.contents :=
         pre ++ Mzip.chunk_header id options size checksum extra ++ rest;
       Mzip.pos := zlen pre |}
  = (Some (id, options, size, checksum, extra),
     {| Mzip.contents :=
          pre ++ Mzip.chunk_header id options size checksum extra ++ rest;
        Mzip.pos := zlen pre + 16 |}).
Proof.
  intros Hid Hopt Hsize Hsum Hextra.
  unfold Mzip.read_chunk_header, Mzip.MZIP_CHUNK_HEADER_SIZE.
  set (hdr := Mzip.chunk_header id options size checksum extra).
  assert (Hlen : zlen hdr = 16) by reflexivity.
  rewrite fread_available; cbn [Mzip.contents Mzip.pos];
    [| lia | apply zlen_nonneg
     | rewrite !zlen_app; pose proof (zlen_nonneg rest); lia].
  replace (bytes_at (pre ++ hdr ++ rest) (zlen pre) 16) with hdr.
  2:{ rewrite <- (Z.add_0_r (zlen pre)).
      rewrite bytes_at_pre by lia. rewrite <- Hlen.
      now rewrite bytes_at_prefix. }
  rewrite Hlen. cbn [Z.eqb Pos.eqb negb].
  rewrite !read_u16_le, !read_u32_le.
  unfold hdr, Mzip.chunk_header.
  repeat match goal with
         | |- context [byte_at ?l ?k] =>
             let v := eval cbv [byte_at Z.to_nat Pos.to_nat Pos.iter_op
                                Nat.add nth Z.add Pos.add Pos.succ]
                        in (byte_at l k) in
             change (byte_at l k) with v
         end.
  rewrite !unsigned_byte_field by lia.
  rewrite !unsigned_low_byte.
  assert (H16 : forall v, 0 <= v < 2 ^ 16 ->
             byte.unsigned (byte.of_Z (Z.shiftr v 8)) = v / 256).
  { intros v Hv. rewrite Z.shiftr_div_pow2 by lia.
    change (2 ^ 8) with 256. apply unsigned_of_Z_small.
    change (2 ^ 16) with 65536 in Hv. lia. }
  rewrite !H16 by assumption.
  change (2 ^ 8) with 256. change (2 ^ 16) with 65536 in *.
  change (2 ^ 24) with 16777216. change (2 ^ 32) with 4294967296 in *.
  do 2 f_equal. tuple_eq.
Qed.

(** X11. Chunk headers: the 16 bytes written by [write_chunk_header] for
    16-bit [id] and [options] and 32-bit [size], [checksum] and [extra] are
    read back by [read_chunk_header] as the same five values, the file
    position moving on by 16; with fewer than 16 bytes left in the file
    [read_chunk_header] fails. *)
Theorem chunk_header_roundtrip
    (pre rest : list byte) (id options size checksum extra : Z) :
  0 <= id < 2 ^ 16 -> 0 <= options < 2 ^ 16 ->
  0 <= size < 2 ^ 32 -> 0 <= checksum < 2 ^ 32 -> 0 <= extra < 2 ^ 32 ->
  let file := Mzip.write_chunk_header pre id options size checksum extra
              ++ rest in
  Mzip.read_chunk_header {| Mzip.contents := file; Mzip.pos := zlen pre |}
  = (Some (id, options, size, checksum, extra),
     {| Mzip.contents := file; Mzip.pos := zlen pre + 16 |})
  /\ forall f,
       0 <= Mzip.pos f -> zlen (Mzip.contents f) - Mzip.pos f < 16 ->
       fst (Mzip.read_chunk_header f) = None.
Proof.
  intros Hid Hopt Hsize Hsum Hextra file. split.
  - unfold file, Mzip.write_chunk_header. rewrite <- app_assoc.
    now apply read_written_header.
  - intros f Hp Hshort. unfold Mzip.read_chunk_header, Mzip.fread.
    cbv zeta. unfold Mzip.MZIP_CHUNK_HEADER_SIZE.
    set (k := Z.min 16 (Z.max 0 (zlen (Mzip.contents f) - Mzip.pos f))).
    assert (Hk : 0 <= k < 16) by (subst k; lia).
    rewrite zlen_bytes_at by lia.
    replace (k =? 16) with false by lia. reflexivity.
Qed.

Lemma chunk_header_roundtrip_witness :
  0 <= 17 < 2 ^ 16 /\ 0 <= 1 < 2 ^ 16 /\ 0 <= 70000 < 2 ^ 32
  /\ 0 <= 4275878552 < 2 ^ 32 /\ 0 <= 131072 < 2 ^ 32
  /\ Mzip.read_chunk_header
       {| Mzip.contents :=
            Mzip.write_chunk_header Mzip.mzip_magic 17 1 70000 4275878552
              131072 ++ [];
          Mzip.pos := zlen Mzip.mzip_magic |}
     = (Some (17, 1, 70000, 4275878552, 131072),
        {| Mzip.contents :=
             Mzip.write_chunk_header Mzip.mzip_magic 17 1 70000 4275878552
               131072 ++ [];
           Mzip.pos := zlen Mzip.mzip_magic + 16 |}).
Proof.
  assert (H1 : 0 <= 17 < 2 ^ 16) by lia.
  assert (H2 : 0 <= 1 < 2 ^ 16) by lia.
  assert (H3 : 0 <= 70000 < 2 ^ 32) by lia.
  assert (H4 : 0 <= 4275878552 < 2 ^ 32) by lia.
  assert (H5 : 0 <= 131072 < 2 ^ 32) by lia.
  repeat (split; [assumption|]).
  exact (proj1 (chunk_header_roundtrip Mzip.mzip_magic [] 17 1 70000
                  4275878552 131072 H1 H2 H3 H4 H5)).
Defined.

(** ** The Adler-32 checksum *)

(** RFC 1950, section 8.2, read literally: both sums are reduced modulo
    65521 after every byte *)
Fixpoint adler32_rfc (bs : list byte) (a b : Z) : Z * Z :=
  match bs with
  | [] => (a, b)
  | x :: bs' =>
      let a' := (a + byte.unsigned x) mod Mzip.ADLER32_BASE in
      adler32_rfc bs' a' ((b + a') mod Mzip.ADLER32_BASE)
  end.

(** the two sums over the integers, never reduced *)
Fixpoint adler_raw (bs : list byte) (a b : Z) : Z * Z :=
  match bs with
  | [] => (a, b)
  | x :: bs' =>
      adler_raw bs' (a + byte.unsigned x) (b + (a + byte.unsigned x))
  end.

Lemma bytes_at_succ (buf : list byte) (p : Z) (k : nat) :
  bytes_at buf p (Z.of_nat (S k))
  = byte_at buf p :: bytes_at buf (p + 1) (Z.of_nat k).
Proof.
  replace (Z.of_nat (S k)) with (1 + Z.of_nat k) by lia.
  rewrite bytes_at_split by lia. now rewrite bytes_at_one.
Qed.

(** the inner loop never wraps around while the bounds below hold, which
    they do for chunks of at most 5552 bytes *)
Lemma adler_sum_raw (k : nat) : forall (buf : list byte) (ptr a b : Z),
  0 <= a -> 0 <= b ->
  a + 255 * Z.of_nat k < 2 ^ 32 ->
  2 * b + 2 * Z.of_nat k * a + 255 * Z.of_nat k * (Z.of_nat k + 1)
    < 2 * 2 ^ 32 ->
  Mzip.adler_sum k buf ptr a b
  = (ptr + Z.of_nat k,
     fst (adler_raw (bytes_at buf ptr (Z.of_nat k)) a b),
     snd (adler_raw (bytes_at buf ptr (Z.of_nat k)) a b)).
Proof.
  induction k as [|k IH]; intros buf ptr a b Ha Hb Hs1 Hs2.
  - cbn [Mzip.adler_sum]. change (Z.of_nat 0) with 0.
    rewrite bytes_at_0, Z.add_0_r. reflexivity.
  - cbn [Mzip.adler_sum]. cbv zeta.
    pose proof (byte_range (byte_at buf ptr)) as Hx.
    set (x := byte.unsigned (byte_at buf ptr)) in *.
    assert (Hk : Z.of_nat (S k) = Z.of_nat k + 1) by lia.
    rewrite Hk in Hs1, Hs2.
    assert (Hk0 : 0 <= Z.of_nat k) by lia.
    set (n := Z.of_nat k) in *.
    assert (Hb' : b + (a + x) < 2 ^ 32) by nia.
    rewrite (u32_small (a + x)) by lia.
    rewrite (u32_small (b + (a + x))) by lia.
    rewrite IH; [| lia | lia | fold n; lia | fold n; nia].
    fold n. rewrite bytes_at_succ. fold n. fold x. cbn [adler_raw].
    tuple_eq.
Qed.

Lemma adler32_rfc_mod (bs : list byte) : forall a b,
  adler32_rfc bs (a mod Mzip.ADLER32_BASE) (b mod Mzip.ADLER32_BASE)
  = (fst (adler_raw bs a b) mod Mzip.ADLER32_BASE,
     snd (adler_raw bs a b) mod Mzip.ADLER32_BASE).
Proof.
  induction bs as [|x bs IH]; intros a b; [reflexivity|].
  cbn [adler32_rfc adler_raw]. cbv zeta.
  rewrite <- IH. unfold Mzip.ADLER32_BASE. f_equal.
  - rewrite Zplus_mod_idemp_l. reflexivity.
  - rewrite Zplus_mod_idemp_l. rewrite Zplus_mod_idemp_l.
    rewrite Zplus_mod_idemp_r. reflexivity.
Qed.

Lemma adler32_rfc_raw (bs : list byte) (a b : Z) :
  bs <> [] ->
  adler32_rfc bs a b
  = (fst (adler_raw bs a b) mod Mzip.ADLER32_BASE,
     snd (adler_raw bs a b) mod Mzip.ADLER32_BASE).
Proof.
  destruct bs as [|x bs]; [congruence|]. intros _.
  cbn [adler32_rfc adler_raw]. cbv zeta.
  rewrite <- adler32_rfc_mod. unfold Mzip.ADLER32_BASE.
  now rewrite Zplus_mod_idemp_r.
Qed.

Lemma adler32_rfc_app (bs1 : list byte) : forall bs2 a b,
  adler32_rfc (bs1 ++ bs2) a b
  = adler32_rfc bs2 (fst (adler32_rfc bs1 a b)) (snd (adler32_rfc bs1 a b)).
Proof.
  induction bs1 as [|x bs1 IH]; intros bs2 a b; [reflexivity|].
  cbn [app adler32_rfc]. cbv zeta. apply IH.
Qed.

Lemma adler32_rfc_range (bs : list byte) : forall a b,
  bs <> [] ->
  0 <= fst (adler32_rfc bs a b) < Mzip.ADLER32_BASE
  /\ 0 <= snd (adler32_rfc bs a b) < Mzip.ADLER32_BASE.
Proof.
  intros a b Hne. rewrite adler32_rfc_raw by assumption.
  cbn [fst snd]. unfold Mzip.ADLER32_BASE. lia.
Qed.

(** the outer loop computes the RFC's sums *)
Lemma adler_chunks_rfc (fuel : nat) : forall (buf : list byte) (ptr len a b : Z),
  0 <= len <= Z.of_nat fuel ->
  0 <= a < 2 ^ 16 -> 0 <= b < 2 ^ 16 ->
  Mzip.adler_chunks fuel buf ptr len a b
  = adler32_rfc (bytes_at buf ptr len) a b.
Proof.
  induction fuel as [|fuel IH]; intros buf ptr len a b Hlen Ha Hb.
  - replace len with 0 by lia. reflexivity.
  - cbn [Mzip.adler_chunks].
    destruct (len >? 0) eqn:E; [| replace len with 0 by lia; reflexivity].
    cbv zeta.
    set (k := if len <? 5552 then len else 5552).
    assert (Hk : 0 < k <= 5552 /\ k <= len) by (subst k; destruct (len <? 5552) eqn:E'; lia).
    clearbody k.
    assert (Hka : k * a <= 5552 * 65535)
      by (apply Z.mul_le_mono_nonneg; lia).
    assert (Hkk : k * (k + 1) <= 5552 * 5553)
      by (apply Z.mul_le_mono_nonneg; lia).
    rewrite adler_sum_raw; rewrite ?Z2Nat.id by lia; [| lia | lia | lia | lia].
    assert (Hne : bytes_at buf ptr k <> []).
    { intros Hnil. apply (f_equal zlen) in Hnil.
      rewrite zlen_bytes_at, zlen_nil in Hnil; lia. }
    rewrite IH; [| lia | unfold Mzip.ADLER32_BASE; lia
                 | unfold Mzip.ADLER32_BASE; lia].
    replace len with (k + (len - k)) at 2 by lia.
    rewrite bytes_at_split by lia.
    rewrite adler32_rfc_app. rewrite (adler32_rfc_raw _ a b Hne).
    reflexivity.
Qed.

Lemma update_adler32_spec (checksum : Z) (buf : list byte) (len : Z) :
  0 <= checksum < 2 ^ 32 -> 0 <= len ->
  Mzip.update_adler32 checksum buf len
  = snd (adler32_rfc (bytes_at buf 0 len) (checksum mod 2 ^ 16)
           (checksum / 2 ^ 16)) * 2 ^ 16
    + fst (adler32_rfc (bytes_at buf 0 len) (checksum mod 2 ^ 16)
             (checksum / 2 ^ 16)).
Proof.
  intros Hc Hlen. unfold Mzip.update_adler32. cbv zeta.
  change 0xffff with (Z.ones 16). rewrite !Z.land_ones by lia.
  rewrite Z.shiftr_div_pow2 by lia.
  rewrite (Z.mod_small (checksum / 2 ^ 16)) by lia.
  rewrite adler_chunks_rfc by lia.
  set (r := adler32_rfc _ _ _).
  assert (Hr : 0 <= fst r < 2 ^ 16 /\ 0 <= snd r < 2 ^ 16).
  { destruct (Z.eq_dec len 0) as [->|Hnz].
    - subst r. rewrite bytes_at_0. cbn [adler32_rfc fst snd]. lia.
    - assert (Hne : bytes_at buf 0 len <> []).
      { intros Hnil. apply (f_equal zlen) in Hnil.
        rewrite zlen_bytes_at, zlen_nil in Hnil; lia. }
      pose proof (adler32_rfc_range _ (checksum mod 2 ^ 16)
                    (checksum / 2 ^ 16) Hne) as H.
      fold r in H. unfold Mzip.ADLER32_BASE in H. lia. }
  destruct r as [s1 s2]. cbn [fst snd] in *.
  rewrite Z.lor_comm. rewrite lor_shiftl_add by lia.
  rewrite u32_small by lia. lia.
Qed.

(** X12. [update_adler32] computes the Adler-32 of RFC 1950: for every
    32-bit starting checksum and every buffer, the deferred reductions
    (one per chunk of at most 5552 bytes) never let the 32-bit sums wrap
    around, so the result is [s2 * 65536 + s1] for the sums [s1], [s2]
    that the RFC reduces modulo 65521 after every byte, started from the
    two halves of [checksum]; when at least one byte is summed both halves
    of the result are below 65521. *)
Theorem update_adler32_rfc1950 (checksum : Z) (buf : list byte) (len : Z) :
  0 <= checksum < 2 ^ 32 -> 0 <= len <= zlen buf ->
  let s := adler32_rfc (bytes_at buf 0 len) (checksum mod 2 ^ 16)
             (checksum / 2 ^ 16) in
  Mzip.update_adler32 checksum buf len = snd s * 2 ^ 16 + fst s
  /\ (0 < len ->
      0 <= fst s < Mzip.ADLER32_BASE /\ 0 <= snd s < Mzip.ADLER32_BASE).
Proof.
  intros Hc Hlen s. split.
  - subst s. apply update_adler32_spec; lia.
  - intros Hpos. subst s. apply adler32_rfc_range.
    intros Hnil. apply (f_equal zlen) in Hnil.
    rewrite zlen_bytes_at, zlen_nil in Hnil; lia.
Qed.

Lemma update_adler32_rfc1950_witness :
  0 <= 1 < 2 ^ 32
  /\ 0 <= 9 <= zlen [Byte.x57; Byte.x69; Byte.x6b; Byte.x69; Byte.x70;
                     Byte.x65; Byte.x64; Byte.x69; Byte.x61]
  /\ Mzip.update_adler32 1
       [Byte.x57; Byte.x69; Byte.x6b; Byte.x69; Byte.x70; Byte.x65;
        Byte.x64; Byte.x69; Byte.x61] 9
     = 0x11E6 * 2 ^ 16 + 0x0398.
Proof.
  assert (H1 : 0 <= 1 < 2 ^ 32) by lia.
  assert (H2 : 0 <= 9 <= zlen [Byte.x57; Byte.x69; Byte.x6b; Byte.x69;
                               Byte.x70; Byte.x65; Byte.x64; Byte.x69;
                               Byte.x61]) by (vm_compute; split; discriminate).
  split; [exact H1|]. split; [exact H2|].
  exact (proj1 (update_adler32_rfc1950 1 _ 9 H1 H2)).
Defined.

Lemma update_adler32_range (checksum : Z) (buf : list byte) (len : Z) :
  0 <= Mzip.update_adler32 checksum buf len < 2 ^ 32.
Proof.
  unfold Mzip.update_adler32. cbv zeta.
  destruct (Mzip.adler_chunks _ _ _ _ _ _) as [s1 s2].
  unfold u32. apply Z.mod_pos_bound. lia.
Qed.

(** bytes past [len] do not count *)
Lemma update_adler32_prefix (checksum : Z) (buf rest : list byte) :
  0 <= checksum < 2 ^ 32 ->
  Mzip.update_adler32 checksum (buf ++ rest) (zlen buf)
  = Mzip.update_adler32 checksum buf (zlen buf).
Proof.
  intros Hc. pose proof (zlen_nonneg buf) as Hb.
  rewrite !update_adler32_spec by lia.
  rewrite bytes_at_app_l by lia. reflexivity.
Qed.

Lemma update_adler32_concat (checksum : Z) (a b : list byte) :
  0 <= checksum < 2 ^ 32 ->
  Mzip.update_adler32 (Mzip.update_adler32 checksum a (zlen a)) b (zlen b)
  = Mzip.update_adler32 checksum (a ++ b) (zlen a + zlen b).
Proof.
  intros Hc.
  pose proof (zlen_nonneg a) as Ha. pose proof (zlen_nonneg b) as Hb.
  rewrite (update_adler32_spec checksum a) by lia.
  rewrite bytes_at_all.
  set (r := adler32_rfc a (checksum mod 2 ^ 16) (checksum / 2 ^ 16)).
  assert (Hr : 0 <= fst r < 2 ^ 16 /\ 0 <= snd r < 2 ^ 16).
  { destruct a as [|x a'].
    - subst r. cbn [adler32_rfc fst snd]. lia.
    - pose proof (adler32_rfc_range (x :: a') (checksum mod 2 ^ 16)
                    (checksum / 2 ^ 16) ltac:(discriminate)) as H.
      fold r in H. unfold Mzip.ADLER32_BASE in H. lia. }
  rewrite (update_adler32_spec _ b) by lia.
  rewrite (update_adler32_spec checksum (a ++ b)) by lia.
  rewrite bytes_at_all. rewrite <- zlen_app, bytes_at_all.
  rewrite adler32_rfc_app. fold r.
  replace ((snd r * 2 ^ 16 + fst r) mod 2 ^ 16) with (fst r) by lia.
  replace ((snd r * 2 ^ 16 + fst r) / 2 ^ 16) with (snd r) by lia.
  reflexivity.
Qed.

(** X13. The checksum can be computed piecewise: updating a 32-bit checksum
    with a buffer [a] and then with a buffer [b] gives what one update with
    the concatenation [a ++ b] gives, as [pack_file_compressed] (two
    updates) and [unpack_file] (one update) rely on for the file
    information chunk. *)
Theorem update_adler32_app (checksum : Z) (a b : list byte) :
  0 <= checksum < 2 ^ 32 ->
  Mzip.update_adler32 (Mzip.update_adler32 checksum a (zlen a)) b (zlen b)
  = Mzip.update_adler32 checksum (a ++ b) (zlen a + zlen b).
Proof.
  intros Hc. exact (update_adler32_concat checksum a b Hc).
Qed.

Lemma update_adler32_app_witness :
  0 <= 1 < 2 ^ 32
  /\ Mzip.update_adler32
       (Mzip.update_adler32 1 [Byte.x57; Byte.x69; Byte.x6b; Byte.x69] 4)
       [Byte.x70; Byte.x65; Byte.x64; Byte.x69; Byte.x61] 5
     = Mzip.update_adler32 1
         ([Byte.x57; Byte.x69; Byte.x6b; Byte.x69]
          ++ [Byte.x70; Byte.x65; Byte.x64; Byte.x69; Byte.x61]) (4 + 5).
Proof.
  assert (H1 : 0 <= 1 < 2 ^ 32) by lia.
  split; [exact H1|].
  exact (update_adler32_app 1 [Byte.x57; Byte.x69; Byte.x6b; Byte.x69]
           [Byte.x70; Byte.x65; Byte.x64; Byte.x69; Byte.x61] H1).
Defined.

(** ** File names accepted by the extractor *)

Module SafeName.

Definition NUL : byte := Byte.x00.
Definition DEL : byte := Byte.x7f.
Definition dot : byte := Byte.x2e.
Definition slash : byte := Byte.x2f.
Definition backslash : byte := Byte.x5c.

(** A [const char *] is the memory from the pointer on; the C string it
    holds is made of the bytes before the first NUL. *)
Fixpoint cstring (s : list byte) : list byte :=
  match s with
  | [] => []
  | c :: s' => if Byte.eqb c NUL then [] else c :: cstring s'
  end.

Definition strlen (s : list byte) : Z := zlen (cstring s).

Fixpoint bytes_eqb (a b : list byte) : bool :=
  match a, b with
  | [], [] => true
  | x :: a', y :: b' => Byte.eqb x y && bytes_eqb a' b'
  | _, _ => false
  end.

(** [!strcmp(s, lit)] for a literal [lit] *)
Definition strcmp_eq (s lit : list byte) : bool := bytes_eqb (cstring s) lit.

(** the loop [for (p = filename; *p; p++)]: [true] when it runs to the
    terminating NUL, [false] for its [return false] *)
Fixpoint safe_chars (p : list byte) : bool :=
  match p with
  | [] => true
  | c :: p' =>
      if Byte.eqb c NUL then true
      else if (byte.unsigned c <? 32) || Byte.eqb c DEL then false
      else if Byte.eqb c dot && Byte.eqb (byte_at p' 0) dot then false
      else if Byte.eqb c slash || Byte.eqb c backslash then false
      else safe_chars p'
  end.

(** [None] is the NULL pointer *)
Definition is_safe_filename (filename : option (list byte)) : bool :=
  match filename with
  | None => false
  | Some s =>
      if Byte.eqb (byte_at s 0) NUL then false
      else
        let len := strlen s in
        if (len =? 0) || (len >? 255) then false
        else if Byte.eqb (byte_at s 0) slash
                || Byte.eqb (byte_at s 0) backslash then false
        else if negb (safe_chars s) then false
        else if strcmp_eq s [dot] || strcmp_eq s [dot; dot] then false
        else true
  end.

End SafeName.

Lemma byte_eqb_eq (x y : byte) : Byte.eqb x y = true <-> x = y.
Proof.
  split; [apply Byte.byte_dec_bl | apply Byte.byte_dec_lb].
Qed.

Lemma byte_eqb_neq (x y : byte) : Byte.eqb x y = false <-> x <> y.
Proof.
  rewrite <- byte_eqb_eq. destruct (Byte.eqb x y); split; congruence.
Qed.

Lemma bytes_eqb_eq (a : list byte) : forall b,
  SafeName.bytes_eqb a b = true <-> a = b.
Proof.
  induction a as [|x a IH]; intros [|y b]; cbn [SafeName.bytes_eqb];
    try (split; congruence).
  rewrite andb_true_iff, byte_eqb_eq, IH. split.
  - intros [-> ->]. reflexivity.
  - intros H. injection H as -> ->. split; reflexivity.
Qed.

Lemma cstring_terminated (name rest : list byte) :
  ~ In SafeName.NUL name ->
  SafeName.cstring (name ++ SafeName.NUL :: rest) = name.
Proof.
  induction name as [|c name IH]; intros Hnul.
  - reflexivity.
  - cbn [app SafeName.cstring].
    replace (Byte.eqb c SafeName.NUL) with false.
    + f_equal. apply IH. intros H. apply Hnul. now right.
    + symmetry. apply byte_eqb_neq. intros ->. apply Hnul. now left.
Qed.

(** an allowed character: not a control character, DEL or a separator *)
Definition safe_char (c : byte) : Prop :=
  32 <= byte.unsigned c /\ c <> SafeName.DEL
  /\ c <> SafeName.slash /\ c <> SafeName.backslash.

(** [name] has two dots in a row somewhere *)
Definition has_dotdot (name : list byte) : Prop :=
  exists pre post, name = pre ++ SafeName.dot :: SafeName.dot :: post.

Lemma has_dotdot_cons (c : byte) (name : list byte) :
  has_dotdot (c :: name)
  <-> (c = SafeName.dot /\ byte_at name 0 = SafeName.dot) \/ has_dotdot name.
Proof.
  split.
  - intros (pre & post & H). destruct pre as [|x pre].
    + left. cbn [app] in H. injection H as -> ->. split; reflexivity.
    + right. cbn [app] in H. injection H as -> ->. now exists pre, post.
  - intros [[-> H] | (pre & post & ->)].
    + destruct name as [|d name]; [discriminate H|].
      change (byte_at (d :: name) 0) with d in H. subst d.
      now exists [], name.
    + now exists (c :: pre), post.
Qed.

Lemma safe_chars_spec (name rest : list byte) :
  ~ In SafeName.NUL name ->
  SafeName.safe_chars (name ++ SafeName.NUL :: rest) = true
  <-> Forall safe_char name /\ ~ has_dotdot name.
Proof.
  induction name as [|c name IH]; intros Hnul.
  - cbn. split; [|reflexivity]. intros _. split; [constructor|].
    intros (pre & post & H). destruct pre; discriminate H.
  - assert (Hc : c <> SafeName.NUL) by (intros ->; apply Hnul; now left).
    assert (Hname : ~ In SafeName.NUL name)
      by (intros H; apply Hnul; now right).
    specialize (IH Hname).
    cbn [app SafeName.safe_chars].
    assert (Hhd : Byte.eqb (byte_at (name ++ SafeName.NUL :: rest) 0)
                    SafeName.dot = true
                  <-> byte_at name 0 = SafeName.dot).
    { rewrite byte_eqb_eq. destruct name; [|reflexivity].
      split; discriminate. }
    rewrite has_dotdot_cons, Forall_cons_iff. unfold safe_char at 1.
    apply byte_eqb_neq in Hc. rewrite Hc.
    destruct ((byte.unsigned c <? 32) || Byte.eqb c SafeName.DEL) eqn:E1.
    { apply orb_true_iff in E1. rewrite byte_eqb_eq in E1.
      split; [discriminate|]. intros [[(H32 & Hdel & _) _] _].
      destruct E1 as [E1|E1]; [lia | contradiction]. }
    apply orb_false_iff in E1. rewrite byte_eqb_neq in E1.
    destruct (Byte.eqb c SafeName.dot
              && Byte.eqb (byte_at (name ++ SafeName.NUL :: rest) 0)
                   SafeName.dot) eqn:E2.
    { apply andb_true_iff in E2. rewrite byte_eqb_eq, Hhd in E2.
      split; [discriminate|]. intros [_ H]. exfalso. apply H. now left. }
    destruct (Byte.eqb c SafeName.slash || Byte.eqb c SafeName.backslash)
      eqn:E3.
    { apply orb_true_iff in E3. rewrite !byte_eqb_eq in E3.
      split; [discriminate|]. intros [[(_ & _ & Hs & Hb) _] _].
      destruct E3; contradiction. }
    apply orb_false_iff in E3. rewrite !byte_eqb_neq in E3.
    rewrite IH. split.
    + intros [Hall Hdd]. split; [split; [|assumption]|].
      * repeat split; try tauto. lia.
      * intros [[-> Hd] | H]; [|contradiction].
        apply Hhd in Hd. rewrite Hd in E2. discriminate E2.
    + intros [[_ Hall] Hdd]. split; [assumption|]. tauto.
Qed.

Lemma is_safe_filename_iff (name rest : list byte) :
  ~ In SafeName.NUL name ->
  SafeName.is_safe_filename (Some (name ++ SafeName.NUL :: rest)) = true
  <-> 0 < zlen name <= 255
      /\ Forall safe_char name
      /\ ~ has_dotdot name
      /\ name <> [SafeName.dot].
Proof.
  intros Hnul. unfold SafeName.is_safe_filename, SafeName.strlen,
    SafeName.strcmp_eq. cbv zeta.
  rewrite (cstring_terminated name rest Hnul).
  pose proof (safe_chars_spec name rest Hnul) as Hloop.
  destruct name as [|c name].
  { cbn. split; [discriminate|]. intros [H _]. change (zlen (@nil byte)) with 0 in H. lia. }
  assert (Hc : c <> SafeName.NUL) by (intros ->; apply Hnul; now left).
  change (byte_at ((c :: name) ++ SafeName.NUL :: rest) 0) with c.
  apply byte_eqb_neq in Hc. rewrite Hc.
  pose proof (zlen_nonneg name) as Hlen. rewrite zlen_cons.
  replace (zlen name + 1 =? 0) with false by lia. cbn [orb].
  destruct (zlen name + 1 >? 255) eqn:E255.
  { split; [discriminate|]. intros [H _]. lia. }
  destruct (Byte.eqb c SafeName.slash || Byte.eqb c SafeName.backslash)
    eqn:E3.
  { apply orb_true_iff in E3. rewrite !byte_eqb_eq in E3.
    split; [discriminate|]. intros (_ & Hall & _).
    apply Forall_cons_iff in Hall. destruct Hall as [(_ & _ & Hs & Hb) _].
    destruct E3; contradiction. }
  destruct (SafeName.safe_chars ((c :: name) ++ SafeName.NUL :: rest))
    eqn:Esafe; cbn [negb].
  2:{ split; [discriminate|]. intros (_ & Hall & Hdd & _).
      assert (H : false = true) by (apply Hloop; now split).
      discriminate H. }
  destruct (proj1 Hloop eq_refl) as [Hall Hdd].
  destruct (SafeName.bytes_eqb (c :: name) [SafeName.dot]) eqn:E1; cbn [orb].
  { apply bytes_eqb_eq in E1. split; [discriminate|].
    intros (_ & _ & _ & H). contradiction. }
  destruct (SafeName.bytes_eqb (c :: name) [SafeName.dot; SafeName.dot])
    eqn:E2.
  { apply bytes_eqb_eq in E2. exfalso. apply Hdd. rewrite E2.
    now exists [], []. }
  split; [|reflexivity]. intros _.
  repeat split; try assumption; try lia.
  intros H. apply bytes_eqb_eq in H. congruence.
Qed.

(** X14. File names: for a NUL-terminated name, [is_safe_filename] answers
    [true] exactly when the name has between 1 and 255 characters, none of
    them a control character (below 32), DEL, [/] or [\], has no two dots
    in a row, and is not the single dot. *)
Theorem is_safe_filename_spec (name rest : list byte) :
  ~ In SafeName.NUL name ->
  SafeName.is_safe_filename (Some (name ++ SafeName.NUL :: rest)) = true
  <-> 0 < zlen name <= 255
      /\ Forall safe_char name
      /\ ~ has_dotdot name
      /\ name <> [SafeName.dot].
Proof.
  intros Hnul. exact (is_safe_filename_iff name rest Hnul).
Qed.

(** a NUL-free name at the head of its buffer: [a.txt] *)
Lemma is_safe_filename_spec_witness :
  ~ In SafeName.NUL [Byte.x61; Byte.x2e; Byte.x74; Byte.x78; Byte.x74]
  /\ (SafeName.is_safe_filename
        (Some ([Byte.x61; Byte.x2e; Byte.x74; Byte.x78; Byte.x74]
               ++ SafeName.NUL :: [])) = true
      <-> 0 < zlen [Byte.x61; Byte.x2e; Byte.x74; Byte.x78; Byte.x74] <= 255
          /\ Forall safe_char
               [Byte.x61; Byte.x2e; Byte.x74; Byte.x78; Byte.x74]
          /\ ~ has_dotdot [Byte.x61; Byte.x2e; Byte.x74; Byte.x78; Byte.x74]
          /\ [Byte.x61; Byte.x2e; Byte.x74; Byte.x78; Byte.x74]
             <> [SafeName.dot]).
Proof.
  assert (H : ~ In SafeName.NUL
                [Byte.x61; Byte.x2e; Byte.x74; Byte.x78; Byte.x74]).
  { cbn [In]. unfold SafeName.NUL. intuition discriminate. }
  split; [exact H|].
  exact (is_safe_filename_spec _ [] H).
Defined.

(** ** The archive signature *)

Lemma detect_magic_iff (f : Mzip.rfile) :
  (fst (Mzip.detect_magic f) = true
   <-> exists rest, Mzip.contents f = Mzip.write_magic [] ++ rest)
  /\ snd (Mzip.detect_magic f)
     = {| Mzip.contents := Mzip.contents f; Mzip.pos := 0 |}.
Proof.
  unfold Mzip.detect_magic, Mzip.fseek_set, Mzip.fread,
    Mzip.MZIP_MAGIC_SIZE, Mzip.write_magic.
  cbn [Mzip.contents Mzip.pos app]. cbv zeta.
  set (c := Mzip.contents f).
  pose proof (zlen_nonneg c) as Hc.
  rewrite Z.sub_0_r.
  set (k := Z.min 8 (Z.max 0 (zlen c))).
  rewrite zlen_bytes_at by lia.
  destruct (k <? 8) eqn:Ek; cbn [fst snd].
  - split; [|reflexivity]. split; [discriminate|].
    intros (rest & Hrest). exfalso.
    assert (H : zlen c = 8 + zlen rest)
      by (rewrite Hrest, zlen_app; reflexivity).
    pose proof (zlen_nonneg rest). lia.
  - split; [|reflexivity].
    assert (Hk : k = 8) by lia.
    assert (Hlen : 8 <= zlen c) by lia.
    rewrite Hk. clear Ek Hk k.
    assert (Hsplit : c = bytes_at c 0 8 ++ bytes_at c 8 (zlen c - 8)).
    { transitivity (bytes_at c 0 (8 + (zlen c - 8))).
      - replace (8 + (zlen c - 8)) with (zlen c) by lia.
        symmetry. apply bytes_at_all.
      - apply (bytes_at_split c 0 8 (zlen c - 8)); lia. }
    rewrite forallb_forall. split.
    + intros Hall. exists (bytes_at c 8 (zlen c - 8)).
      rewrite Hsplit at 1. f_equal. apply bytes_ext.
      * rewrite zlen_bytes_at by lia. reflexivity.
      * rewrite zlen_bytes_at by lia. intros i Hi.
        specialize (Hall (Z.to_nat i)). rewrite Z2Nat.id in Hall by lia.
        apply byte_eqb_eq, Hall, in_seq.
        change (Z.to_nat 8) with 8%nat. lia.
    + intros (rest & Hrest) i Hi. apply in_seq in Hi.
      change (Z.to_nat 8) with 8%nat in Hi.
      apply byte_eqb_eq. rewrite byte_at_bytes_at by lia.
      rewrite Hrest. rewrite byte_at_app_l; [reflexivity|].
      change (zlen Mzip.mzip_magic) with 8. lia.
Qed.

(** X15. [detect_magic] answers [true] exactly for the files that begin
    with the eight signature bytes that [write_magic] writes, whatever the
    file position was, and always leaves the file position at 0. *)
Theorem detect_magic_spec (f : Mzip.rfile) :
  (fst (Mzip.detect_magic f) = true
   <-> exists rest, Mzip.contents f = Mzip.write_magic [] ++ rest)
  /\ snd (Mzip.detect_magic f)
     = {| Mzip.contents := Mzip.contents f; Mzip.pos := 0 |}.
Proof. exact (detect_magic_iff f). Qed.

(** ** Blocks inside a larger buffer *)

(** [lz77_compress] on the first [length] bytes of a buffer: the tokens it
    writes reproduce exactly those bytes *)
Lemma lz77_compress_block_tokens (buf : list byte) (length : Z)
    (workmem : list Z) :
  0 < length <= INT_MAX ->
  exists ts htab' bs ts',
    lz77_compress buf length workmem
    = Some (to_int (zlen (encode_tokens ts)), encode_tokens ts, htab')
    /\ tiles buf 0 ts length
    /\ zlen (encode_tokens ts) <= length + length / 32 + 1
    /\ ts = TLit bs :: ts'.
Proof.
  intros HL. unfold lz77_compress, MIN_INPUT_SIZE.
  replace (length <=? 0) with false by lia.
  destruct (length <? 13) eqn:E13.
  - rewrite literals_tokens by lia. cbn [app].
    destruct (lit_tokens_head buf 0 length ltac:(lia)) as [ts' Hts'].
    exists (lit_tokens buf 0 length), workmem,
      (bytes_at buf 0 (Z.min length 32)), ts'.
    split; [reflexivity|]. split; [|split].
    + pose proof (tiles_lit_tokens buf 0 length ltac:(lia)) as H.
      now rewrite Z.add_0_l in H.
    + rewrite zlen_encode_lit_tokens by lia. lia.
    + exact Hts'.
  - destruct (compress_loop_spec buf length (length - 13) eq_refl
                ltac:(lia) (Z.to_nat length) 2 0 [] htab_zero)
      as (anchor' & htab' & ts & Hcl & Ht & Hr & Hz & Hh); try lia.
    { apply htab_zero_ok. lia. }
    rewrite Hcl. cbn [app].
    pose proof (tiles_le _ _ _ _ Ht) as Hle.
    rewrite literals_tokens by lia.
    rewrite <- encode_tokens_app.
    set (tail := lit_tokens buf anchor' (length - anchor')).
    assert (Htail : tiles buf anchor' tail length).
    { pose proof (tiles_lit_tokens buf anchor' (length - anchor')
                    ltac:(lia)) as H.
      now replace (anchor' + (length - anchor')) with length in H by lia. }
    assert (Hsize : zlen (encode_tokens (ts ++ tail))
                    <= length + length / 32 + 1).
    { rewrite encode_tokens_app, zlen_app. subst tail.
      rewrite zlen_encode_lit_tokens by lia. lia. }
    destruct (Hh ltac:(lia)) as [-> | (n & ts' & Hn & ->)].
    + cbn [tiles] in Ht. subst anchor'. cbn [app] in *.
      destruct (lit_tokens_head buf 0 (length - 0) ltac:(lia))
        as [ts' Hts'].
      exists tail, htab', (bytes_at buf 0 (Z.min (length - 0) 32)), ts'.
      split; [reflexivity|]. split; [|split]; assumption.
    + exists ((TLit (bytes_at buf 0 n) :: ts') ++ tail), htab',
             (bytes_at buf 0 n), (ts' ++ tail).
      split; [reflexivity|]. split; [|split];
        try assumption; try reflexivity.
      now apply tiles_app with (b := anchor').
Qed.

Lemma lz77_compress_block (buf : list byte) (length : Z)
    (workmem : list Z) :
  0 < length <= INT_MAX ->
  exists c workmem',
    lz77_compress buf length workmem = Some (to_int (zlen c), c, workmem')
    /\ 2 <= zlen c <= length + length / 32 + 1
    /\ forall max_out, length <= max_out ->
         lz77_decompress c (zlen c) max_out = Done (bytes_at buf 0 length).
Proof.
  intros HL.
  destruct (lz77_compress_block_tokens buf length workmem HL)
    as (ts & htab' & bs & ts' & Hc & Ht & Hz & Hts).
  exists (encode_tokens ts), htab'.
  split; [exact Hc|]. split.
  - split; [|exact Hz].
    pose proof (tiles_encoded_length _ _ _ _ Ht) as Hlen.
    subst ts. cbn [List.length] in Hlen. lia.
  - intros max_out Hcap. subst ts.
    exact (decompress_tiles buf max_out length bs ts' Ht Hcap).
Qed.

(** X16. [lz77_compress] encodes the first [length] bytes of its input
    buffer, whatever follows them in the buffer: it writes between 2 and
    [length + length / 32 + 1] bytes and returns their number converted to
    [int]; when that number fits an [int] it is the value returned, and the
    bytes written are decompressed, with any capacity of at least [length],
    to exactly those [length] bytes. *)
Theorem compress_prefix_roundtrip (buf : list byte) (length : Z)
    (workmem : list Z) (max_out : Z) :
  0 < length <= zlen buf -> length <= INT_MAX -> length <= max_out ->
  exists n c workmem',
    lz77_compress buf length workmem = Some (n, c, workmem')
    /\ 2 <= zlen c <= length + length / 32 + 1
    /\ n = to_int (zlen c)
    /\ (zlen c <= INT_MAX ->
        n = zlen c
        /\ lz77_decompress c n max_out = Done (bytes_at buf 0 length)).
Proof.
  intros HL Hmax Hcap.
  destruct (lz77_compress_block buf length workmem ltac:(lia))
    as (c & workmem' & Hc & Hn & Hd).
  exists (to_int (zlen c)), c, workmem'.
  split; [exact Hc|]. split; [exact Hn|]. split; [reflexivity|].
  intros Hfits. rewrite to_int_small by lia.
  split; [reflexivity|]. apply Hd. exact Hcap.
Qed.

Lemma compress_prefix_roundtrip_witness :
  0 < 20 <= zlen sample /\ 20 <= INT_MAX /\ 20 <= 20
  /\ exists n c workmem',
       lz77_compress sample 20 [] = Some (n, c, workmem')
       /\ 2 <= zlen c <= 20 + 20 / 32 + 1
       /\ n = to_int (zlen c)
       /\ (zlen c <= INT_MAX ->
           n = zlen c
           /\ lz77_decompress c n 20 = Done (bytes_at sample 0 20)).
Proof.
  assert (H1 : 0 < 20 <= zlen sample)
    by (vm_compute; split; [reflexivity | discriminate]).
  assert (H2 : 20 <= INT_MAX) by (unfold INT_MAX; lia).
  assert (H3 : 20 <= 20) by lia.
  split; [exact H1|]. split; [exact H2|]. split; [exact H3|].
  exact (compress_prefix_roundtrip sample 20 [] 20 H1 H2 H3).
Defined.

(** * The archive tool (tools/mzip.c): packing and unpacking *)

(** Files are modelled by their contents: a file open for reading is an
    [Mzip.rfile], a file open for writing the list of bytes written so far,
    and the directory [unpack_file] writes into a list of names and
    contents.  Reads fail at the end of the file only, writes and
    allocations always succeed. *)

Module Archive.

Definition filesystem : Type := list (list byte * list byte).

Fixpoint fs_lookup (name : list byte) (fs : filesystem)
    : option (list byte) :=
  match fs with
  | [] => None
  | (n, c) :: fs' =>
      if SafeName.bytes_eqb n name then Some c else fs_lookup name fs'
  end.

(** [fwrite] to the open file called [name] *)
Fixpoint fs_append (name bytes : list byte) (fs : filesystem)
    : filesystem :=
  match fs with
  | [] => []
  | (n, c) :: fs' =>
      if SafeName.bytes_eqb n name then (n, c ++ bytes) :: fs'
      else (n, c) :: fs_append name bytes fs'
  end.

(** [slash ? slash + 1 : ifile] for [slash = strrchr(ifile, '/')], as the
    characters of a C string *)
Fixpoint after_last_slash (s shown : list byte) : list byte :=
  match s with
  | [] => shown
  | c :: s' =>
      if Byte.eqb c SafeName.slash then after_last_slash s' s'
      else after_last_slash s' shown
  end.

Definition shown_name (ifile : list byte) : list byte :=
  after_last_slash (SafeName.cstring ifile) (SafeName.cstring ifile).

(** the initialised part of [buffer] in [pack_file_compressed] *)
Definition fileinfo_fixed (file_size name_size : Z) : list byte :=
  [byte.of_Z (Z.land file_size 255);
   byte.of_Z (Z.land (Z.shiftr file_size 8) 255);
   byte.of_Z (Z.land (Z.shiftr file_size 16) 255);
   byte.of_Z (Z.land (Z.shiftr file_size 24) 255);
   byte.of_Z (Z.land (Z.shiftr file_size 32) 255);
   byte.of_Z (Z.land (Z.shiftr file_size 40) 255);
   byte.of_Z (Z.land (Z.shiftr file_size 48) 255);
   byte.of_Z (Z.land (Z.shiftr file_size 56) 255);
   byte.of_Z (Z.land name_size 255);
   byte.of_Z (Z.shiftr name_size 8)].

(** the [while (1)] of [pack_file_compressed]: [false] for its
    [return -1], with the bytes written to [ofile] and [total_read];
    [fread] overwrites the head of [buffer] only *)
Fixpoint pack_blocks (fuel : nat) (in_file : Mzip.rfile)
    (buffer : list byte) (workmem : list Z) (ofile : list byte)
    (total_read : Z) : option (bool * list byte * Z) :=
  match fuel with
  | O => None
  | S fuel' =>
      let '(got, in_file) := Mzip.fread Mzip.BLOCK_SIZE in_file in
      let bytes_read := zlen got in
      let buffer :=
        got ++ bytes_at buffer bytes_read (Mzip.BLOCK_SIZE - bytes_read) in
      let total_read := total_read + bytes_read in
      if bytes_read =? 0 then Some (true, ofile, total_read)
      else
        match lz77_compress buffer bytes_read workmem with
        | None => None
        | Some (chunk_size, result, workmem) =>
            if (chunk_size <=? 0) || (chunk_size >? Mzip.BLOCK_SIZE * 2)
            then Some (false, ofile, total_read)
            else
              let checksum := Mzip.update_adler32 1 result chunk_size in
              let ofile :=
                Mzip.write_chunk_header ofile 17 1 (u32 chunk_size) checksum
                  (u32 bytes_read) in
              let ofile := ofile ++ bytes_at result 0 chunk_size in
              pack_blocks fuel' in_file buffer workmem ofile total_read
        end
  end.

(** [pack_file_compressed(ifile, ofile)] for an input file that opens and
    holds [data]: the return value and the bytes of [ofile]; [None] only if
    a loop ran out of fuel *)
Definition pack_file_compressed (ifile data : list byte)
    (workmem : list Z) (ofile : list byte) : option (Z * list byte) :=
  let in_file := {| Mzip.contents := data; Mzip.pos := 0 |} in
  let file_size := zlen data in
  let '(magic, in_file) := Mzip.detect_magic in_file in
  if magic then Some (-1, ofile)
  else
    let name := shown_name ifile in
    let name_size := zlen name + 1 in
    let buffer :=
      fileinfo_fixed file_size name_size
      ++ repeat Byte.x00 (Z.to_nat (Mzip.BLOCK_SIZE - 10)) in
    let checksum := Mzip.update_adler32 1 buffer 10 in
    let checksum :=
      Mzip.update_adler32 checksum (name ++ [SafeName.NUL]) name_size in
    let ofile :=
      Mzip.write_chunk_header ofile 1 0 (u32 (10 + name_size)) checksum 0 in
    let ofile := ofile ++ bytes_at buffer 0 10 in
    let ofile := ofile ++ bytes_at (name ++ [SafeName.NUL]) 0 name_size in
    match pack_blocks (S (Z.to_nat file_size)) in_file buffer workmem ofile 0
    with
    | None => None
    | Some (ok, ofile, total_read) =>
        if negb ok then Some (-1, ofile)
        else if negb (total_read =? file_size) then Some (-1, ofile)
        else Some (0, ofile)
    end.

(** [pack_file(ifile, ofile)] when [ofile] does not exist yet and can be
    created *)
Definition pack_file (ifile data : list byte) (workmem : list Z)
    : option (Z * list byte) :=
  pack_file_compressed ifile data workmem (Mzip.write_magic []).

(** the variables of [unpack_file] that live across chunks; [out] is the
    name of the file being written, the compressed buffer is allocated
    exactly when [compressed_bufsize] is not 0 *)
Record ustate : Type := {
  in_file : Mzip.rfile;
  files : filesystem;
  out : option (list byte);
  decompressed_size : Z;
  compressed_bufsize : Z;
  decompressed_bufsize : Z
}.

(** one step of [unpack_file]: [Undefined] is a step the model gives no
    meaning to (a decoder access out of bounds), [Cleanup] the source's
    [goto cleanup] with status -1 *)
Inductive step : Type :=
| Undefined
| Cleanup
| Next (st : ustate).

(** the file information chunk *)
Definition fileinfo_chunk (chunk_size chunk_checksum : Z) (st : ustate)
    : step :=
  let '(buffer, f) := Mzip.fread chunk_size (in_file st) in
  if negb (zlen buffer =? chunk_size) then Cleanup
  else
    let checksum := Mzip.update_adler32 1 buffer chunk_size in
    if negb (checksum =? chunk_checksum) then Cleanup
    else
      let decompressed_size := Mzip.read_u32 buffer 0 in
      let fname_len := Mzip.read_u16 buffer 8 in
      let fname_len :=
        if fname_len >? chunk_size - Mzip.MZIP_FILEINFO_FIXED_SIZE
        then chunk_size - 10 else fname_len in
      let ofile_name := bytes_at buffer 10 fname_len ++ [SafeName.NUL] in
      if negb (SafeName.is_safe_filename (Some ofile_name)) then Cleanup
      else
        let name := SafeName.cstring ofile_name in
        match fs_lookup name (files st) with
        | Some _ => Cleanup
        | None =>
            Next {| in_file := f;
                    files := (name, []) :: files st;
                    out := Some name;
                    decompressed_size := decompressed_size;
                    compressed_bufsize := compressed_bufsize st;
                    decompressed_bufsize := decompressed_bufsize st |}
        end.

(** a data chunk, with an output file open *)
Definition data_chunk (name : list byte)
    (chunk_size chunk_checksum chunk_extra : Z) (st : ustate) : step :=
  if chunk_size >? Mzip.MAX_COMPRESSED_CHUNK then Cleanup
  else if chunk_extra >? Mzip.MAX_DECOMPRESSED_CHUNK then Cleanup
  else
    let compressed_bufsize :=
      if chunk_size >? compressed_bufsize st then chunk_size
      else compressed_bufsize st in
    let decompressed_bufsize :=
      if chunk_extra >? decompressed_bufsize st then chunk_extra
      else decompressed_bufsize st in
    if compressed_bufsize =? 0 then Cleanup
    else
      let '(compressed_buffer, f) := Mzip.fread chunk_size (in_file st) in
      if negb (zlen compressed_buffer =? chunk_size) then Cleanup
      else
        let checksum := Mzip.update_adler32 1 compressed_buffer chunk_size in
        if negb (checksum =? chunk_checksum) then Cleanup
        else
          match lz77_decompress compressed_buffer chunk_size chunk_extra with
          | Fault | OutOfFuel => Undefined
          | r =>
              if negb (retval r =? chunk_extra) then Cleanup
              else
                Next {| in_file := f;
                        files :=
                          fs_append name
                            (bytes_at (written_bytes r) 0 chunk_extra)
                            (files st);
                        out := out st;
                        decompressed_size := decompressed_size st;
                        compressed_bufsize := compressed_bufsize;
                        decompressed_bufsize := decompressed_bufsize |}
          end.

(** the [while (1)] of [unpack_file]: the status and the directory
    afterwards *)
Fixpoint unpack_loop (fuel : nat) (fsize : Z) (st : ustate)
    : option (Z * filesystem) :=
  match fuel with
  | O => None
  | S fuel' =>
      let pos := Mzip.pos (in_file st) in
      if pos >=? fsize then Some (0, files st)
      else
        match Mzip.read_chunk_header (in_file st) with
        | (None, _) => Some (-1, files st)
        | (Some (chunk_id, chunk_options, chunk_size, chunk_checksum,
                 chunk_extra), f) =>
            let st :=
              {| in_file := f; files := files st; out := out st;
                 decompressed_size := decompressed_size st;
                 compressed_bufsize := compressed_bufsize st;
                 decompressed_bufsize := decompressed_bufsize st |} in
            let s1 :=
              if (chunk_id =? Mzip.MZIP_FILEINFO_CHUNK_ID)
                 && (chunk_size >? 10) && (chunk_size <? Mzip.BLOCK_SIZE)
              then fileinfo_chunk chunk_size chunk_checksum st
              else Next st in
            match s1 with
            | Undefined => None
            | Cleanup => Some (-1, files st)
            | Next st =>
                let s2 :=
                  match out st with
                  | Some name =>
                      if (chunk_id =? Mzip.MZIP_DATA_CHUNK_ID)
                         && negb (decompressed_size st =? 0)
                      then data_chunk name chunk_size chunk_checksum
                             chunk_extra st
                      else Next st
                  | None => Next st
                  end in
                match s2 with
                | Undefined => None
                | Cleanup => Some (-1, files st)
                | Next st =>
                    unpack_loop fuel' fsize
                      {| in_file :=
                           Mzip.fseek_set (pos + 16 + chunk_size)
                             (in_file st);
                         files := files st; out := out st;
                         decompressed_size := decompressed_size st;
                         compressed_bufsize := compressed_bufsize st;
                         decompressed_bufsize := decompressed_bufsize st |}
                end
            end
        end
  end.

(** [unpack_file(ifile)] for an archive that opens and holds [archive], in
    a directory holding [fs]: the return value and the directory
    afterwards; [None] if the run has no meaning in the model *)
Definition unpack_file (archive : list byte) (fs : filesystem)
    : option (Z * filesystem) :=
  let in_file := {| Mzip.contents := archive; Mzip.pos := 0 |} in
  let fsize := zlen archive in
  let '(magic, in_file) := Mzip.detect_magic in_file in
  if negb magic then Some (-1, fs)
  else
    let in_file := Mzip.fseek_set 8 in_file in
    unpack_loop (S (Z.to_nat fsize)) fsize
      {| in_file := in_file; files := fs; out := None;
         decompressed_size := 0; compressed_bufsize := 0;
         decompressed_bufsize := 0 |}.

End Archive.

(** ** Helper facts for the archive format *)

Lemma bytes_at_middle (a b c : list byte) (p n : Z) :
  p = zlen a -> n = zlen b -> bytes_at (a ++ b ++ c) p n = b.
Proof.
  intros -> ->. rewrite bytes_at_app_r by lia.
  rewrite Z.sub_diag. apply bytes_at_prefix.
Qed.

Lemma bytes_eqb_refl (a : list byte) : SafeName.bytes_eqb a a = true.
Proof. now apply bytes_eqb_eq. Qed.

Lemma fs_append_head (name w bytes : list byte) (fs : Archive.filesystem) :
  Archive.fs_append name bytes ((name, w) :: fs) = (name, w ++ bytes) :: fs.
Proof. cbn [Archive.fs_append]. now rewrite bytes_eqb_refl. Qed.

Ltac ustep :=
  cbn [Archive.unpack_loop Archive.in_file Archive.files Archive.out
       Archive.decompressed_size Archive.compressed_bufsize
       Archive.decompressed_bufsize Mzip.pos Mzip.contents].

(** one turn of [unpack_file] on a data chunk that decodes to [block] *)
Lemma unpack_data_step (fuel : nat) (fsize : Z)
    (pre c rest name w block : list byte) (fs0 : Archive.filesystem)
    (dsz cbs dbs : Z) :
  let k := zlen block in
  let archive :=
    pre ++ Mzip.chunk_header 17 1 (zlen c)
             (Mzip.update_adler32 1 c (zlen c)) k ++ c ++ rest in
  0 < zlen c <= Mzip.MAX_COMPRESSED_CHUNK ->
  k <= Mzip.MAX_DECOMPRESSED_CHUNK ->
  lz77_decompress c (zlen c) k = Done block ->
  dsz <> 0 -> zlen pre < fsize ->
  exists cbs' dbs',
    Archive.unpack_loop (S fuel) fsize
      {| Archive.in_file :=
           {| Mzip.contents := archive; Mzip.pos := zlen pre |};
         Archive.files := (name, w) :: fs0;
         Archive.out := Some name;
         Archive.decompressed_size := dsz;
         Archive.compressed_bufsize := cbs;
         Archive.decompressed_bufsize := dbs |}
    = Archive.unpack_loop fuel fsize
        {| Archive.in_file :=
             {| Mzip.contents := archive;
                Mzip.pos := zlen pre + 16 + zlen c |};
           Archive.files := (name, w ++ block) :: fs0;
           Archive.out := Some name;
           Archive.decompressed_size := dsz;
           Archive.compressed_bufsize := cbs';
           Archive.decompressed_bufsize := dbs' |}.
Proof.
  intros k archive Hc Hk Hd Hdsz Hpos.
  unfold Mzip.MAX_COMPRESSED_CHUNK, Mzip.MAX_DECOMPRESSED_CHUNK in *.
  pose proof (zlen_nonneg block) as Hb. fold k in Hb.
  pose proof (update_adler32_range 1 c (zlen c)) as Hsum.
  set (sum := Mzip.update_adler32 1 c (zlen c)) in *.
  eexists _, _. ustep.
  replace (zlen pre >=? fsize) with false by lia.
  unfold archive at 1.
  rewrite read_written_header by lia.
  ustep. unfold Mzip.MZIP_FILEINFO_CHUNK_ID, Mzip.MZIP_DATA_CHUNK_ID.
  change (17 =? 1) with false. cbn [andb].
  ustep. change (17 =? 17) with true.
  replace (dsz =? 0) with false by lia. cbn [andb negb].
  unfold Archive.data_chunk. ustep.
  unfold Mzip.MAX_COMPRESSED_CHUNK, Mzip.MAX_DECOMPRESSED_CHUNK.
  replace (zlen c >? 8 * 1024 * 1024) with false by lia.
  replace (k >? 16 * 1024 * 1024) with false by lia.
  cbv zeta.
  set (cbs' := if zlen c >? cbs then zlen c else cbs).
  set (dbs' := if k >? dbs then k else dbs).
  assert (Hcbs : cbs' <> 0) by (subst cbs'; destruct (zlen c >? cbs) eqn:E; lia).
  replace (cbs' =? 0) with false by lia.
  set (hdr := Mzip.chunk_header 17 1 (zlen c) sum k).
  assert (Hhdr : zlen hdr = 16) by reflexivity.
  rewrite fread_available; cbn [Mzip.contents Mzip.pos];
    [| lia | pose proof (zlen_nonneg pre); lia
     | rewrite !zlen_app, Hhdr; pose proof (zlen_nonneg rest); lia].
  replace (bytes_at (pre ++ hdr ++ c ++ rest) (zlen pre + 16) (zlen c))
    with c.
  2:{ symmetry. rewrite (app_assoc pre hdr).
      apply bytes_at_middle; [rewrite zlen_app; lia | reflexivity]. }
  replace (zlen c =? zlen c) with true by lia. cbn [negb].
  fold sum. replace (sum =? sum) with true by lia. cbn [negb].
  rewrite Hd. cbn [retval written_bytes]. fold k.
  replace (k =? k) with true by lia. cbn [negb].
  ustep. rewrite fs_append_head. unfold k at 1. rewrite bytes_at_all.
  unfold Mzip.fseek_set. cbn [Mzip.contents Mzip.pos].
  reflexivity.
Qed.

(** the data chunks that [pack_file_compressed] writes for the input from
    offset [p] on are unpacked to that part of the input *)
Lemma pack_unpack_blocks (data name : list byte)
    (fs0 : Archive.filesystem) (fuel : nat) :
  forall (p : Z) (buffer : list byte) (workmem : list Z)
         (ofile : list byte) (total : Z),
    0 <= p <= zlen data -> zlen data - p < Z.of_nat fuel ->
    exists tail,
      Archive.pack_blocks fuel {| Mzip.contents := data; Mzip.pos := p |}
        buffer workmem ofile total
      = Some (true, ofile ++ tail, total + (zlen data - p))
      /\ forall (pre : list byte) (fuel2 : nat) (w : list byte)
                (dsz cbs dbs : Z),
           (p < zlen data -> dsz <> 0) ->
           zlen tail < Z.of_nat fuel2 ->
           Archive.unpack_loop fuel2 (zlen pre + zlen tail)
             {| Archive.in_file :=
                  {| Mzip.contents := pre ++ tail; Mzip.pos := zlen pre |};
                Archive.files := (name, w) :: fs0;
                Archive.out := Some name;
                Archive.decompressed_size := dsz;
                Archive.compressed_bufsize := cbs;
                Archive.decompressed_bufsize := dbs |}
           = Some (0, (name, w ++ bytes_at data p (zlen data - p)) :: fs0).
Proof.
  induction fuel as [|fuel IH]; intros p buffer workmem ofile total Hp Hfuel;
    [lia|].
  cbn [Archive.pack_blocks]. unfold Mzip.fread.
  cbn [Mzip.contents Mzip.pos]. cbv zeta.
  set (k := Z.min Mzip.BLOCK_SIZE (Z.max 0 (zlen data - p))).
  assert (Hk : 0 <= k <= Mzip.BLOCK_SIZE /\ k <= zlen data - p
               /\ (k = 0 -> p = zlen data))
    by (subst k; unfold Mzip.BLOCK_SIZE; lia).
  rewrite zlen_bytes_at by lia.
  destruct (k =? 0) eqn:Ek.
  - exists []. rewrite app_nil_r. split.
    + f_equal. tuple_eq.
    + intros pre fuel2 w dsz cbs dbs _ Hf2.
      destruct fuel2 as [|fuel2]; [rewrite zlen_nil in Hf2; lia|].
      ustep. rewrite zlen_nil.
      replace (zlen pre >=? zlen pre + 0) with true by lia.
      replace (zlen data - p) with 0 by lia.
      rewrite bytes_at_0, app_nil_r. reflexivity.
  - set (got := bytes_at data p k).
    set (buffer' := got ++ bytes_at buffer k (Mzip.BLOCK_SIZE - k)).
    assert (Hgot : zlen got = k) by (subst got; apply zlen_bytes_at; lia).
    destruct (lz77_compress_block buffer' k workmem)
      as (c & workmem' & Hc & Hn & Hd).
    { unfold INT_MAX, Mzip.BLOCK_SIZE in *. lia. }
    rewrite Hc.
    assert (Hblock : bytes_at buffer' 0 k = got).
    { unfold buffer'. rewrite bytes_at_app_l by lia.
      rewrite <- Hgot. apply bytes_at_all. }
    rewrite Hblock in Hd.
    assert (Hsmall : zlen c <= Mzip.BLOCK_SIZE * 2)
      by (unfold Mzip.BLOCK_SIZE in *; lia).
    rewrite (to_int_small (zlen c))
      by (unfold INT_MAX, Mzip.BLOCK_SIZE in *; lia).
    replace ((zlen c <=? 0) || (zlen c >? Mzip.BLOCK_SIZE * 2)) with false
      by lia.
    rewrite bytes_at_all.
    rewrite (u32_small (zlen c)) by (unfold Mzip.BLOCK_SIZE in *; lia).
    rewrite (u32_small k) by (unfold Mzip.BLOCK_SIZE in *; lia).
    set (hdr := Mzip.chunk_header 17 1 (zlen c)
                  (Mzip.update_adler32 1 c (zlen c)) k).
    unfold Mzip.write_chunk_header. fold hdr.
    destruct (IH (p + k) buffer' workmem' ((ofile ++ hdr) ++ c)
                (total + k) ltac:(lia) ltac:(lia))
      as (tail & Hpack & Hunpack).
    exists (hdr ++ c ++ tail). split.
    + rewrite Hpack. f_equal. tuple_eq. now rewrite <- !app_assoc.
    + intros pre fuel2 w dsz cbs dbs Hdsz Hf2.
      assert (Hhdr : zlen hdr = 16) by reflexivity.
      rewrite !zlen_app, Hhdr in Hf2.
      pose proof (zlen_nonneg tail) as Htail.
      destruct fuel2 as [|fuel2]; [lia|].
      destruct (unpack_data_step fuel2
                  (zlen pre + zlen (hdr ++ c ++ tail)) pre c tail name w
                  got fs0 dsz cbs dbs)
        as (cbs' & dbs' & Hstep).
      { unfold Mzip.MAX_COMPRESSED_CHUNK, Mzip.BLOCK_SIZE in *. lia. }
      { rewrite Hgot. unfold Mzip.MAX_DECOMPRESSED_CHUNK, Mzip.BLOCK_SIZE in *.
        lia. }
      { rewrite Hgot. apply Hd. lia. }
      { apply Hdsz. lia. }
      { rewrite !zlen_app, Hhdr. lia. }
      rewrite Hgot in Hstep. fold hdr in Hstep. rewrite Hstep.
      specialize (Hunpack ((pre ++ hdr) ++ c) fuel2 (w ++ got) dsz cbs' dbs').
      rewrite <- !app_assoc in Hunpack.
      rewrite !zlen_app, Hhdr in Hunpack.
      rewrite !zlen_app, Hhdr.
      replace (zlen pre + (16 + (zlen c + zlen tail)))
        with (zlen pre + (16 + zlen c) + zlen tail) by lia.
      replace (zlen pre + 16 + zlen c) with (zlen pre + (16 + zlen c))
        by lia.
      rewrite Hunpack; [| intros _; apply Hdsz; lia | lia].
      do 3 f_equal.
      replace (zlen data - p) with (k + (zlen data - (p + k))) by lia.
      rewrite bytes_at_split by lia. fold got.
      reflexivity.
Qed.

Lemma cstring_nul_free (s : list byte) : ~ In SafeName.NUL (SafeName.cstring s).
Proof.
  induction s as [|c s IH]; cbn [SafeName.cstring]; [tauto|].
  destruct (Byte.eqb c SafeName.NUL) eqn:E; [cbn; tauto|].
  apply byte_eqb_neq in E. cbn [In]. intros [H | H]; [congruence | tauto].
Qed.

Lemma after_last_slash_in (s : list byte) : forall shown x,
  In x (Archive.after_last_slash s shown) -> In x shown \/ In x s.
Proof.
  induction s as [|c s IH]; intros shown x Hx; cbn [Archive.after_last_slash] in Hx.
  - now left.
  - destruct (Byte.eqb c SafeName.slash); apply IH in Hx; cbn [In]; tauto.
Qed.

Lemma shown_name_nul_free (ifile : list byte) :
  ~ In SafeName.NUL (Archive.shown_name ifile).
Proof.
  unfold Archive.shown_name. intros H.
  apply after_last_slash_in in H.
  pose proof (cstring_nul_free ifile). tauto.
Qed.

Lemma is_safe_filename_rest (name r1 r2 : list byte) :
  ~ In SafeName.NUL name ->
  SafeName.is_safe_filename (Some (name ++ SafeName.NUL :: r1)) = true ->
  SafeName.is_safe_filename (Some (name ++ SafeName.NUL :: r2)) = true.
Proof.
  intros Hnul H. apply is_safe_filename_iff; [assumption|].
  now apply (is_safe_filename_iff name r1).
Qed.

Lemma fileinfo_fields (file_size ns : Z) (rest : list byte) :
  0 <= file_size -> 0 <= ns < 2 ^ 16 ->
  Mzip.read_u32 (Archive.fileinfo_fixed file_size ns ++ rest) 0
  = file_size mod 2 ^ 32
  /\ Mzip.read_u16 (Archive.fileinfo_fixed file_size ns ++ rest) 8 = ns.
Proof.
  intros Hf Hns. rewrite read_u32_le, read_u16_le.
  unfold Archive.fileinfo_fixed. cbn [app].
  repeat match goal with
         | |- context [byte_at ?l ?k] =>
             let v := eval cbv [byte_at Z.to_nat Pos.to_nat Pos.iter_op
                                Nat.add nth Z.add Pos.add Pos.succ]
                        in (byte_at l k) in
             change (byte_at l k) with v
         end.
  rewrite !unsigned_byte_field by lia.
  rewrite !unsigned_low_byte.
  assert (H16 : byte.unsigned (byte.of_Z (Z.shiftr ns 8)) = ns / 256).
  { rewrite Z.shiftr_div_pow2 by lia.
    change (2 ^ 8) with 256. apply unsigned_of_Z_small.
    change (2 ^ 16) with 65536 in Hns. lia. }
  rewrite H16.
  change (2 ^ 8) with 256. change (2 ^ 16) with 65536 in *.
  change (2 ^ 24) with 16777216. change (2 ^ 32) with 4294967296 in *.
  split; lia.
Qed.

(** one turn of [unpack_file] on the file information chunk of a safe
    name *)
Lemma unpack_fileinfo_step (fuel : nat) (fsize file_size : Z)
    (pre name rest : list byte) (fs : Archive.filesystem)
    (out0 : option (list byte)) (dsz0 cbs dbs : Z) :
  let ns := zlen name + 1 in
  let info := Archive.fileinfo_fixed file_size ns ++ name ++ [SafeName.NUL] in
  let archive :=
    pre ++ Mzip.chunk_header 1 0 (10 + ns)
             (Mzip.update_adler32 1 info (10 + ns)) 0 ++ info ++ rest in
  ~ In SafeName.NUL name ->
  SafeName.is_safe_filename (Some (name ++ [SafeName.NUL])) = true ->
  Archive.fs_lookup name fs = None ->
  zlen pre < fsize -> 0 <= file_size ->
  Archive.unpack_loop (S fuel) fsize
    {| Archive.in_file :=
         {| Mzip.contents := archive; Mzip.pos := zlen pre |};
       Archive.files := fs;
       Archive.out := out0;
       Archive.decompressed_size := dsz0;
       Archive.compressed_bufsize := cbs;
       Archive.decompressed_bufsize := dbs |}
  = Archive.unpack_loop fuel fsize
      {| Archive.in_file :=
           {| Mzip.contents := archive;
              Mzip.pos := zlen pre + 16 + (10 + ns) |};
         Archive.files := (name, []) :: fs;
         Archive.out := Some name;
         Archive.decompressed_size := file_size mod 2 ^ 32;
         Archive.compressed_bufsize := cbs;
         Archive.decompressed_bufsize := dbs |}.
Proof.
  intros ns info archive Hnul Hsafe Hfs Hpos Hsize.
  pose proof (proj1 (is_safe_filename_iff name [] Hnul) Hsafe)
    as (Hlen & _).
  assert (Hns : 1 < ns <= 256) by (subst ns; lia).
  assert (Hinfo : zlen info = 10 + ns).
  { subst info. rewrite !zlen_app.
    change (zlen (Archive.fileinfo_fixed file_size ns)) with 10.
    change (zlen [SafeName.NUL]) with 1. lia. }
  pose proof (update_adler32_range 1 info (10 + ns)) as Hsum.
  set (sum := Mzip.update_adler32 1 info (10 + ns)) in *.
  ustep.
  replace (zlen pre >=? fsize) with false by lia.
  unfold archive at 1.
  rewrite read_written_header by lia.
  ustep. unfold Mzip.MZIP_FILEINFO_CHUNK_ID, Mzip.MZIP_DATA_CHUNK_ID.
  change (1 =? 1) with true.
  replace (10 + ns >? 10) with true by lia.
  replace (10 + ns <? Mzip.BLOCK_SIZE) with true
    by (unfold Mzip.BLOCK_SIZE; lia).
  cbn [andb].
  unfold Archive.fileinfo_chunk. ustep.
  set (hdr := Mzip.chunk_header 1 0 (10 + ns) sum 0).
  assert (Hhdr : zlen hdr = 16) by reflexivity.
  rewrite fread_available; cbn [Mzip.contents Mzip.pos];
    [| lia | pose proof (zlen_nonneg pre); lia
     | rewrite !zlen_app, Hhdr, Hinfo; pose proof (zlen_nonneg rest); lia].
  replace (bytes_at (pre ++ hdr ++ info ++ rest) (zlen pre + 16) (10 + ns))
    with info.
  2:{ symmetry. rewrite (app_assoc pre hdr).
      apply bytes_at_middle; [rewrite zlen_app; lia | lia]. }
  rewrite Hinfo.
  replace (10 + ns =? 10 + ns) with true by lia. cbn [negb].
  fold sum. replace (sum =? sum) with true by lia. cbn [negb].
  cbv zeta.
  destruct (fileinfo_fields file_size ns (name ++ [SafeName.NUL]))
    as [Hu32 Hu16]; [lia | lia |].
  fold info in Hu32, Hu16. rewrite Hu32, Hu16.
  unfold Mzip.MZIP_FILEINFO_FIXED_SIZE.
  replace (ns >? 10 + ns - 10) with false by lia.
  replace (bytes_at info 10 ns) with (name ++ [SafeName.NUL]).
  2:{ symmetry. unfold info.
      replace (name ++ [SafeName.NUL]) with ((name ++ [SafeName.NUL]) ++ [])
        at 1 by apply app_nil_r.
      apply bytes_at_middle; [reflexivity|].
      rewrite zlen_app. reflexivity. }
  rewrite <- app_assoc. cbn [app].
  rewrite (is_safe_filename_rest name [] [SafeName.NUL] Hnul Hsafe).
  cbn [negb]. rewrite (cstring_terminated name [SafeName.NUL] Hnul).
  rewrite Hfs. ustep.
  change (1 =? 17) with false. cbn [andb].
  unfold Mzip.fseek_set. cbn [Mzip.contents Mzip.pos].
  reflexivity.
Qed.

(** X17. Archive round trip: packing a file whose shown name is accepted
    by [is_safe_filename], whose contents do not begin with the archive
    signature and whose size is not a positive multiple of 2^32, succeeds,
    and unpacking the archive in a directory that has no file of that name
    succeeds and creates exactly that file with the original contents. *)
Theorem mzip_pack_unpack (ifile data : list byte) (workmem : list Z)
    (fs : Archive.filesystem) :
  let name := Archive.shown_name ifile in
  SafeName.is_safe_filename (Some (name ++ [SafeName.NUL])) = true ->
  fst (Mzip.detect_magic {| Mzip.contents := data; Mzip.pos := 0 |})
  = false ->
  (0 < zlen data -> zlen data mod 2 ^ 32 <> 0) ->
  Archive.fs_lookup name fs = None ->
  exists archive,
    Archive.pack_file ifile data workmem = Some (0, archive)
    /\ Archive.unpack_file archive fs = Some (0, (name, data) :: fs).
Proof.
  intros name Hsafe Hmagic Hsize Hfs.
  pose proof (shown_name_nul_free ifile) as Hnul. fold name in Hnul.
  pose proof (proj1 (is_safe_filename_iff name [] Hnul) Hsafe)
    as (Hlen & _).
  pose proof (zlen_nonneg data) as Hdata.
  unfold Archive.pack_file, Archive.pack_file_compressed.
  destruct (Mzip.detect_magic {| Mzip.contents := data; Mzip.pos := 0 |})
    as [magic f] eqn:Edm.
  pose proof (proj2 (detect_magic_iff
                       {| Mzip.contents := data; Mzip.pos := 0 |})) as Hf.
  rewrite Edm in Hf. cbn [fst snd Mzip.contents] in Hf, Hmagic.
  subst magic f. cbv zeta. fold name.
  set (ns := zlen name + 1).
  set (fixed := Archive.fileinfo_fixed (zlen data) ns).
  set (buffer := fixed ++ repeat Byte.x00 (Z.to_nat (Mzip.BLOCK_SIZE - 10))).
  set (info := fixed ++ name ++ [SafeName.NUL]).
  assert (Hfixed : zlen fixed = 10) by reflexivity.
  assert (Hnm : zlen (name ++ [SafeName.NUL]) = ns)
    by (rewrite zlen_app; reflexivity).
  assert (Hsum : Mzip.update_adler32 (Mzip.update_adler32 1 buffer 10)
                   (name ++ [SafeName.NUL]) ns
                 = Mzip.update_adler32 1 info (10 + ns)).
  { unfold buffer. rewrite <- Hfixed at 2.
    rewrite update_adler32_prefix by lia.
    rewrite <- Hnm at 1. rewrite update_adler32_concat by lia.
    rewrite Hfixed, Hnm. reflexivity. }
  rewrite Hsum. clear Hsum.
  replace (bytes_at buffer 0 10) with fixed
    by (symmetry; apply (bytes_at_prefix fixed)).
  replace (bytes_at (name ++ [SafeName.NUL]) 0 ns)
    with (name ++ [SafeName.NUL])
    by (symmetry; rewrite <- Hnm; apply bytes_at_all).
  rewrite (u32_small (10 + ns)) by lia.
  unfold Mzip.write_chunk_header.
  set (hdr := Mzip.chunk_header 1 0 (10 + ns)
                (Mzip.update_adler32 1 info (10 + ns)) 0).
  set (ofile0 := ((Mzip.write_magic [] ++ hdr) ++ fixed)
                 ++ name ++ [SafeName.NUL]).
  destruct (pack_unpack_blocks data name fs (S (Z.to_nat (zlen data))) 0
              buffer workmem ofile0 0 ltac:(lia) ltac:(lia))
    as (tail & Hpack & Hunpack).
  rewrite Hpack. cbn [negb].
  replace (0 + (zlen data - 0) =? zlen data) with true by lia. cbn [negb].
  exists (ofile0 ++ tail). split; [reflexivity|].
  (* unpacking *)
  assert (Hofile0 : ofile0 = Mzip.write_magic [] ++ hdr ++ info).
  { unfold ofile0, info. now rewrite <- !app_assoc. }
  assert (Hhdr : zlen hdr = 16) by reflexivity.
  assert (Hinfo : zlen info = 10 + ns)
    by (unfold info; rewrite zlen_app, Hfixed, Hnm; reflexivity).
  assert (Hmag : zlen (Mzip.write_magic []) = 8) by reflexivity.
  assert (Hz0 : zlen ofile0 = 34 + ns)
    by (rewrite Hofile0, !zlen_app, Hhdr, Hinfo, Hmag; lia).
  pose proof (zlen_nonneg tail) as Htail.
  unfold Archive.unpack_file.
  destruct (Mzip.detect_magic
              {| Mzip.contents := ofile0 ++ tail; Mzip.pos := 0 |})
    as [magic f] eqn:Edm2.
  destruct (detect_magic_iff
              {| Mzip.contents := ofile0 ++ tail; Mzip.pos := 0 |})
    as [Hm Hf].
  rewrite Edm2 in Hm, Hf. cbn [fst snd Mzip.contents] in Hm, Hf.
  assert (magic = true) as ->.
  { apply Hm. exists (hdr ++ info ++ tail).
    rewrite Hofile0. now rewrite <- !app_assoc. }
  subst f. cbn [negb]. unfold Mzip.fseek_set.
  cbn [Mzip.contents Mzip.pos].
  rewrite zlen_app, Hz0.
  replace (ofile0 ++ tail)
    with (Mzip.write_magic [] ++ hdr ++ info ++ tail) at 1
    by (rewrite Hofile0; now rewrite <- !app_assoc).
  change 8 with (zlen (Mzip.write_magic [])) at 1.
  unfold hdr, info, fixed.
  rewrite (unpack_fileinfo_step _ _ (zlen data) (Mzip.write_magic []) name
             tail fs None 0 0 0 Hnul Hsafe Hfs); [| rewrite Hmag; lia | lia].
  fold ns. fold fixed. fold info. fold hdr.
  replace (Mzip.write_magic [] ++ hdr ++ info ++ tail)
    with (ofile0 ++ tail)
    by (rewrite Hofile0; now rewrite <- !app_assoc).
  replace (zlen (Mzip.write_magic []) + 16 + (10 + ns)) with (zlen ofile0)
    by lia.
  replace (34 + ns + zlen tail) with (zlen ofile0 + zlen tail) by lia.
  replace (Z.to_nat (zlen ofile0 + zlen tail))
    with (S (Z.to_nat (zlen ofile0 + zlen tail - 1))) by lia.
  rewrite Hunpack; [| intros H0; apply Hsize; lia | lia].
  rewrite Z.sub_0_r, bytes_at_all. reflexivity.
Qed.

(** the file [d/a.t] holding thirty times [ABC], unpacked in an empty
    directory *)
Definition sample_path : list byte :=
  [Byte.x64; Byte.x2f; Byte.x61; Byte.x2e; Byte.x74; Byte.x00].

Definition sample_file : list byte :=
  concat (repeat [Byte.x41; Byte.x42; Byte.x43] 30).

Lemma mzip_pack_unpack_witness :
  SafeName.is_safe_filename
    (Some (Archive.shown_name sample_path ++ [SafeName.NUL])) = true
  /\ fst (Mzip.detect_magic
            {| Mzip.contents := sample_file; Mzip.pos := 0 |}) = false
  /\ (0 < zlen sample_file -> zlen sample_file mod 2 ^ 32 <> 0)
  /\ Archive.fs_lookup (Archive.shown_name sample_path) [] = None
  /\ exists archive,
       Archive.pack_file sample_path sample_file [] = Some (0, archive)
       /\ Archive.unpack_file archive []
          = Some (0, [(Archive.shown_name sample_path, sample_file)]).
Proof.
  assert (H1 : SafeName.is_safe_filename
                 (Some (Archive.shown_name sample_path ++ [SafeName.NUL]))
               = true) by (vm_compute; reflexivity).
  assert (H2 : fst (Mzip.detect_magic
                      {| Mzip.contents := sample_file; Mzip.pos := 0 |})
               = false) by (vm_compute; reflexivity).
  assert (H3 : 0 < zlen sample_file -> zlen sample_file mod 2 ^ 32 <> 0)
    by (vm_compute; intros _ H; discriminate H).
  assert (H4 : Archive.fs_lookup (Archive.shown_name sample_path) [] = None)
    by reflexivity.
  split; [exact H1|]. split; [exact H2|]. split; [exact H3|].
  split; [exact H4|].
  exact (mzip_pack_unpack sample_path sample_file [] [] H1 H2 H3 H4).
Defined.

(** ** What unpacking can do to a directory *)









